(** * Codless landing page: the particle globe, the forms and the menus

    A shallow embedding of modules of the page script:

    - [ParticleGlobe]: the per-frame simulation of the particle field
      (geometry initialisation, shimmer, pointer repulsion, click impulse,
      visibility gate, resize and pointer handlers);
    - [FormHandling]: the validation of the newsletter form, and
      [NewsletterForm], the form in use;
    - [FAQ]: the accordion;
    - [NavbarScrollBehavior]: the navbar that hides on scroll;
    - [Navigation] and [NavigationOverlay]: the two versions of the menu;
    - [HeaderAnimations]: the split of a header into letters;
    - [SoundButton], [ToolsAnimation], [LetterReveal], [HorizontalScroll]:
      the sound button, the orbiting tools, the letters revealed by
      scrolling and the dots of the horizontal cards.

    JavaScript numbers are IEEE-754 binary64 values, so they are modelled by
    Rocq's primitive floats, which have the same operations and the same
    rounding.  A [Float32Array] rounds every stored value to binary32
    ([fround]).  Typed arrays are objects: they live in a store and are
    designated by references, so that two names for the same array see the
    same writes.  What the module receives from three.js, from the noise
    library and from the browser is gathered in the class [Host].  Elements
    of the page are described by the classes and attributes the handlers
    read and write. *)

From Stdlib Require Import ZArith QArith List Bool Floats Lia String Ascii.
From stdpp Require Import base list.
Import ListNotations.

Set Warnings "-inexact-float,-abstract-large-number".
Set Default Proof Using "Type".

(* ===================================================================== *)
(** ** JavaScript numbers *)
(* ===================================================================== *)

Module JS.

Local Open Scope float_scope.

(** [a > b] *)
Definition gt (a b : float) : bool := b <? a.

(** [a === b] on numbers: IEEE equality ([-0 === 0], [NaN !== NaN]). *)
Definition strict_eq (a b : float) : bool := a =? b.

(** [a || b] when [a] is a number: [0], [-0] and [NaN] are falsy. *)
Definition or_num (a b : float) : float :=
  if (a =? 0) || is_nan a then b else a.

(** [Math.fround]: the binary32 value nearest to [v] (ties to even), which
    is what a [Float32Array] element holds after [v] is stored in it. *)
Definition fround (v : float) : float :=
  match Prim2SF v with
  | S754_finite s m e =>
      SF2Prim (binary_normalize 24 128 (cond_Zopp s (Zpos m)) e s)
  | _ => v
  end.

(** Two numbers that no JavaScript comparison tells apart except through
    the sign of zero: the same value, or equal under [===]. *)
Definition same (a b : float) : Prop := a = b \/ strict_eq a b = true.

(** [Math.PI] *)
Definition Math_PI : float := 3.141592653589793.

(** [Number.isFinite(a)] and [Number.isNaN(a)] *)
Definition isFinite (a : float) : bool := is_finite a.
Definition isNaN (a : float) : bool := is_nan a.

(** In the IEEE description of a number: a zero, a finite number or an
    infinity of sign [s] (so, not a NaN). *)
Definition signed (s : bool) (f : spec_float) : Prop :=
  f = S754_zero s
  \/ (exists m e, f = S754_finite s m e)
  \/ f = S754_infinity s.

End JS.

(* ===================================================================== *)
(** ** Typed arrays in a store *)
(* ===================================================================== *)

Module TypedArray.

Local Open Scope float_scope.

Abbreviation Float32Array := (list float) (only parsing).
Abbreviation Heap := (list (list float)) (only parsing).
Abbreviation ref := nat (only parsing).

(** [new Float32Array(n)]: [n] zeros, a fresh object. *)
Definition alloc (n : nat) (h : Heap) : ref * Heap :=
  (length h, h ++ [replicate n 0]).

(** [new Float32Array(src)] with [src] a typed array: a fresh object
    holding a copy of the elements. *)
Definition alloc_copy (src : ref) (h : Heap) : ref * Heap :=
  (length h, h ++ [default [] (h !! src)]).

(** [a[k]] as a number handed to a [Vector3] constructor: an index out of
    range reads [undefined], which the constructor's default replaces by
    [0]. *)
Definition get (h : Heap) (a : ref) (k : nat) : float :=
  default 0 (h !! a ≫= (.!! k)).

(** [a[k] = v]: the value is rounded to binary32; an index out of range is
    ignored (typed arrays never grow). *)
Definition set (a : ref) (k : nat) (v : float) (h : Heap) : Heap :=
  alter (<[k := JS.fround v]>) a h.

(** The elements of the array [a] designates ([[]] for a dangling
    reference). *)
Definition contents (h : Heap) (a : ref) : Float32Array :=
  default [] (h !! a).

(** The array after the first [k] turns of a loop that writes the triple
    [F i] at turn [i]: [k] triples, then what the array held before. *)
Definition written (F : nat -> float * float * float) (k : nat)
    (before : list float) : list float :=
  flat_map (fun i => let '(a, b, c) := F i in [a; b; c]) (seq 0 k)
  ++ drop (k * 3) before.

End TypedArray.

(* ===================================================================== *)
(** ** The three.js values the module computes with *)
(* ===================================================================== *)

Module THREE.

Import TypedArray.
Local Open Scope float_scope.

Record Vector2 := mkVector2 { v2_x : float; v2_y : float }.
Record Vector3 := mkVector3 { x : float; y : float; z : float }.
Record Color := mkColor { r : float; g : float; b : float }.

(** [new THREE.Vector3()] *)
Definition zero3 : Vector3 := mkVector3 0 0 0.

Definition add (a v : Vector3) : Vector3 :=
  mkVector3 (x a + x v) (y a + y v) (z a + z v).

Definition sub (a v : Vector3) : Vector3 :=
  mkVector3 (x a - x v) (y a - y v) (z a - z v).

Definition multiplyScalar (a : Vector3) (s : float) : Vector3 :=
  mkVector3 (x a * s) (y a * s) (z a * s).

Definition divideScalar (a : Vector3) (s : float) : Vector3 :=
  multiplyScalar a (1 / s).

Definition length3 (a : Vector3) : float :=
  sqrt (x a * x a + y a * y a + z a * z a).

(** [normalize()] is [divideScalar(length() || 1)]. *)
Definition normalize (a : Vector3) : Vector3 :=
  divideScalar a (JS.or_num (length3 a) 1).

Definition distanceToSquared (a v : Vector3) : float :=
  let dx := x a - x v in
  let dy := y a - y v in
  let dz := z a - z v in
  dx * dx + dy * dy + dz * dz.

Definition distanceTo (a v : Vector3) : float :=
  sqrt (distanceToSquared a v).

(** [a.lerp(v, alpha)] *)
Definition lerp (a v : Vector3) (alpha : float) : Vector3 :=
  mkVector3 (x a + (x v - x a) * alpha)
            (y a + (y v - y a) * alpha)
            (z a + (z v - z a) * alpha).

(** [c.copy(a).lerp(v, alpha)] on colors. *)
Definition lerpColor (a v : Color) (alpha : float) : Color :=
  mkColor (r a + (r v - r a) * alpha)
          (g a + (g v - g a) * alpha)
          (b a + (b v - b a) * alpha).

(** A [BufferAttribute] wraps the array it is given (no copy) and counts
    the times [needsUpdate] was set. *)
Record BufferAttribute := mkAttribute
  { array : ref; itemSize : nat; version : nat }.

Definition getX (h : Heap) (a : BufferAttribute) (i : nat) : float :=
  get h (array a) (i * itemSize a).
Definition getY (h : Heap) (a : BufferAttribute) (i : nat) : float :=
  get h (array a) (i * itemSize a + 1).
Definition getZ (h : Heap) (a : BufferAttribute) (i : nat) : float :=
  get h (array a) (i * itemSize a + 2).

Definition setXYZ (a : BufferAttribute) (i : nat) (vx vy vz : float)
    (h : Heap) : Heap :=
  let index := (i * itemSize a)%nat in
  set (array a) (index + 2) vz
    (set (array a) (index + 1) vy
      (set (array a) index vx h)).

Definition needsUpdate (a : BufferAttribute) : BufferAttribute :=
  mkAttribute (array a) (itemSize a) (S (version a)).

(** What [getX], [getY], [getZ] read back after [setXYZ(i, v.x, v.y, v.z)]
    on a [Float32Array]. *)
Definition stored (v : Vector3) : Vector3 :=
  mkVector3 (JS.fround (x v)) (JS.fround (y v)) (JS.fround (z v)).

Definition storedColor (c : Color) : Color :=
  mkColor (JS.fround (r c)) (JS.fround (g c)) (JS.fround (b c)).

Definition triple (v : Vector3) : float * float * float := (x v, y v, z v).
Definition tripleColor (c : Color) : float * float * float := (r c, g c, b c).

(** Component by component the same JavaScript values. *)
Definition same3 (a v : Vector3) : Prop :=
  JS.same (x a) (x v) /\ JS.same (y a) (y v) /\ JS.same (z a) (z v).

(** [c.toArray(arr, offset)] *)
Definition toArray (c : Color) (arr : ref) (offset : nat) (h : Heap) : Heap :=
  set arr (offset + 2) (b c)
    (set arr (offset + 1) (g c)
      (set arr offset (r c) h)).

End THREE.

(* ===================================================================== *)
(** ** What the host provides *)
(* ===================================================================== *)

(** The capabilities the module is given: the transformation matrices, the
    camera projection, the orbit controls and the ray caster of three.js, the
    coherent noise function, the color parser, and the functions of [Math]
    whose results the language leaves to the implementation.  They are
    outside the script; the theorems hold for every host. *)
Class Host := {
  Matrix4 : Type;
  Pose : Type;
  (** [v.applyMatrix4(m)] *)
  applyMatrix4 : THREE.Vector3 -> Matrix4 -> THREE.Vector3;
  (** [m.clone().invert()] *)
  invert : Matrix4 -> Matrix4;
  (** the projection matrix [updateProjectionMatrix] builds from
      fov, aspect, near and far *)
  perspective : float -> float -> float -> float -> Matrix4;
  (** the placement of a camera created at the origin and moved to [z = 9] *)
  initialPose : Pose;
  (** [controls.update()]: damping and automatic rotation move the camera *)
  orbitUpdate : Pose -> Pose;
  (** [raycaster.setFromCamera(mouse, camera)] followed by
      [raycaster.intersectObject(intersectionSphere)]: the points where the
      ray meets the sphere, nearest first *)
  intersectSphere : THREE.Vector2 -> Matrix4 -> Pose -> list THREE.Vector3;
  (** [noise.noise3D(x, y, z)] of the [SimplexNoise] instance *)
  noise3D : float -> float -> float -> float;
  (** [new THREE.Color(hex)] *)
  parseColor : string -> THREE.Color;
  Math_sin : float -> float;
  Math_cos : float -> float;
  Math_acos : float -> float
}.

(* ===================================================================== *)
(** ** The particle globe *)
(* ===================================================================== *)

Module ParticleGlobe.

Import TypedArray THREE.
Local Open Scope float_scope.

Section WithHost.

Context `{Host}.

(** *** Constants set once by [init] *)

Definition NOISE_FREQUENCY : float := 0.3.
Definition NOISE_AMPLITUDE : float := 0.45.
Definition NOISE_SPEED : float := 0.03.
Definition GLOBE_RADIUS : float := 5.
Definition MOUSE_INFLUENCE_RADIUS : float := 2.
Definition MOUSE_REPEL_STRENGTH : float := 8.
Definition CLICK_INFLUENCE_RADIUS : float := 3.

(** *** State *)

(** A [PerspectiveCamera]: its parameters, the projection matrix computed at
    the last [updateProjectionMatrix], and where the orbit controls put it. *)
Record Camera := mkCamera {
  fov : float;
  aspect : float;
  near : float;
  far : float;
  projectionMatrix : Matrix4;
  pose : Pose
}.

(** The fields of the [ParticleGlobe] object the handlers read and write.
    [rendererSize] is the size last given to [renderer.setSize] ([None]
    before the first call); [frameRequests] and [renderCalls] count the calls
    to [requestAnimationFrame] and to [renderer.render]. *)
Record Globe := mkGlobe {
  isInView : bool;
  isTouchDevice : bool;
  isRendered : bool;
  clickPoint : Vector3;
  clickStrength : float;
  baseColor : Color;
  hotColor : Color;
  camera : Camera;
  rendererSize : option (float * float);
  PARTICLE_COUNT : nat;
  mouse : Vector2;
  heap : Heap;
  originalPositions : ref;
  animatedPositions : ref;
  positionAttribute : BufferAttribute;
  colorAttribute : BufferAttribute;
  frameRequests : nat;
  renderCalls : nat
}.

Definition set_isInView (v : bool) (s : Globe) : Globe :=
  mkGlobe v (isTouchDevice s) (isRendered s) (clickPoint s)
    (clickStrength s) (baseColor s) (hotColor s) (camera s)
    (rendererSize s) (PARTICLE_COUNT s) (mouse s) (heap s)
    (originalPositions s) (animatedPositions s) (positionAttribute s)
    (colorAttribute s) (frameRequests s) (renderCalls s).

Definition set_isRendered (v : bool) (s : Globe) : Globe :=
  mkGlobe (isInView s) (isTouchDevice s) v (clickPoint s) (clickStrength s)
    (baseColor s) (hotColor s) (camera s) (rendererSize s)
    (PARTICLE_COUNT s) (mouse s) (heap s) (originalPositions s)
    (animatedPositions s) (positionAttribute s) (colorAttribute s)
    (frameRequests s) (renderCalls s).

Definition set_clickPoint (v : Vector3) (s : Globe) : Globe :=
  mkGlobe (isInView s) (isTouchDevice s) (isRendered s) v (clickStrength s)
    (baseColor s) (hotColor s) (camera s) (rendererSize s)
    (PARTICLE_COUNT s) (mouse s) (heap s) (originalPositions s)
    (animatedPositions s) (positionAttribute s) (colorAttribute s)
    (frameRequests s) (renderCalls s).

Definition set_clickStrength (v : float) (s : Globe) : Globe :=
  mkGlobe (isInView s) (isTouchDevice s) (isRendered s) (clickPoint s) v
    (baseColor s) (hotColor s) (camera s) (rendererSize s)
    (PARTICLE_COUNT s) (mouse s) (heap s) (originalPositions s)
    (animatedPositions s) (positionAttribute s) (colorAttribute s)
    (frameRequests s) (renderCalls s).

Definition set_camera (v : Camera) (s : Globe) : Globe :=
  mkGlobe (isInView s) (isTouchDevice s) (isRendered s) (clickPoint s)
    (clickStrength s) (baseColor s) (hotColor s) v (rendererSize s)
    (PARTICLE_COUNT s) (mouse s) (heap s) (originalPositions s)
    (animatedPositions s) (positionAttribute s) (colorAttribute s)
    (frameRequests s) (renderCalls s).

Definition set_rendererSize (v : option (float * float)) (s : Globe) : Globe :=
  mkGlobe (isInView s) (isTouchDevice s) (isRendered s) (clickPoint s)
    (clickStrength s) (baseColor s) (hotColor s) (camera s) v
    (PARTICLE_COUNT s) (mouse s) (heap s) (originalPositions s)
    (animatedPositions s) (positionAttribute s) (colorAttribute s)
    (frameRequests s) (renderCalls s).

Definition set_mouse (v : Vector2) (s : Globe) : Globe :=
  mkGlobe (isInView s) (isTouchDevice s) (isRendered s) (clickPoint s)
    (clickStrength s) (baseColor s) (hotColor s) (camera s)
    (rendererSize s) (PARTICLE_COUNT s) v (heap s) (originalPositions s)
    (animatedPositions s) (positionAttribute s) (colorAttribute s)
    (frameRequests s) (renderCalls s).

Definition set_heap (v : Heap) (s : Globe) : Globe :=
  mkGlobe (isInView s) (isTouchDevice s) (isRendered s) (clickPoint s)
    (clickStrength s) (baseColor s) (hotColor s) (camera s)
    (rendererSize s) (PARTICLE_COUNT s) (mouse s) v (originalPositions s)
    (animatedPositions s) (positionAttribute s) (colorAttribute s)
    (frameRequests s) (renderCalls s).

Definition set_frameRequests (v : nat) (s : Globe) : Globe :=
  mkGlobe (isInView s) (isTouchDevice s) (isRendered s) (clickPoint s)
    (clickStrength s) (baseColor s) (hotColor s) (camera s)
    (rendererSize s) (PARTICLE_COUNT s) (mouse s) (heap s)
    (originalPositions s) (animatedPositions s) (positionAttribute s)
    (colorAttribute s) v (renderCalls s).

Definition set_renderCalls (v : nat) (s : Globe) : Globe :=
  mkGlobe (isInView s) (isTouchDevice s) (isRendered s) (clickPoint s)
    (clickStrength s) (baseColor s) (hotColor s) (camera s)
    (rendererSize s) (PARTICLE_COUNT s) (mouse s) (heap s)
    (originalPositions s) (animatedPositions s) (positionAttribute s)
    (colorAttribute s) (frameRequests s) v.

Definition set_positionAttribute (v : BufferAttribute) (s : Globe) : Globe :=
  mkGlobe (isInView s) (isTouchDevice s) (isRendered s) (clickPoint s)
    (clickStrength s) (baseColor s) (hotColor s) (camera s)
    (rendererSize s) (PARTICLE_COUNT s) (mouse s) (heap s)
    (originalPositions s) (animatedPositions s) v (colorAttribute s)
    (frameRequests s) (renderCalls s).

Definition set_colorAttribute (v : BufferAttribute) (s : Globe) : Globe :=
  mkGlobe (isInView s) (isTouchDevice s) (isRendered s) (clickPoint s)
    (clickStrength s) (baseColor s) (hotColor s) (camera s)
    (rendererSize s) (PARTICLE_COUNT s) (mouse s) (heap s)
    (originalPositions s) (animatedPositions s) (positionAttribute s) v
    (frameRequests s) (renderCalls s).

(** *** What the browser reports at each call *)

(** At a frame: the size of the container, the clock, and the world matrix
    of the point cloud. *)
Record FrameEnv := mkFrameEnv {
  clientWidth : float;
  clientHeight : float;
  elapsedTime : float;
  matrixWorld : Matrix4
}.

(** [container.getBoundingClientRect()] *)
Record DOMRect := mkDOMRect {
  left : float;
  top : float;
  width : float;
  height : float
}.

(** A mouse event or a touch point: its client coordinates. *)
Record Point := mkPoint { clientX : float; clientY : float }.

(** *** [setupGlobe] *)

(** The position computed for one particle from the two draws. *)
Definition spherePoint (u v : float) : Vector3 :=
  let theta := 2 * JS.Math_PI * u in
  let phi := Math_acos (2 * v - 1) in
  mkVector3 (GLOBE_RADIUS * Math_sin phi * Math_cos theta)
            (GLOBE_RADIUS * Math_sin phi * Math_sin theta)
            (GLOBE_RADIUS * Math_cos phi).

(** One turn of the initialisation loop.  [random k] is the value the
    [k]-th call of [Math.random] returns. *)
Definition setupParticle (random : nat -> float) (base : Color)
    (positions colors : ref) (h : Heap) (i : nat) : Heap :=
  let u := random (2 * i)%nat in
  let v := random (2 * i + 1)%nat in
  let p := spherePoint u v in
  let h := set positions (i * 3) (x p) h in
  let h := set positions (i * 3 + 1) (y p) h in
  let h := set positions (i * 3 + 2) (z p) h in
  toArray base colors (i * 3) h.

(** The part of [setupGlobe] that builds the particle buffers (the rest
    configures the renderer, the controls and the material, which no
    handler reads back). *)
Definition setupGlobe (random : nat -> float) (s : Globe) : Globe :=
  let '(positions, h) := alloc (PARTICLE_COUNT s * 3) (heap s) in
  let '(colors, h) := alloc (PARTICLE_COUNT s * 3) h in
  let h := fold_left (setupParticle random (baseColor s) positions colors)
                     (seq 0 (PARTICLE_COUNT s)) h in
  let '(original, h) := alloc_copy positions h in
  let '(animated, h) := alloc_copy positions h in
  mkGlobe (isInView s) (isTouchDevice s) (isRendered s) (clickPoint s)
    (clickStrength s) (baseColor s) (hotColor s) (camera s)
    (rendererSize s) (PARTICLE_COUNT s) (mouse s) h original animated
    (mkAttribute animated 3 0) (mkAttribute colors 3 0)
    (frameRequests s) (renderCalls s).

(** *** [onWindowResize] *)

Definition updateProjectionMatrix (c : Camera) : Camera :=
  mkCamera (fov c) (aspect c) (near c) (far c)
    (perspective (fov c) (aspect c) (near c) (far c)) (pose c).

Definition set_aspect (a : float) (c : Camera) : Camera :=
  mkCamera (fov c) a (near c) (far c) (projectionMatrix c) (pose c).

(** [w] and [h] are [container.clientWidth] and [container.clientHeight].
    (The container exists: [init] stops before creating the globe when it
    does not.) *)
Definition onWindowResize (w h : float) (s : Globe) : Globe :=
  if JS.strict_eq w 0 || JS.strict_eq h 0 then s
  else
    let s := set_camera (set_aspect (w / h) (camera s)) s in
    let s := set_camera (updateProjectionMatrix (camera s)) s in
    set_rendererSize (Some (w, h)) s.

(** *** [animate] *)

(** The two statements that decay the impulse strength. *)
Definition decay (strength : float) : float :=
  let strength := if JS.gt strength 0 then strength * 0.95 else strength in
  if strength <? 0.01 then 0 else strength.

(** [raycaster.setFromCamera(mouse, camera)] and
    [raycaster.intersectObject(intersectionSphere)]. *)
Definition raycast (s : Globe) : list Vector3 :=
  intersectSphere (mouse s) (projectionMatrix (camera s)) (pose (camera s)).

(** [(intersects.length > 0) ? intersects[0].point : new THREE.Vector3()] *)
Definition mouse3D (intersects : list Vector3) : Vector3 :=
  match intersects with
  | p :: _ => p
  | [] => zero3
  end.

Definition noiseValue (originalPos : Vector3) (time : float) : float :=
  noise3D (x originalPos * NOISE_FREQUENCY)
          (y originalPos * NOISE_FREQUENCY)
          (z originalPos * NOISE_FREQUENCY + (time * NOISE_SPEED)).

Definition shimmeringPos (originalPos : Vector3) (time : float) : Vector3 :=
  let normal := normalize originalPos in
  let shimmerOffset :=
    multiplyScalar normal (noiseValue originalPos time * NOISE_AMPLITUDE) in
  add originalPos shimmerOffset.

Definition currentColor (base hot : Color) (originalPos : Vector3)
    (time : float) : Color :=
  let normalizedNoise := (noiseValue originalPos time + 1) * 0.5 in
  lerpColor base hot normalizedNoise.

(** The test of the hover branch. *)
Definition hovering (touch : bool) (world pointer : Vector3) : bool :=
  (distanceTo world pointer <? MOUSE_INFLUENCE_RADIUS) && negb touch.

(** The vector the hover branch adds to [totalDisplacement]. *)
Definition hoverRepulsion (world pointer : Vector3) : Vector3 :=
  let hoverDistance := distanceTo world pointer in
  let hoverDirection := normalize (sub world pointer) in
  let hoverRepelStrength :=
    ((MOUSE_INFLUENCE_RADIUS - hoverDistance) / MOUSE_INFLUENCE_RADIUS)
    * MOUSE_REPEL_STRENGTH in
  multiplyScalar hoverDirection hoverRepelStrength.

(** The test of the click branch (the two nested conditions). *)
Definition pushing (strength : float) (world origin : Vector3) : bool :=
  JS.gt strength 0 && (distanceTo world origin <? CLICK_INFLUENCE_RADIUS).

(** The vector the click branch adds to [totalDisplacement]. *)
Definition clickPush (strength : float) (world origin : Vector3) : Vector3 :=
  let clickDistance := distanceTo world origin in
  let clickDirection := normalize (sub world origin) in
  let clickPushStrength :=
    ((CLICK_INFLUENCE_RADIUS - clickDistance) / CLICK_INFLUENCE_RADIUS)
    * strength in
  multiplyScalar clickDirection clickPushStrength.

(** [totalDisplacement] once both branches have run. *)
Definition totalDisplacement (touch : bool) (strength : float)
    (world pointer origin : Vector3) : Vector3 :=
  let total := zero3 in
  let total :=
    if hovering touch world pointer
    then add total (hoverRepulsion world pointer) else total in
  if pushing strength world origin
  then add total (clickPush strength world origin) else total.

(** [worldTargetPos] *)
Definition worldTargetPos (touch : bool) (strength : float)
    (world pointer origin : Vector3) : Vector3 :=
  add world (totalDisplacement touch strength world pointer origin).

(** [targetPos], in the coordinates of the point cloud. *)
Definition targetPos (m : Matrix4) (touch : bool) (strength : float)
    (pointer origin : Vector3) (originalPos : Vector3) (time : float)
    : Vector3 :=
  let worldShimmeringPos := applyMatrix4 (shimmeringPos originalPos time) m in
  applyMatrix4
    (worldTargetPos touch strength worldShimmeringPos pointer origin)
    (invert m).

(** The original position of particle [i], read from the store. *)
Definition originalPos (s : Globe) (h : Heap) (i : nat) : Vector3 :=
  let i3 := (i * 3)%nat in
  mkVector3 (get h (originalPositions s) i3)
            (get h (originalPositions s) (i3 + 1))
            (get h (originalPositions s) (i3 + 2)).

(** The animated position of particle [i], read through the attribute. *)
Definition animatedPos (s : Globe) (h : Heap) (i : nat) : Vector3 :=
  mkVector3 (getX h (positionAttribute s) i)
            (getY h (positionAttribute s) i)
            (getZ h (positionAttribute s) i).

(** The color of particle [i], read through the attribute. *)
Definition particleColor (s : Globe) (h : Heap) (i : nat) : Color :=
  mkColor (getX h (colorAttribute s) i)
          (getY h (colorAttribute s) i)
          (getZ h (colorAttribute s) i).

(** The color and the position the loop computes for particle [i] from
    the store [h], before they are written back.  [s] carries the already
    decayed strength. *)
Definition nextColor (env : FrameEnv) (s : Globe) (h : Heap) (i : nat)
    : Color :=
  currentColor (baseColor s) (hotColor s) (originalPos s h i)
    (elapsedTime env).

Definition nextPosition (env : FrameEnv) (s : Globe) (pointer : Vector3)
    (h : Heap) (i : nat) : Vector3 :=
  let target :=
    targetPos (matrixWorld env) (isTouchDevice s) (clickStrength s)
      pointer (clickPoint s) (originalPos s h i) (elapsedTime env) in
  lerp (animatedPos s h i) target 0.08.

(** One turn of the loop over the particles: both vectors are read, the
    color is written, then the position; only the store changes. *)
Definition animateParticle (env : FrameEnv) (s : Globe) (pointer : Vector3)
    (h : Heap) (i : nat) : Heap :=
  let c := nextColor env s h i in
  let p := nextPosition env s pointer h i in
  let h := setXYZ (colorAttribute s) i (r c) (g c) (b c) h in
  setXYZ (positionAttribute s) i (x p) (y p) (z p) h.

Definition controlsUpdate (c : Camera) : Camera :=
  mkCamera (fov c) (aspect c) (near c) (far c) (projectionMatrix c)
    (orbitUpdate (pose c)).

(** The one-time resize of the first frame that finds the container laid
    out. *)
Definition firstLayout (env : FrameEnv) (s : Globe) : Globe :=
  if negb (isRendered s) && JS.gt (clientWidth env) 0
  then set_isRendered true
         (onWindowResize (clientWidth env) (clientHeight env) s)
  else s.

(** [mouse3D] of the frame: where the pointer ray meets the sphere, or the
    origin. *)
Definition framePointer (env : FrameEnv) (s : Globe) : Vector3 :=
  mouse3D (raycast (firstLayout env s)).

Definition animate (env : FrameEnv) (s : Globe) : Globe :=
  let s := set_frameRequests (S (frameRequests s)) s in
  if negb (isInView s) then s
  else
    let s := firstLayout env s in
    let pointer := mouse3D (raycast s) in
    let s := set_clickStrength (decay (clickStrength s)) s in
    let h := fold_left (animateParticle env s pointer)
                       (seq 0 (PARTICLE_COUNT s)) (heap s) in
    let s := set_heap h s in
    let s := set_positionAttribute (needsUpdate (positionAttribute s)) s in
    let s := set_colorAttribute (needsUpdate (colorAttribute s)) s in
    let s := set_camera (controlsUpdate (camera s)) s in
    set_renderCalls (S (renderCalls s)) s.

(** *** Pointer handlers *)

Definition pointerToMouse (p : Point) (rect : DOMRect) : Vector2 :=
  mkVector2 (((clientX p - left rect) / width rect) * 2 - 1)
            ((- ((clientY p - top rect) / height rect)) * 2 + 1).

Definition onMouseMove (p : Point) (rect : DOMRect) (s : Globe) : Globe :=
  set_mouse (pointerToMouse p rect) s.

Definition triggerDisperse (p : Point) (rect : DOMRect) (s : Globe) : Globe :=
  let s := set_mouse (pointerToMouse p rect) s in
  match raycast s with
  | hit :: _ => set_clickStrength 15 (set_clickPoint hit s)
  | [] => s
  end.

Definition onMouseClick (p : Point) (rect : DOMRect) (s : Globe) : Globe :=
  triggerDisperse p rect s.

(** [touches] is [event.touches]. *)
Definition onTouchStart (touches : list Point) (rect : DOMRect) (s : Globe)
    : Globe :=
  match touches with
  | touch :: _ => triggerDisperse touch rect s
  | [] => s
  end.

(** The callback of the intersection observer; an entry is its
    [isIntersecting]. *)
Definition onIntersection (entries : list bool) (s : Globe) : Globe :=
  fold_left (fun s entry => set_isInView entry s) entries s.

(** *** [init] and the life of the component *)

(** [new THREE.PerspectiveCamera(75, 1, 0.1, 1000)] *)
Definition newCamera : Camera :=
  mkCamera 75 1 0.1 1000 (perspective 75 1 0.1 1000) initialPose.

(** The object as [init] fills it before calling [setupGlobe]. *)
Definition fresh (touch : bool) : Globe :=
  mkGlobe true touch false zero3 0
    (parseColor "#508AA8") (parseColor "#DE6B48")
    newCamera None 20000%nat (mkVector2 (-100) (-100))
    [] 0%nat 0%nat (mkAttribute 0%nat 3 0) (mkAttribute 0%nat 3 0)
    0%nat 0%nat.

(** [init]: nothing when the container is not in the page; otherwise the
    fields are set, the buffers built and [animate] runs once. *)
Definition init (container touch : bool) (random : nat -> float)
    (env : FrameEnv) : option Globe :=
  if negb container then None
  else Some (animate env (setupGlobe random (fresh touch))).

(** What can happen to the component after [init]. *)
Inductive Event :=
| Frame (env : FrameEnv)
| Resize (w h : float)
| MouseMove (p : Point) (rect : DOMRect)
| Click (p : Point) (rect : DOMRect)
| TouchStart (touches : list Point) (rect : DOMRect)
| Intersection (entries : list bool).

(** [setupEventListeners]: a touch device listens to [touchstart] only, the
    others to [mousemove] and [click]; both listen to [resize]. *)
Definition handle (s : Globe) (e : Event) : Globe :=
  match e with
  | Frame env => animate env s
  | Resize w h => onWindowResize w h s
  | MouseMove p rect =>
      if isTouchDevice s then s else onMouseMove p rect s
  | Click p rect =>
      if isTouchDevice s then s else onMouseClick p rect s
  | TouchStart touches rect =>
      if isTouchDevice s then onTouchStart touches rect s else s
  | Intersection entries => onIntersection entries s
  end.

Definition run (events : list Event) (s : Globe) : Globe :=
  fold_left handle events s.

(** The impulse strength after [n] decays. *)
Fixpoint decayed (n : nat) (strength : float) : float :=
  match n with
  | O => strength
  | S k => decay (decayed k strength)
  end.

(** *** What stays true of the state *)

Local Open Scope nat_scope.

(** [s'] has the references, the constants and the layout of [s]. *)
Definition sameLayout (s s' : Globe) : Prop :=
  originalPositions s' = originalPositions s /\
  animatedPositions s' = animatedPositions s /\
  array (positionAttribute s') = array (positionAttribute s) /\
  array (colorAttribute s') = array (colorAttribute s) /\
  itemSize (positionAttribute s') = itemSize (positionAttribute s) /\
  itemSize (colorAttribute s') = itemSize (colorAttribute s) /\
  PARTICLE_COUNT s' = PARTICLE_COUNT s /\
  isTouchDevice s' = isTouchDevice s /\
  baseColor s' = baseColor s /\
  hotColor s' = hotColor s.

(** The attributes hold triples, and the three arrays are distinct objects
    with one triple per particle. *)
Definition wellFormed (s : Globe) : Prop :=
  itemSize (positionAttribute s) = 3 /\
  itemSize (colorAttribute s) = 3 /\
  array (positionAttribute s) <> array (colorAttribute s) /\
  originalPositions s <> array (positionAttribute s) /\
  originalPositions s <> array (colorAttribute s) /\
  length (contents (heap s) (array (positionAttribute s)))
    = PARTICLE_COUNT s * 3 /\
  length (contents (heap s) (array (colorAttribute s)))
    = PARTICLE_COUNT s * 3.

(** The triple the initialisation stores for particle [i]. *)
Definition initialTriple (random : nat -> float) (i : nat)
    : float * float * float :=
  triple (stored (spherePoint (random (2 * i)) (random (2 * i + 1)))).

End WithHost.

End ParticleGlobe.

(* ===================================================================== *)
(** ** The newsletter form *)
(* ===================================================================== *)

Module FormHandling.

Local Open Scope N_scope.

(** A JavaScript string is a sequence of UTF-16 code units. *)
Abbreviation JSString := (list N) (only parsing).

(** *** The regular expression of [isValidEmail] *)

(** What [\s] matches: the white space and the line terminators of
    ECMAScript. *)
Definition isWhiteSpace (c : N) : bool :=
  (c =? 9) || (c =? 10) || (c =? 11) || (c =? 12) || (c =? 13)
  || (c =? 32) || (c =? 160) || (c =? 5760)
  || ((8192 <=? c) && (c <=? 8202))
  || (c =? 8232) || (c =? 8233) || (c =? 8239) || (c =? 8287)
  || (c =? 12288) || (c =? 65279).

Definition AT : N := 64.
Definition DOT : N := 46.

(** The class [[^\s@]]. *)
Definition notSpaceNorAt (c : N) : bool :=
  negb (isWhiteSpace c) && negb (c =? AT).

(** Patterns over code units, as far as the literal needs them. *)
Inductive Regex :=
| Never
| Empty
| Class (p : N -> bool)
| Seq (r1 r2 : Regex)
| Or (r1 r2 : Regex)
| Many (r : Regex).

Definition Char (c : N) : Regex := Class (N.eqb c).

(** [r+] *)
Definition OneOrMore (r : Regex) : Regex := Seq r (Many r).

(** The literal, between its anchors [^] and [$]:
    [[^\s@]+ @ [^\s@]+ \. [^\s@]+]. *)
Definition emailRegex : Regex :=
  Seq (OneOrMore (Class notSpaceNorAt))
    (Seq (Char AT)
       (Seq (OneOrMore (Class notSpaceNorAt))
          (Seq (Char DOT) (OneOrMore (Class notSpaceNorAt))))).

Fixpoint nullable (r : Regex) : bool :=
  match r with
  | Never => false
  | Empty => true
  | Class _ => false
  | Seq r1 r2 => nullable r1 && nullable r2
  | Or r1 r2 => nullable r1 || nullable r2
  | Many _ => true
  end.

(** What is left of [r] to match once [c] has been read. *)
Fixpoint derive (c : N) (r : Regex) : Regex :=
  match r with
  | Never => Never
  | Empty => Never
  | Class p => if p c then Empty else Never
  | Seq r1 r2 =>
      if nullable r1
      then Or (Seq (derive c r1) r2) (derive c r2)
      else Seq (derive c r1) r2
  | Or r1 r2 => Or (derive c r1) (derive c r2)
  | Many r1 => Seq (derive c r1) (Many r1)
  end.

(** [regex.test(s)] for a pattern anchored at both ends: the whole string
    has to match. *)
Fixpoint test (r : Regex) (s : JSString) : bool :=
  match s with
  | [] => nullable r
  | c :: s => test (derive c r) s
  end.

(** The strings a pattern matches. *)
Inductive Matches : Regex -> JSString -> Prop :=
| MatchEmpty : Matches Empty []
| MatchClass p c : p c = true -> Matches (Class p) [c]
| MatchSeq r1 r2 s1 s2 :
    Matches r1 s1 -> Matches r2 s2 -> Matches (Seq r1 r2) (s1 ++ s2)
| MatchOrL r1 r2 s : Matches r1 s -> Matches (Or r1 r2) s
| MatchOrR r1 r2 s : Matches r2 s -> Matches (Or r1 r2) s
| MatchManyNil r : Matches (Many r) []
| MatchManyCons r s1 s2 :
    Matches r s1 -> Matches (Many r) s2 -> Matches (Many r) (s1 ++ s2).

Definition isValidEmail (email : JSString) : bool := test emailRegex email.

(** A non-empty run of code units that are neither white space nor [@]. *)
Definition word (s : JSString) : Prop :=
  s <> [] /\ Forall (fun c => notSpaceNorAt c = true) s.

(** [local@domain.tld], each part a [word]. *)
Definition wellFormedAddress (s : JSString) : Prop :=
  exists a b c, s = a ++ AT :: b ++ DOT :: c /\ word a /\ word b /\ word c.

(** *** The page *)

Inductive Kind := info | success | error.

(** A toast: [showMessage] appends one to the body. *)
Record Notification := mkNotification {
  message : string;
  kind : Kind
}.

(** The element [#newsletter-error]. *)
Record ErrorElement := mkErrorElement {
  textContent : string;
  className : string;
  alertRole : bool
}.

(** The email field of the form. *)
Record EmailInput := mkEmailInput {
  value : JSString;
  defaultValue : JSString;
  ariaInvalid : bool;
  focused : bool
}.

(** What the handler reads and writes: the field and the error element
    (either may be missing from the page), the toasts shown so far, and the
    number of calls to [form.reset]. *)
Record Page := mkPage {
  emailInput : option EmailInput;
  errorElement : option ErrorElement;
  notifications : list Notification;
  formResets : nat
}.

Definition showMessage (text : string) (type : Kind) (pg : Page) : Page :=
  mkPage (emailInput pg) (errorElement pg)
    (notifications pg ++ [mkNotification text type]) (formResets pg).

(** The two statements under [if (errorElement)] that clear the error. *)
Definition clearError (pg : Page) : Page :=
  mkPage (emailInput pg)
    (option_map (fun e => mkErrorElement "" "sr-only" (alertRole e))
       (errorElement pg))
    (notifications pg) (formResets pg).

Definition showFormError (text : string) (pg : Page) : Page :=
  let pg :=
    mkPage (emailInput pg)
      (option_map (fun _ => mkErrorElement text "form-error" true)
         (errorElement pg))
      (notifications pg) (formResets pg) in
  let pg :=
    mkPage
      (option_map
         (fun i => mkEmailInput (value i) (defaultValue i) true true)
         (emailInput pg))
      (errorElement pg) (notifications pg) (formResets pg) in
  showMessage text error pg.

(** [form.reset()]: the field goes back to its default value. *)
Definition reset (pg : Page) : Page :=
  mkPage
    (option_map
       (fun i => mkEmailInput (defaultValue i) (defaultValue i)
                   (ariaInvalid i) (focused i))
       (emailInput pg))
    (errorElement pg) (notifications pg) (S (formResets pg)).

Definition handleNewsletterSubmission (pg : Page) : Page :=
  let email := option_map value (emailInput pg) in
  let pg := clearError pg in
  match email with
  | None | Some [] => showFormError "Please enter an email address." pg
  | Some email =>
      if negb (isValidEmail email)
      then showFormError "Please enter a valid email address." pg
      else
        let pg := showMessage "Thank you for subscribing!" success pg in
        let pg := reset pg in
        clearError pg
  end.

(** The text of an address typed on an ASCII keyboard. *)
Definition ofString (s : string) : JSString :=
  map (fun a => N.of_nat (nat_of_ascii a)) (list_ascii_of_string s).

End FormHandling.

(* ===================================================================== *)
(** ** A host to compute with *)
(* ===================================================================== *)

(** A small host on which the model runs inside Rocq: the point cloud is
    not transformed (its world matrix is the identity), the camera looks
    down the z axis with parallel rays, and the functions of [Math] are
    given by short polynomials.  It only serves to evaluate the model on
    concrete inputs. *)
Module SampleHost.

Import THREE.
Local Open Scope float_scope.

Definition hexDigit (c : ascii) : float :=
  let n := nat_of_ascii c in
  if (48 <=? n)%nat && (n <=? 57)%nat then of_uint63 (Uint63.of_nat (n - 48))
  else if (65 <=? n)%nat && (n <=? 70)%nat
       then of_uint63 (Uint63.of_nat (n - 55))
  else if (97 <=? n)%nat && (n <=? 102)%nat
       then of_uint63 (Uint63.of_nat (n - 87))
  else 0.

Definition channel (hi lo : ascii) : float :=
  (hexDigit hi * 16 + hexDigit lo) / 255.

(** [#rrggbb] with each channel scaled to [0, 1]. *)
Definition parseHex (hex : string) : Color :=
  match hex with
  | String _ (String r1 (String r2 (String g1 (String g2
      (String b1 (String b2 EmptyString)))))) =>
      mkColor (channel r1 r2) (channel g1 g2) (channel b1 b2)
  | _ => mkColor 1 1 1
  end.

(** An angle of [[0, 2 * PI)] brought back to [(-PI, PI]]. *)
Definition wrap (a : float) : float :=
  if JS.Math_PI <? a then a - 2 * JS.Math_PI else a.

Definition sinPoly (a : float) : float :=
  let a := wrap a in
  let a2 := a * a in
  a * (1 - a2 / 6 * (1 - a2 / 20 * (1 - a2 / 42 * (1 - a2 / 72)))).

Definition cosPoly (a : float) : float :=
  let a := wrap a in
  let a2 := a * a in
  1 - a2 / 2 * (1 - a2 / 12 * (1 - a2 / 30 * (1 - a2 / 56))).

Definition acosPoly (a : float) : float :=
  let a2 := a * a in
  JS.Math_PI / 2 - a * (1 + a2 / 6 * (1 + a2 * 9 / 20)).

(** Parallel rays along the z axis: the pointer at [(mx, my)] meets the
    sphere of radius 5 when it is inside the unit disc. *)
Definition parallelRay (mouse : Vector2) : list Vector3 :=
  let d := v2_x mouse * v2_x mouse + v2_y mouse * v2_y mouse in
  if d <=? 1
  then [mkVector3 (5 * v2_x mouse) (5 * v2_y mouse) (5 * sqrt (1 - d));
        mkVector3 (5 * v2_x mouse) (5 * v2_y mouse) (- (5 * sqrt (1 - d)))]
  else [].

Definition ripple (a b c : float) : float :=
  let t := a * b + c in t / (1 + abs t).

#[export] Instance host : Host := {|
  Matrix4 := unit;
  Pose := nat;
  applyMatrix4 := fun v _ => v;
  invert := fun m => m;
  perspective := fun _ _ _ _ => tt;
  initialPose := 0%nat;
  orbitUpdate := S;
  intersectSphere := fun mouse _ _ => parallelRay mouse;
  noise3D := ripple;
  parseColor := parseHex;
  Math_sin := sinPoly;
  Math_cos := cosPoly;
  Math_acos := acosPoly
|}.

(** Draws for the examples: 0.125, 0.25, 0.375, ... modulo 1. *)
Definition draws (k : nat) : float :=
  let a := of_uint63 (Uint63.of_nat (S k)) / 8 in
  a - of_uint63 (Uint63.of_nat (S k / 8)).

(** The globe of [init], with four particles instead of 20000. *)
Definition four : ParticleGlobe.Globe :=
  let s := ParticleGlobe.fresh false in
  ParticleGlobe.mkGlobe
    (ParticleGlobe.isInView s) (ParticleGlobe.isTouchDevice s)
    (ParticleGlobe.isRendered s) (ParticleGlobe.clickPoint s)
    (ParticleGlobe.clickStrength s) (ParticleGlobe.baseColor s)
    (ParticleGlobe.hotColor s) (ParticleGlobe.camera s)
    (ParticleGlobe.rendererSize s) 4 (ParticleGlobe.mouse s)
    (ParticleGlobe.heap s) (ParticleGlobe.originalPositions s)
    (ParticleGlobe.animatedPositions s)
    (ParticleGlobe.positionAttribute s) (ParticleGlobe.colorAttribute s)
    (ParticleGlobe.frameRequests s) (ParticleGlobe.renderCalls s).

(** A frame of a laid out, 800 by 600 container, [t] seconds in. *)
Definition frame (t : float) : ParticleGlobe.FrameEnv :=
  ParticleGlobe.mkFrameEnv 800 600 t tt.

Definition rect : ParticleGlobe.DOMRect :=
  ParticleGlobe.mkDOMRect 0 0 800 600.

(** The four-particle globe once built; the same after a click in the
    middle of the container; the same scrolled out of view. *)
Definition built : ParticleGlobe.Globe := ParticleGlobe.setupGlobe draws four.

Definition clicked : ParticleGlobe.Globe :=
  ParticleGlobe.onMouseClick (ParticleGlobe.mkPoint 400 300) rect built.

Definition hidden : ParticleGlobe.Globe :=
  ParticleGlobe.onIntersection [false] built.

(** The pointer moved over the third particle. *)
Definition pointerOverThird : list ParticleGlobe.Event :=
  [ParticleGlobe.MouseMove (ParticleGlobe.mkPoint 229 463) rect].

End SampleHost.

(* ===================================================================== *)
(** * The newsletter form in use

    What happens to the page of [FormHandling] between two submissions: the
    visitor edits the email field, submits the form, or presses one of the
    contact buttons. *)

Module NewsletterForm.

Import FormHandling.

(** The visitor's edit: the field holds [text]. *)
Definition input (text : JSString) (pg : Page) : Page :=
  mkPage
    (option_map
       (fun i => mkEmailInput text (defaultValue i) (ariaInvalid i) (focused i))
       (emailInput pg))
    (errorElement pg) (notifications pg) (formResets pg).

Definition handleContactClick (pg : Page) : Page :=
  showMessage
    "Contact form would open here. Integration with calendly or contact form needed."
    info pg.

Inductive Event :=
| Input (text : JSString)
| Submit
| ContactClick.

Definition handle (pg : Page) (e : Event) : Page :=
  match e with
  | Input text => input text pg
  | Submit => handleNewsletterSubmission pg
  | ContactClick => handleContactClick pg
  end.

Definition run (events : list Event) (pg : Page) : Page :=
  fold_left handle events pg.

(** The field is marked [aria-invalid] and the error element, when the page
    has one, has the role [alert]. *)
Definition marked (pg : Page) : Prop :=
  (exists i, emailInput pg = Some i /\ ariaInvalid i = true)
  /\ (forall e, errorElement pg = Some e -> alertRole e = true).

End NewsletterForm.

(* ===================================================================== *)
(** * The FAQ accordion ([FAQ] of the page script)

    Questions are the elements matching [.faq-question], in document order;
    a question is named by its position in that list, which is how
    [q !== question] tells them apart.  The elements that [aria-controls]
    points to are looked up by id, first match in document order, as
    [document.getElementById] does.  Calls into GSAP and the live-region
    announcement are recorded in an effect log; the elements that
    [aria-controls] names are taken not to be questions themselves.  A
    [TypeError] raised by [null.setAttribute] or [null.textContent] ends the
    handler and leaves the page as it was at that point. *)

Module FAQ.

Record Question := mkQuestion {
  ariaExpanded : option string;
  ariaControls : option string;
  hasIcon : bool;
  spanText : option string
}.

Record Answer := mkAnswer {
  ariaHidden : option string
}.

Inductive Effect :=
| GsapSetCollapsed (id : string)
| GsapExpand (id : string)
| GsapCollapse (id : string)
| GsapRotateIcon (question : nat) (rotation : Z)
| Announce (message : string).

Record Page := mkPage {
  questions : list Question;
  elements : list (string * Answer);
  effects : list Effect
}.

Inductive Outcome :=
| Done (page : Page)
| Threw (page : Page).

Definition andThen (o : Outcome) (f : Page -> Outcome) : Outcome :=
  match o with
  | Done page => f page
  | Threw page => Threw page
  end.

Notation "'let*' x := o 'in' f" := (andThen o (fun x => f))
  (at level 10, x name, o at level 100, f at level 200).

Definition page (o : Outcome) : Page :=
  match o with
  | Done page => page
  | Threw page => page
  end.

(** [document.getElementById(id)]; a missing attribute reads as [null], which
    is looked up as the id ["null"]. *)
Definition idOf (attribute : option string) : string :=
  match attribute with
  | Some id => id
  | None => "null"%string
  end.

Fixpoint getElementById (id : string) (els : list (string * Answer)) : option Answer :=
  match els with
  | [] => None
  | (i, a) :: els => if String.eqb i id then Some a else getElementById id els
  end.

Fixpoint setAriaHidden (id : string) (value : string) (els : list (string * Answer))
  : list (string * Answer) :=
  match els with
  | [] => []
  | (i, a) :: els =>
      if String.eqb i id then (i, mkAnswer (Some value)) :: els
      else (i, a) :: setAriaHidden id value els
  end.

Definition setAriaExpanded (value : string) (q : Question) : Question :=
  mkQuestion (Some value) (ariaControls q) (hasIcon q) (spanText q).

Definition isExpanded (q : Question) : bool :=
  match ariaExpanded q with
  | Some value => String.eqb value "true"
  | None => false
  end.

Definition log (e : list Effect) (pg : Page) : Page :=
  mkPage (questions pg) (elements pg) (effects pg ++ e).

Definition iconTo (k : nat) (rotation : Z) (q : Question) : list Effect :=
  if hasIcon q then [GsapRotateIcon k rotation] else [].

Definition handleCloseFAQ (k : nat) (pg : Page) : Outcome :=
  match questions pg !! k with
  | None => Done pg
  | Some q =>
      let id := idOf (ariaControls q) in
      let answer := getElementById id (elements pg) in
      let pg := mkPage (<[k := setAriaExpanded "false" q]> (questions pg))
                       (elements pg) (effects pg) in
      match answer with
      | None => Threw pg
      | Some _ =>
          let pg := mkPage (questions pg) (setAriaHidden id "true" (elements pg))
                           (effects pg) in
          Done (log (GsapCollapse id :: iconTo k 0 q) pg)
      end
  end.

Definition handleOpenFAQ (k : nat) (pg : Page) : Outcome :=
  match questions pg !! k with
  | None => Done pg
  | Some q =>
      let id := idOf (ariaControls q) in
      let answer := getElementById id (elements pg) in
      let pg := mkPage (<[k := setAriaExpanded "true" q]> (questions pg))
                       (elements pg) (effects pg) in
      match answer with
      | None => Threw pg
      | Some _ =>
          let pg := mkPage (questions pg) (setAriaHidden id "false" (elements pg))
                           (effects pg) in
          let pg := log (GsapSetCollapsed id :: GsapExpand id :: iconTo k 45 q) pg in
          match spanText q with
          | None => Threw pg
          | Some text => Done (log [Announce ("FAQ expanded: " ++ text)] pg)
          end
      end
  end.

(** The [forEach] over all questions that closes every one but [k]. *)
Fixpoint closeOthers (k : nat) (all : list nat) (pg : Page) : Outcome :=
  match all with
  | [] => Done pg
  | j :: all =>
      let* pg := (if Nat.eqb j k then Done pg else handleCloseFAQ j pg) in
      closeOthers k all pg
  end.

Definition handleToggleFAQ (k : nat) (pg : Page) : Outcome :=
  let wasExpanded :=
    match questions pg !! k with
    | Some q => isExpanded q
    | None => false
    end in
  let* pg := closeOthers k (seq 0 (length (questions pg))) pg in
  if wasExpanded then handleCloseFAQ k pg else handleOpenFAQ k pg.

(** A click, or Enter or Space, on question [k]; an exception ends the
    handler and the page stays as the handler left it. *)
Definition click (pg : Page) (k : nat) : Page := page (handleToggleFAQ k pg).

Definition clicks (ks : list nat) (pg : Page) : Page := fold_left click ks pg.

(** Every question names an element of the page. *)
Definition wired (pg : Page) : Prop :=
  forall j q, questions pg !! j = Some q ->
    getElementById (idOf (ariaControls q)) (elements pg) <> None.

(** The attributes and elements that no handler writes: the number of
    questions, their [aria-controls], and which ids name an element. *)
Definition sameWiring (pg pg' : Page) : Prop :=
  length (questions pg') = length (questions pg) /\
  (forall i, ariaControls <$> questions pg' !! i = ariaControls <$> questions pg !! i) /\
  (forall id, getElementById id (elements pg') = None
              <-> getElementById id (elements pg) = None).

(** A page with three questions, the second one expanded. *)
Definition sample : Page :=
  mkPage
    [mkQuestion (Some "false") (Some "faq-answer-1") true (Some "What is Codless?");
     mkQuestion (Some "true") (Some "faq-answer-2") true (Some "How long does it take?");
     mkQuestion None (Some "faq-answer-3") false (Some "What does it cost?")]%string
    [("faq-answer-1", mkAnswer (Some "true"));
     ("faq-answer-2", mkAnswer (Some "false"));
     ("faq-answer-3", mkAnswer None)]%string
    [].

(** The same page, where the third question names an element that is not
    there. *)
Definition dangling : Page :=
  mkPage
    [mkQuestion (Some "false") (Some "faq-answer-1") true (Some "What is Codless?");
     mkQuestion (Some "true") (Some "faq-answer-2") true (Some "How long does it take?");
     mkQuestion None (Some "faq-answer-9") false (Some "What does it cost?")]%string
    [("faq-answer-1", mkAnswer (Some "true"));
     ("faq-answer-2", mkAnswer (Some "false"));
     ("faq-answer-3", mkAnswer None)]%string
    [].

End FAQ.

(* ===================================================================== *)
(** * The navbar that hides on scroll ([NavbarScrollBehavior])

    The navbar element is described by what the module reads and writes of
    it: the class [navbar-hidden] and the attribute [aria-hidden].  The
    ScrollTrigger instance handed to [onUpdate] gives the scroll position
    and the direction of the last movement. *)

Module NavbarScrollBehavior.

Record Navbar := mkNavbar {
  navbarHidden : bool;
  ariaHidden : option string
}.

Record State := mkState {
  navbar : option Navbar;
  isInitialized : bool
}.

(** The [self] of a ScrollTrigger update: [self.scroll()] and
    [self.direction]. *)
Record Self := mkSelf {
  scroll : float;
  direction : float
}.

Definition scrollThreshold : float := 150.

Definition showNavbar (st : State) : State :=
  match navbar st with
  | Some n =>
      if navbarHidden n
      then mkState (Some (mkNavbar false (Some "false"%string))) (isInitialized st)
      else st
  | None => st
  end.

Definition hideNavbar (st : State) : State :=
  match navbar st with
  | Some n =>
      if negb (navbarHidden n)
      then mkState (Some (mkNavbar true (Some "true"%string))) (isInitialized st)
      else st
  | None => st
  end.

Definition handleScrollUpdate (st : State) (self : Self) : State :=
  if negb (isInitialized st) then st
  else if JS.strict_eq (direction self) 1 && JS.gt (scroll self) scrollThreshold
  then hideNavbar st
  else if JS.strict_eq (direction self) (-1)
          || (scroll self <=? scrollThreshold)%float
  then showNavbar st
  else st.

Definition setupScrollTriggerBehavior (st : State) : State :=
  mkState (navbar st) true.

(** One round of [waitForScrollTrigger]: when the library is not there yet
    the call only arms a timer for the next round. *)
Definition waitForScrollTrigger (scrollTriggerDefined : bool) (st : State) : State :=
  if scrollTriggerDefined then setupScrollTriggerBehavior st else st.

(** [init], given what [document.querySelector('.navbar')] finds. *)
Definition init (found : option Navbar) (scrollTriggerDefined : bool) (st : State) : State :=
  let st := mkState found (isInitialized st) in
  match found with
  | None => st
  | Some _ => waitForScrollTrigger scrollTriggerDefined (showNavbar st)
  end.

Definition updates (selves : list Self) (st : State) : State :=
  fold_left handleScrollUpdate selves st.

(** The attribute says what the class says. *)
Definition inSync (n : Navbar) : Prop :=
  ariaHidden n = Some (if navbarHidden n then "true" else "false")%string.

Definition shown (st : State) : bool :=
  match navbar st with
  | Some n => negb (navbarHidden n)
  | None => false
  end.

End NavbarScrollBehavior.

(* ===================================================================== *)
(** * The mobile menu and the arrow keys ([Navigation] of [script.js])

    The state is the page after [init] found the [.navbar] element.  The
    hamburger, when the page has one, is described by its class [active] and
    its attribute [aria-expanded]; the list [.navbar-list] inside the navbar
    by its class [active].  Listeners run in the order the browser runs
    them: the one on the target first, the ones on [document] after it, as
    the event bubbles. *)

Module Navigation.

Inductive Focus :=
| OnHamburger
| OnTab (index : nat)
| Elsewhere.

Record Hamburger := mkHamburger {
  active : bool;
  ariaExpanded : option string
}.

Record State := mkState {
  hamburger : option Hamburger;
  hamburgerInNavbar : bool;
  navbarList : option bool;
  navbarTabs : nat;
  focus : Focus
}.

Definition set_menu (h : Hamburger) (l : option bool) (st : State) : State :=
  mkState (Some h) (hamburgerInNavbar st) l (navbarTabs st) (focus st).

Definition set_focus (f : Focus) (st : State) : State :=
  mkState (hamburger st) (hamburgerInNavbar st) (navbarList st) (navbarTabs st) f.

Definition handleOpenMobileMenu (st : State) : State :=
  let st := set_menu (mkHamburger true (Some "true"%string))
              (match navbarList st with Some _ => Some true | None => None end) st in
  if (0 <? navbarTabs st)%nat then set_focus (OnTab 0) st else st.

Definition handleCloseMobileMenu (st : State) : State :=
  set_menu (mkHamburger false (Some "false"%string))
    (match navbarList st with Some _ => Some false | None => None end) st.

Definition isActive (st : State) : bool :=
  match hamburger st with
  | Some h => active h
  | None => false
  end.

Definition handleToggleMobileMenu (st : State) : State :=
  if isActive st then handleCloseMobileMenu st else handleOpenMobileMenu st.

(** [(index + 1) % length] and [(index - 1 + length) % length] *)
Definition nextIndex (index length : Z) : Z := Z.rem (index + 1) length.
Definition prevIndex (index length : Z) : Z := Z.rem (index - 1 + length) length.

(** [this.navbarTabs[i].focus()]; outside the list the element is
    [undefined] and the call throws, which ends the listener. *)
Definition focusTab (i : Z) (st : State) : State :=
  if (0 <=? i)%Z && (i <? Z.of_nat (navbarTabs st))%Z
  then set_focus (OnTab (Z.to_nat i)) st
  else st.

Definition isArrowForward (key : string) : bool :=
  String.eqb key "ArrowRight" || String.eqb key "ArrowDown".

Definition isArrowBackward (key : string) : bool :=
  String.eqb key "ArrowLeft" || String.eqb key "ArrowUp".

(** The [keydown] listener of tab [index]. *)
Definition tabKeydown (index : nat) (key : string) (st : State) : State :=
  if isArrowForward key
  then focusTab (nextIndex (Z.of_nat index) (Z.of_nat (navbarTabs st))) st
  else if isArrowBackward key
  then focusTab (prevIndex (Z.of_nat index) (Z.of_nat (navbarTabs st))) st
  else st.

(** The [click] listener of [document]. *)
Definition documentClick (targetInNavbar : bool) (st : State) : State :=
  if negb targetInNavbar && isActive st then handleCloseMobileMenu st else st.

(** The [keydown] listener of [document]. *)
Definition documentKeydown (key : string) (st : State) : State :=
  if String.eqb key "Escape"
  then set_focus OnHamburger (handleCloseMobileMenu st)
  else st.

Inductive Event :=
| HamburgerClick
| TabClick (index : nat) (inNavbar : bool)
| OtherClick (inNavbar : bool)
| Keydown (onTab : option nat) (key : string).

(** The listeners on the hamburger, the tabs' [click] listeners and the ones
    on [document] exist only when the page has a hamburger; the tabs'
    [keydown] listeners always do. *)
Definition handle (st : State) (e : Event) : State :=
  match e with
  | HamburgerClick =>
      match hamburger st with
      | Some _ => documentClick (hamburgerInNavbar st) (handleToggleMobileMenu st)
      | None => st
      end
  | TabClick index inNavbar =>
      match hamburger st with
      | Some _ =>
          if (index <? navbarTabs st)%nat
          then documentClick inNavbar (handleCloseMobileMenu st)
          else st
      | None => st
      end
  | OtherClick inNavbar =>
      match hamburger st with
      | Some _ => documentClick inNavbar st
      | None => st
      end
  | Keydown onTab key =>
      let st :=
        match onTab with
        | Some index => if (index <? navbarTabs st)%nat then tabKeydown index key st else st
        | None => st
        end in
      match hamburger st with
      | Some _ => documentKeydown key st
      | None => st
      end
  end.

Definition run (events : list Event) (st : State) : State :=
  fold_left handle events st.

(** [aria-expanded] and the list say what the hamburger's class says. *)
Definition inSync (st : State) : Prop :=
  match hamburger st with
  | Some h =>
      ariaExpanded h = Some (if active h then "true" else "false")%string
      /\ (forall l, navbarList st = Some l -> l = active h)
  | None => True
  end.

Definition sample : State :=
  mkState (Some (mkHamburger false None)) true (Some false) 4 Elsewhere.

End Navigation.

(** * The overlay menu ([Navigation] of the page script)

    The second version of the module opens a full-screen overlay.  [init]
    wires the listeners one after the other; the close button is used
    without a test, so when the page has none [setupEventListeners] throws
    after the hamburger's listener and the later ones are never added. *)

Module NavigationOverlay.

Record Wiring := mkWiring {
  hamburgerListener : bool;
  closeListener : bool;
  tabListeners : bool;
  escapeListener : bool;
  staggerIndexes : bool
}.

Record State := mkState {
  hamburgerActive : bool;
  overlayActive : bool;
  bodyOverflow : string;
  lenisRunning : option bool;
  navTabs : nat;
  wiring : Wiring
}.

Definition set_wiring (w : Wiring) (st : State) : State :=
  mkState (hamburgerActive st) (overlayActive st) (bodyOverflow st)
          (lenisRunning st) (navTabs st) w.

Definition unwired : Wiring := mkWiring false false false false false.

(** [init], given whether the hamburger, the overlay and the close button
    are in the page; the state comes with no listener. *)
Definition init (hamburger overlay closeBtn : bool) (st : State) : State :=
  if negb hamburger || negb overlay then set_wiring unwired st
  else if negb closeBtn then set_wiring (mkWiring true false false false false) st
  else set_wiring (mkWiring true true true true true) st.

Definition openMenu (st : State) : State :=
  mkState true true "hidden"
          (match lenisRunning st with Some _ => Some false | None => None end)
          (navTabs st) (wiring st).

Definition closeMenu (st : State) : State :=
  mkState false false ""
          (match lenisRunning st with Some _ => Some true | None => None end)
          (navTabs st) (wiring st).

Inductive Event :=
| HamburgerClick
| CloseClick
| TabClick (index : nat)
| Keydown (key : string).

Definition handle (st : State) (e : Event) : State :=
  match e with
  | HamburgerClick => if hamburgerListener (wiring st) then openMenu st else st
  | CloseClick => if closeListener (wiring st) then closeMenu st else st
  | TabClick index =>
      if tabListeners (wiring st) && (index <? navTabs st)%nat then closeMenu st else st
  | Keydown key =>
      if escapeListener (wiring st) && String.eqb key "Escape" && overlayActive st
      then closeMenu st
      else st
  end.

Definition run (events : list Event) (st : State) : State :=
  fold_left handle events st.

(** The hamburger, the body and Lenis say what the overlay says. *)
Definition inSync (st : State) : Prop :=
  hamburgerActive st = overlayActive st
  /\ bodyOverflow st = (if overlayActive st then "hidden" else "")%string
  /\ (forall running, lenisRunning st = Some running -> running = negb (overlayActive st)).

Definition loaded : State :=
  mkState false false "" (Some true) 5 unwired.

End NavigationOverlay.

(* ===================================================================== *)
(** * Splitting a header into letters ([HeaderAnimations.splitHeaderForScroll])

    A header is described by its [data-original] attribute and its child
    nodes.  Before the first split the children are whatever the page holds,
    of which the function only reads the text; after a split they are the
    spans the function made: a [scroll-space] span, which holds a no-break
    space, for each space of the text, and a [scroll-letter] span, whose text
    and [data-char] are the code unit, for each other code unit. *)

Module HeaderAnimations.

Local Open Scope N_scope.

Abbreviation JSString := (list N) (only parsing).

Definition SPACE : N := 32.
Definition NBSP : N := 160.

Inductive Span :=
| ScrollSpace
| ScrollLetter (char : N).

Inductive Node :=
| Text (data : JSString)
| Element (span : Span).

Record Header := mkHeader {
  datasetOriginal : option JSString;
  childNodes : list Node
}.

Definition spanText (s : Span) : JSString :=
  match s with
  | ScrollSpace => [NBSP]
  | ScrollLetter char => [char]
  end.

Definition nodeText (n : Node) : JSString :=
  match n with
  | Text data => data
  | Element span => spanText span
  end.

Definition textContent (h : Header) : JSString :=
  flat_map nodeText (childNodes h).

(** [String.prototype.trim]: the white space and line terminators at both
    ends are dropped. *)
Fixpoint trimStart (s : JSString) : JSString :=
  match s with
  | [] => []
  | c :: rest => if FormHandling.isWhiteSpace c then trimStart rest else s
  end.

Definition trimEnd (s : JSString) : JSString := rev (trimStart (rev s)).

Definition trim (s : JSString) : JSString := trimEnd (trimStart s).

(** The span made for one code unit. *)
Definition spanOf (char : N) : Span :=
  if char =? SPACE then ScrollSpace else ScrollLetter char.

(** [header.dataset.original] after the test of the first lines: an absent
    or empty attribute is falsy and is set from the text. *)
Definition originalOf (h : Header) : JSString :=
  match datasetOriginal h with
  | Some (c :: s) => c :: s
  | _ => textContent h
  end.

Definition splitHeaderForScroll (h : Header) : Header :=
  let original := originalOf h in
  mkHeader (Some original) (map (fun char => Element (spanOf char)) (trim original)).

(** The spans of a header, in order. *)
Definition spans (h : Header) : list Span :=
  flat_map (fun n => match n with Element s => [s] | Text _ => [] end) (childNodes h).

Definition isLetter (s : Span) : bool :=
  match s with
  | ScrollLetter _ => true
  | ScrollSpace => false
  end.

End HeaderAnimations.

(* ===================================================================== *)
(** * The sound button of the hero video

    The listener of [DOMContentLoaded] that wires [.sound-bars-btn] to
    [.hero-bg-video], on a page that has both.  Of the video the code reads
    and writes [muted], reads [paused] and calls [play]; of the button it
    writes [aria-label] and the class [sound-on]. *)

Module SoundButton.

Record State := mkState {
  muted : bool;
  paused : bool;
  playCalls : nat;
  ariaLabel : option string;
  soundOn : bool
}.

Definition updateAria (st : State) : State :=
  mkState (muted st) (paused st) (playCalls st)
          (Some (if muted st then "Unmute hero video" else "Mute hero video")%string)
          (soundOn st).

Definition toggleSound (st : State) : State :=
  let st := mkState (negb (muted st)) (paused st) (playCalls st) (ariaLabel st)
                    (soundOn st) in
  let st := if negb (paused st)
            then mkState (muted st) (paused st) (S (playCalls st)) (ariaLabel st)
                         (soundOn st)
            else st in
  let st := updateAria st in
  mkState (muted st) (paused st) (playCalls st) (ariaLabel st) (negb (muted st)).

Definition keydown (key : string) (st : State) : State :=
  if String.eqb key "Enter" || String.eqb key " " then toggleSound st else st.

(** One entry of the observer of [.hero-section]. *)
Definition observe (st : State) (isIntersecting : bool) : State :=
  if negb isIntersecting
  then if negb (muted st)
       then let st := mkState true (paused st) (playCalls st) (ariaLabel st)
                              (soundOn st) in
            let st := updateAria st in
            mkState (muted st) (paused st) (playCalls st) (ariaLabel st) false
       else st
  else st.

Inductive Event :=
| Click
| Keydown (key : string)
| Intersection (entries : list bool).

Definition handle (st : State) (e : Event) : State :=
  match e with
  | Click => toggleSound st
  | Keydown key => keydown key st
  | Intersection entries => fold_left observe entries st
  end.

Definition run (events : list Event) (st : State) : State :=
  fold_left handle events st.

(** The setup itself only sets the label. *)
Definition setup (st : State) : State := updateAria st.

(** The label names the action the button would do. *)
Definition labelled (st : State) : Prop :=
  ariaLabel st = Some (if muted st then "Unmute hero video" else "Mute hero video")%string.

End SoundButton.

(** * The orbiting tools, on a touch device ([ToolsAnimation])

    A moon is described by its [animation-play-state] and by the last
    animation started on it: the hidden label set at start-up, the highlight
    of [activateMoon], or the return of [resetMoon].  Moons are named by
    their position among the elements matching [.tool-moon]. *)

Module ToolsAnimation.

Inductive PlayState := Running | Paused.

Inductive Tween := LabelHidden | Activated | Reset.

Record Moon := mkMoon {
  animationPlayState : option PlayState;
  tween : Tween
}.

Record State := mkState {
  toolMoons : list Moon;
  activeMoon : option nat
}.

Definition activateMoon (k : nat) (st : State) : State :=
  mkState (alter (fun _ => mkMoon (Some Paused) Activated) k (toolMoons st))
          (activeMoon st).

(** [resetMoon(moon)], for a moon that is not [null]. *)
Definition resetMoon (k : nat) (st : State) : State :=
  mkState (alter (fun _ => mkMoon (Some Running) Reset) k (toolMoons st))
          (activeMoon st).

Definition set_activeMoon (a : option nat) (st : State) : State :=
  mkState (toolMoons st) a.

(** [init] on a touch device: the label of every moon is hidden. *)
Definition init (playStates : list (option PlayState)) : State :=
  mkState (map (fun p => mkMoon p LabelHidden) playStates) None.

Definition isActive (k : nat) (st : State) : bool :=
  match activeMoon st with
  | Some a => Nat.eqb a k
  | None => false
  end.

(** The [click] listener of moon [k]; it stops the propagation, so the
    listener of [document] does not run. *)
Definition moonClick (k : nat) (st : State) : State :=
  let st :=
    match activeMoon st with
    | Some a => if negb (Nat.eqb a k) then resetMoon a st else st
    | None => st
    end in
  if isActive k st
  then set_activeMoon None (resetMoon k st)
  else set_activeMoon (Some k) (activateMoon k st).

Definition documentClick (st : State) : State :=
  match activeMoon st with
  | Some a => set_activeMoon None (resetMoon a st)
  | None => st
  end.

Definition observe (st : State) (isIntersecting : bool) : State :=
  mkState
    (imap (fun j m =>
             if isIntersecting
             then if isActive j st then m else mkMoon (Some Running) (tween m)
             else mkMoon (Some Paused) (tween m))
          (toolMoons st))
    (activeMoon st).

Inductive Event :=
| MoonClick (k : nat)
| DocumentClick
| Intersection (entries : list bool).

Definition handle (st : State) (e : Event) : State :=
  match e with
  | MoonClick k => if (k <? length (toolMoons st))%nat then moonClick k st else st
  | DocumentClick => documentClick st
  | Intersection entries => fold_left observe entries st
  end.

Definition run (events : list Event) (st : State) : State :=
  fold_left handle events st.

(** Exactly the active moon is highlighted, and it stands still. *)
Definition oneHighlight (st : State) : Prop :=
  forall j m, toolMoons st !! j = Some m ->
    (tween m = Activated <-> activeMoon st = Some j)
    /\ (activeMoon st = Some j -> animationPlayState m = Some Paused).

End ToolsAnimation.

(* ===================================================================== *)
(** * More of JavaScript's numbers: [Math.max], [Math.min], [Math.round] *)

Module JSMath.

Local Open Scope float_scope.

(** The Number for a length or an index. *)
Definition ofNat (n : nat) : float := of_uint63 (Uint63.of_Z (Z.of_nat n)).

Definition isNegativeZero (a : float) : bool :=
  match classify a with
  | NZero => true
  | _ => false
  end.

(** [Math.max(a, b)]: NaN when an argument is; [+0] is larger than [-0]. *)
Definition Math_max (a b : float) : float :=
  if is_nan a || is_nan b then nan
  else if a <? b then b
  else if b <? a then a
  else if isNegativeZero a then b else a.

(** [Math.min(a, b)]: NaN when an argument is; [-0] is smaller than [+0]. *)
Definition Math_min (a b : float) : float :=
  if is_nan a || is_nan b then nan
  else if a <? b then a
  else if b <? a then b
  else if isNegativeZero a then a else b.

(** [Math.round(x)]: the nearest integer, a tie going towards +∞; zeros,
    infinities and NaN are returned as they are, and a result that is zero
    keeps the sign of [x].  A number [m * 2^e] with [e >= 0] is an integer
    already; otherwise the integer part is [m >> -e] and the fraction is
    compared with one half. *)
Definition Math_round (x : float) : float :=
  match Prim2SF x with
  | S754_finite s m e =>
      if (0 <=? e)%Z then x
      else
        let whole := Z.shiftr (Zpos m) (- e) in
        let fraction := Z.land (Zpos m) (Z.ones (- e)) in
        let half := Z.shiftl 1 (- e - 1) in
        let up := if s then (half <? fraction)%Z else (half <=? fraction)%Z in
        let magnitude := of_uint63 (Uint63.of_Z (if up then whole + 1 else whole)) in
        if s then - magnitude else magnitude
  | _ => x
  end.

(** The array index that a Number used as a property key denotes: the
    integer it is equal to, when it is one and is not negative ([-0] reads
    as [0]).  (A NodeList is shorter than [2^32], so only small integers
    matter.) *)
Definition toIndex (x : float) : option nat :=
  match Prim2SF x with
  | S754_zero _ => Some 0%nat
  | S754_finite false m e =>
      if (0 <=? e)%Z then Some (Z.to_nat (Z.shiftl (Zpos m) e))
      else if (Z.land (Zpos m) (Z.ones (- e)) =? 0)%Z
      then Some (Z.to_nat (Z.shiftr (Zpos m) (- e)))
      else None
  | _ => None
  end.

End JSMath.

(** * The letters revealed by scrolling (the [.animated-header] listener)

    [checkScroll] for one header: the letters are described by their class
    [visible], the section by the rectangle [getBoundingClientRect] gives,
    the window by [scrollY] and [innerHeight]. *)

Module LetterReveal.

Local Open Scope float_scope.

Record DOMRect := mkDOMRect {
  top : float;
  height : float
}.

Record Window := mkWindow {
  scrollY : float;
  innerHeight : float
}.

Definition sectionTop (rect : DOMRect) (window : Window) : float :=
  top rect + scrollY window.

Definition sectionHeight (rect : DOMRect) : float := height rect.

Definition outOfView (rect : DOMRect) (window : Window) : bool :=
  (scrollY window + innerHeight window <? sectionTop rect window)
  || JS.gt (scrollY window) (sectionTop rect window + sectionHeight rect).

Definition triggerInterval (rect : DOMRect) (letters : list bool) : float :=
  sectionHeight rect / (JSMath.ofNat (length letters) - 1).

Definition relativeScroll (rect : DOMRect) (window : Window) : float :=
  JSMath.Math_max 0
    (JSMath.Math_min (scrollY window + innerHeight window - sectionTop rect window)
                     (sectionHeight rect)).

Definition triggerPoint (rect : DOMRect) (letters : list bool) (index : nat) : float :=
  JSMath.ofNat index * triggerInterval rect letters.

(** The letters after [checkScroll]: [true] for the class [visible]. *)
Definition checkScroll (rect : DOMRect) (window : Window) (letters : list bool)
  : list bool :=
  if outOfView rect window then map (fun _ => false) letters
  else
    imap (fun index _ =>
            (triggerPoint rect letters index <=? relativeScroll rect window))
         letters.

End LetterReveal.

(** * The dots of the horizontal cards, on a narrow screen
      ([HorizontalScroll.init])

    The dots are described by their class [active], the cue by its class
    [hidden].  [currentActiveDot] is a Number: it starts at 0 and then takes
    the values of [Math.round]. *)

Module HorizontalScroll.

Local Open Scope float_scope.

Record State := mkState {
  dots : list bool;
  currentActiveDot : float;
  scrollCue : option bool
}.

(** [dots[x]?.classList.add/remove("active")] *)
Definition setActive (x : float) (value : bool) (ds : list bool) : list bool :=
  match JSMath.toIndex x with
  | Some i => alter (fun _ => value) i ds
  | None => ds
  end.

(** The mobile branch of [init], on a page whose [.scroll-dots] container
    already holds the dots [existing]: one dot is appended for each card and
    the first dot of the container is activated. *)
Definition init (existing : list bool) (cards : nat) (cue : option bool) : State :=
  mkState (setActive 0 true (existing ++ repeat false cards)) 0 cue.

(** The [scroll] listener of the container. *)
Definition onScroll (st : State) (scrollLeft innerWidth : float) : State :=
  let cue := match scrollCue st with Some _ => Some true | None => None end in
  let activeIndex := JSMath.Math_round (scrollLeft / innerWidth) in
  if negb (JS.strict_eq activeIndex (currentActiveDot st))
  then mkState (setActive activeIndex true
                  (setActive (currentActiveDot st) false (dots st)))
               activeIndex cue
  else mkState (dots st) (currentActiveDot st) cue.

Definition scrolls (positions : list (float * float)) (st : State) : State :=
  fold_left (fun st p => onScroll st (fst p) (snd p)) positions st.

(** Only the dot that [currentActiveDot] names is active. *)
Definition oneActive (st : State) : Prop :=
  forall i, dots st !! i = Some true -> JSMath.toIndex (currentActiveDot st) = Some i.

(** The dot that [currentActiveDot] names, when there is one, is active. *)
Definition currentIsActive (st : State) : Prop :=
  forall j, JSMath.toIndex (currentActiveDot st) = Some j ->
    (j < length (dots st))%nat -> dots st !! j = Some true.

End HorizontalScroll.

(* ===================================================================== *)
(** * Properties of the particle globe *)
(* ===================================================================== *)

Module GlobeFacts.

Import TypedArray THREE ParticleGlobe.
Local Open Scope nat_scope.

(** *** Numbers *)

(** Adding [0] gives the number back, except that [-0 + 0] is [0]. *)
Lemma add_zero (a : float) :
  (a + 0 = a)%float \/ (a = neg_zero /\ (a + 0 = 0)%float).
Proof.
  pose proof (FloatAxioms.add_spec a 0) as Hadd.
  unfold SF64add in Hadd.
  change (Prim2SF 0) with (S754_zero false) in Hadd.
  destruct (Prim2SF a) as [[|]| [|] | | sg m e] eqn:Ha; simpl in Hadd;
    try (left; apply Prim2SF_inj; congruence).
  right. split; apply Prim2SF_inj.
  - rewrite Ha. reflexivity.
  - rewrite Hadd. reflexivity.
Qed.

Lemma add_zero_same (a : float) : JS.same (a + 0)%float a.
Proof.
  destruct (add_zero a) as [Heq | [Hneg Heq]].
  - left. exact Heq.
  - right. rewrite Heq, Hneg. reflexivity.
Qed.

Lemma add_zero3_same (v : Vector3) : same3 (add v zero3) v.
Proof. repeat split; apply add_zero_same. Qed.

(** Rounding a non-negative mantissa never produces a NaN, nor changes the
    sign: the shifts keep the mantissa non-negative. *)
Lemma shr_1_sign mrs : (0 <= shr_m mrs -> 0 <= shr_m (shr_1 mrs))%Z.
Proof.
  destruct mrs as [m r s]. destruct m as [|[p|p|]|p]; simpl; lia.
Qed.

Lemma iter_shr_1_sign p : forall mrs,
  (0 <= shr_m mrs -> 0 <= shr_m (SpecFloat.iter_pos shr_1 p mrs))%Z.
Proof.
  induction p as [p IH|p IH|]; intros mrs Hm; simpl.
  - apply IH, IH, shr_1_sign, Hm.
  - apply IH, IH, Hm.
  - apply shr_1_sign, Hm.
Qed.

Lemma shr_fexp_sign prec emax m e l :
  (0 <= m -> 0 <= shr_m (fst (shr_fexp prec emax m e l)))%Z.
Proof.
  intros Hm. unfold shr_fexp, shr.
  assert (Hrec : (0 <= shr_m (shr_record_of_loc m l))%Z).
  { destruct l as [|[| |]]; exact Hm. }
  destruct (fexp prec emax (Zdigits2 m + e) - e)%Z; simpl;
    [exact Hrec | apply iter_shr_1_sign, Hrec | exact Hrec].
Qed.

Lemma round_nearest_even_sign m l :
  (0 <= m -> 0 <= round_nearest_even m l)%Z.
Proof.
  intros Hm. unfold round_nearest_even.
  destruct l as [|[| |]]; try destruct (Z.even m); lia.
Qed.

Lemma binary_round_aux_signed prec emax s m e l :
  (0 <= m)%Z -> JS.signed s (binary_round_aux prec emax s m e l).
Proof.
  intros Hm. unfold binary_round_aux.
  pose proof (shr_fexp_sign prec emax m e l Hm) as H1.
  destruct (shr_fexp prec emax m e l) as [mrs' e']. simpl in H1.
  pose proof (shr_fexp_sign prec emax
                (round_nearest_even (shr_m mrs') (loc_of_shr_record mrs'))
                e' loc_Exact (round_nearest_even_sign _ _ H1)) as H2.
  destruct (shr_fexp prec emax _ e' loc_Exact) as [mrs'' e'']. simpl in H2.
  unfold JS.signed.
  destruct (shr_m mrs'') as [|p|p]; [auto | | lia].
  destruct (e'' <=? emax - prec)%Z; eauto.
Qed.

Lemma signed_not_negative f :
  JS.signed false f -> SFleb (S754_zero false) f = true.
Proof. intros [-> | [(m & e & ->) | ->]]; reflexivity. Qed.

Lemma signed_eqb s f : JS.signed s f -> SFeqb f f = true.
Proof.
  intros [-> | [(m & e & ->) | ->]]; unfold SFeqb; simpl.
  - reflexivity.
  - destruct s; rewrite Z.compare_refl, Pos.compare_cont_refl; reflexivity.
  - destruct s; reflexivity.
Qed.

(** The product of two positive numbers is not negative (it may round to
    zero or overflow to infinity). *)
Lemma mul_sign (a b : float) :
  (0 <? a)%float = true -> (0 <? b)%float = true ->
  (0 <=? a * b)%float = true.
Proof.
  rewrite !FloatAxioms.ltb_spec, FloatAxioms.leb_spec, FloatAxioms.mul_spec.
  change (Prim2SF 0) with (S754_zero false).
  unfold SF64mul.
  destruct (Prim2SF a) as [sa|[|]| |[|] ma ea],
           (Prim2SF b) as [sb|[|]| |[|] mb eb];
    try discriminate; try reflexivity.
  intros _ _. apply signed_not_negative, binary_round_aux_signed. lia.
Qed.

Lemma div_core_sign prec emax m1 e1 m2 e2 :
  (0 <= fst (fst (SFdiv_core_binary prec emax (Zpos m1) e1 (Zpos m2) e2)))%Z.
Proof.
  unfold SFdiv_core_binary.
  set (s := (_ - _ - _)%Z).
  set (m' := match s with Z0 => _ | Zpos _ => _ | Zneg _ => _ end).
  assert (Hm' : (0 <= m')%Z).
  { unfold m'. destruct s; [lia | apply Z.shiftl_nonneg; lia | lia]. }
  pose proof (Z.div_pos m' (Zpos m2) Hm' ltac:(lia)) as Hq.
  unfold Z.div in Hq.
  destruct (Z.div_eucl m' (Z.pos m2)) as [q r]. exact Hq.
Qed.

Lemma isFinite_spec (a : float) :
  JS.isFinite a = true ->
  (exists s, Prim2SF a = S754_zero s)
  \/ (exists s m e, Prim2SF a = S754_finite s m e).
Proof.
  unfold JS.isFinite, is_finite, is_nan, is_infinity. intros Hfinite.
  rewrite !FloatAxioms.eqb_spec, FloatAxioms.abs_spec in Hfinite.
  change (Prim2SF infinity) with (S754_infinity false) in Hfinite.
  destruct (Prim2SF a) as [s|[|]| |s m e]; simpl in Hfinite;
    try discriminate; eauto.
Qed.

(** Dividing a finite number by a finite number other than zero never gives
    a NaN. *)
Lemma div_not_nan (a b : float) :
  JS.isFinite a = true -> JS.isFinite b = true -> (b =? 0)%float = false ->
  JS.isNaN (a / b) = false.
Proof.
  intros Ha Hb Hzero. unfold JS.isNaN, is_nan.
  rewrite FloatAxioms.eqb_spec in Hzero |- *. rewrite FloatAxioms.div_spec.
  change (Prim2SF 0) with (S754_zero false) in Hzero.
  apply negb_false_iff.
  destruct (isFinite_spec a Ha) as [[sa Ea] | (sa & ma & ea & Ea)];
    destruct (isFinite_spec b Hb) as [[sb Eb] | (sb & mb & eb & Eb)];
    rewrite Ea, Eb in *; try discriminate; unfold SF64div; simpl.
  - reflexivity.
  - pose proof (div_core_sign prec emax ma ea mb eb) as Hq.
    destruct (SFdiv_core_binary prec emax (Z.pos ma) ea (Z.pos mb) eb)
      as [[mz ez] lz]. simpl in Hq.
    apply (signed_eqb (xorb sa sb)), binary_round_aux_signed, Hq.
Qed.

(** *** Writes to the store *)

Lemma contents_set_ne a k v h r :
  r <> a -> contents (set a k v h) r = contents h r.
Proof.
  intros Hne. unfold contents, set.
  rewrite list_lookup_alter_ne by congruence. reflexivity.
Qed.

Lemma contents_set_eq a k v h :
  contents (set a k v h) a = <[k := JS.fround v]> (contents h a).
Proof.
  unfold contents, set. rewrite list_lookup_alter_eq.
  destruct (h !! a); reflexivity.
Qed.

Lemma get_contents h a k : get h a k = default 0%float (contents h a !! k).
Proof.
  unfold get, contents. destruct (h !! a); reflexivity.
Qed.

Lemma length_set a k v h : length (set a k v h) = length h.
Proof. unfold set. apply length_alter. Qed.

(** Three consecutive writes at [k * 3] replace the triple that follows a
    prefix of [k] triples. *)
Lemma insert3_app (pre rest : list float) (a b c : float) k :
  length pre = k * 3 -> 3 <= length rest ->
  <[k * 3 + 2 := c]> (<[k * 3 + 1 := b]> (<[k * 3 := a]> (pre ++ rest)))
  = (pre ++ [a; b; c]) ++ drop 3 rest.
Proof.
  intros Hpre Hrest.
  destruct rest as [|r0 [|r1 [|r2 rest]]]; simpl in Hrest; try lia.
  rewrite <- Hpre.
  rewrite (insert_app_r_alt pre _ (length pre)) by lia.
  rewrite (insert_app_r_alt pre _ (length pre + 1)) by lia.
  rewrite (insert_app_r_alt pre _ (length pre + 2)) by lia.
  replace (length pre - length pre) with 0 by lia.
  replace (length pre + 1 - length pre) with 1 by lia.
  replace (length pre + 2 - length pre) with 2 by lia.
  simpl. rewrite <- app_assoc. reflexivity.
Qed.

Lemma length_triples (F : nat -> float * float * float) l :
  length (flat_map (fun i => let '(a, b, c) := F i in [a; b; c]) l)
  = length l * 3.
Proof.
  induction l as [|i l IH]; simpl; [reflexivity|].
  destruct (F i) as [[a b] c]. simpl. rewrite IH. lia.
Qed.

Lemma written_0 F before : written F 0 before = before.
Proof. reflexivity. Qed.

Lemma written_all F n before :
  length before = n * 3 ->
  written F n before
  = flat_map (fun i => let '(a, b, c) := F i in [a; b; c]) (seq 0 n).
Proof.
  intros Hlen. unfold written.
  rewrite drop_ge by lia. apply app_nil_r.
Qed.

Lemma length_written F k n before :
  length before = n * 3 -> k <= n -> length (written F k before) = n * 3.
Proof.
  intros Hlen Hk. unfold written.
  rewrite length_app, length_triples, length_seq, length_drop. lia.
Qed.

Lemma written_S F k n before a b c :
  length before = n * 3 -> k < n -> F k = (a, b, c) ->
  <[k * 3 + 2 := c]> (<[k * 3 + 1 := b]> (<[k * 3 := a]>
     (written F k before)))
  = written F (S k) before.
Proof.
  intros Hlen Hk HF. unfold written.
  rewrite insert3_app.
  - rewrite seq_S, flat_map_app. simpl. rewrite HF, app_nil_r.
    rewrite drop_drop. f_equal. f_equal. lia.
  - rewrite length_triples, length_seq. reflexivity.
  - rewrite length_drop. lia.
Qed.

(** Turn [k] still reads what the array held before the loop. *)
Lemma written_lookup_later F k before j :
  k * 3 <= j -> written F k before !! j = before !! j.
Proof.
  intros Hj. unfold written.
  rewrite lookup_app_r; rewrite length_triples, length_seq; [|lia].
  rewrite lookup_drop. f_equal. lia.
Qed.

(** Particle [i] of the finished array. *)
Lemma written_lookup_triple F n before i a b c :
  length before = n * 3 -> i < n -> F i = (a, b, c) ->
  written F n before !! (i * 3) = Some a /\
  written F n before !! (i * 3 + 1) = Some b /\
  written F n before !! (i * 3 + 2) = Some c.
Proof.
  intros Hlen Hi HF. rewrite written_all by assumption.
  assert (Hsplit : seq 0 n = seq 0 i ++ [i] ++ seq (S i) (n - S i)).
  { replace n with (i + (1 + (n - S i))) at 1 by lia.
    rewrite !seq_app. simpl. replace (i + 1) with (S i) by lia.
    reflexivity. }
  rewrite Hsplit, !flat_map_app. simpl. rewrite HF. simpl.
  pose proof (length_triples F (seq 0 i)) as Hl. rewrite length_seq in Hl.
  repeat split.
  - rewrite lookup_app_r by lia. rewrite Hl.
    replace (i * 3 - i * 3) with 0 by lia. reflexivity.
  - rewrite lookup_app_r by lia. rewrite Hl.
    replace (i * 3 + 1 - i * 3) with 1 by lia. reflexivity.
  - rewrite lookup_app_r by lia. rewrite Hl.
    replace (i * 3 + 2 - i * 3) with 2 by lia. reflexivity.
Qed.

Lemma contents_setXYZ_ne attr i vx vy vz h r :
  r <> array attr -> contents (setXYZ attr i vx vy vz h) r = contents h r.
Proof.
  intros Hne. unfold setXYZ. rewrite !contents_set_ne by assumption.
  reflexivity.
Qed.

Section WithHost.
Context `{Host}.

Lemma contents_animateParticle_ne env s pointer h i r :
  r <> array (positionAttribute s) -> r <> array (colorAttribute s) ->
  contents (animateParticle env s pointer h i) r = contents h r.
Proof.
  intros Hp Hc. unfold animateParticle.
  rewrite !contents_setXYZ_ne by assumption. reflexivity.
Qed.

Lemma contents_animateLoop_ne env s pointer l : forall h r,
  r <> array (positionAttribute s) -> r <> array (colorAttribute s) ->
  contents (fold_left (animateParticle env s pointer) l h) r = contents h r.
Proof.
  induction l as [|i l IH]; intros h r Hp Hc; simpl; [reflexivity|].
  rewrite IH by assumption. apply contents_animateParticle_ne; assumption.
Qed.


Lemma sameLayout_refl s : sameLayout s s.
Proof. repeat split. Qed.

Lemma sameLayout_trans s1 s2 s3 :
  sameLayout s1 s2 -> sameLayout s2 s3 -> sameLayout s1 s3.
Proof.
  unfold sameLayout. intros H12 H23.
  decompose [and] H12. decompose [and] H23.
  repeat split; congruence.
Qed.

Lemma onWindowResize_layout w h s : sameLayout s (onWindowResize w h s).
Proof.
  unfold onWindowResize.
  destruct (JS.strict_eq w 0 || JS.strict_eq h 0); repeat split.
Qed.

Lemma onWindowResize_heap w h s : heap (onWindowResize w h s) = heap s.
Proof.
  unfold onWindowResize.
  destruct (JS.strict_eq w 0 || JS.strict_eq h 0); reflexivity.
Qed.

Lemma animate_layout env s : sameLayout s (animate env s).
Proof.
  unfold animate. simpl.
  destruct (isInView s); simpl; [|repeat split].
  unfold firstLayout. simpl.
  destruct (negb (isRendered s) && JS.gt (clientWidth env) 0); simpl.
  - destruct (onWindowResize_layout (clientWidth env) (clientHeight env)
                (set_frameRequests (S (frameRequests s)) s)) as
      (?&?&?&?&?&?&?&?&?&?). simpl in *. repeat split; assumption.
  - repeat split.
Qed.

Lemma animate_contents_ne env s r :
  r <> array (positionAttribute s) -> r <> array (colorAttribute s) ->
  contents (heap (animate env s)) r = contents (heap s) r.
Proof.
  intros Hp Hc. unfold animate. simpl.
  destruct (isInView s); simpl; [|reflexivity].
  unfold firstLayout. simpl.
  destruct (negb (isRendered s) && JS.gt (clientWidth env) 0); simpl.
  - destruct (onWindowResize_layout (clientWidth env) (clientHeight env)
                (set_frameRequests (S (frameRequests s)) s)) as
      (_&_&Ha&Hb&_). simpl in Ha, Hb.
    rewrite contents_animateLoop_ne; simpl; try congruence.
    rewrite onWindowResize_heap. reflexivity.
  - rewrite contents_animateLoop_ne by assumption. reflexivity.
Qed.

Lemma triggerDisperse_layout p rect s : sameLayout s (triggerDisperse p rect s).
Proof.
  unfold triggerDisperse. destruct (raycast _); repeat split.
Qed.

Lemma triggerDisperse_heap p rect s : heap (triggerDisperse p rect s) = heap s.
Proof.
  unfold triggerDisperse. destruct (raycast _); reflexivity.
Qed.

Lemma onIntersection_layout entries : forall s,
  sameLayout s (onIntersection entries s) /\
  heap (onIntersection entries s) = heap s.
Proof.
  unfold onIntersection.
  induction entries as [|e entries IH]; intros s; simpl.
  - split; [apply sameLayout_refl | reflexivity].
  - destruct (IH (set_isInView e s)) as [Hl Hh]. split.
    + eapply sameLayout_trans; [|exact Hl]. repeat split.
    + rewrite Hh. reflexivity.
Qed.

Lemma handle_layout s e : sameLayout s (handle s e).
Proof.
  destruct e; simpl.
  - apply animate_layout.
  - apply onWindowResize_layout.
  - destruct (isTouchDevice s); repeat split.
  - destruct (isTouchDevice s); [repeat split|].
    apply triggerDisperse_layout.
  - destruct (isTouchDevice s); [|repeat split].
    destruct touches; [repeat split|]. apply triggerDisperse_layout.
  - apply onIntersection_layout.
Qed.

Lemma handle_contents_ne s e r :
  r <> array (positionAttribute s) -> r <> array (colorAttribute s) ->
  contents (heap (handle s e)) r = contents (heap s) r.
Proof.
  intros Hp Hc. destruct e; simpl.
  - apply animate_contents_ne; assumption.
  - rewrite onWindowResize_heap. reflexivity.
  - destruct (isTouchDevice s); reflexivity.
  - destruct (isTouchDevice s); [reflexivity|].
    unfold onMouseClick. rewrite triggerDisperse_heap. reflexivity.
  - destruct (isTouchDevice s); [|reflexivity].
    destruct touches; [reflexivity|]. simpl.
    rewrite triggerDisperse_heap. reflexivity.
  - destruct (onIntersection_layout entries s) as [_ ->]. reflexivity.
Qed.

Lemma run_layout events : forall s, sameLayout s (run events s).
Proof.
  unfold run. induction events as [|e events IH]; intros s; simpl.
  - apply sameLayout_refl.
  - eapply sameLayout_trans; [apply handle_layout | apply IH].
Qed.

Lemma run_contents_ne events : forall s r,
  r <> array (positionAttribute s) -> r <> array (colorAttribute s) ->
  contents (heap (run events s)) r = contents (heap s) r.
Proof.
  unfold run. induction events as [|e events IH]; intros s r Hp Hc; simpl.
  - reflexivity.
  - destruct (handle_layout s e) as (_&_&Ha&Hb&_).
    rewrite IH by congruence. apply handle_contents_ne; assumption.
Qed.

(** *** The buffers [setupGlobe] builds *)

Lemma contents_alloc (h : list (list float)) l r :
  contents (h ++ [l]) r
  = if decide (r = length h) then l else contents h r.
Proof.
  unfold contents. destruct (decide (r = length h)) as [->|Hne].
  - rewrite lookup_app_r by lia.
    replace (length h - length h) with 0 by lia. reflexivity.
  - destruct (decide (r < length h)) as [Hlt|Hge].
    + rewrite lookup_app_l by assumption. reflexivity.
    + rewrite !lookup_ge_None_2; [reflexivity| lia |].
      rewrite length_app. simpl. lia.
Qed.


Lemma setupLoop random base p c n k : forall h P0 C0,
  p <> c -> k <= n ->
  contents h p = P0 -> length P0 = n * 3 ->
  contents h c = C0 -> length C0 = n * 3 ->
  let h' := fold_left (setupParticle random base p c) (seq 0 k) h in
  contents h' p = written (initialTriple random) k P0 /\
  contents h' c = written (fun _ => tripleColor (storedColor base)) k C0 /\
  length h' = length h.
Proof.
  induction k as [|k IH]; intros h P0 C0 Hpc Hk HP HlP HC HlC; cbv zeta.
  - simpl. rewrite !written_0. auto.
  - rewrite seq_S, fold_left_app. simpl.
    destruct (IH h P0 C0) as (IHp & IHc & IHl); try assumption; try lia.
    set (h1 := fold_left _ (seq 0 k) h) in *.
    unfold setupParticle, toArray. repeat split.
    + rewrite !(contents_set_ne c) by assumption.
      rewrite !contents_set_eq, IHp.
      apply (written_S _ k n); [assumption | lia | reflexivity].
    + rewrite !contents_set_eq.
      rewrite !(contents_set_ne p) by congruence. rewrite IHc.
      apply (written_S _ k n); [assumption | lia | reflexivity].
    + rewrite !length_set. assumption.
Qed.

(** The particle data [setupGlobe] leaves: three distinct arrays (the
    scratch array [positions] is a fourth), each holding one triple per
    particle. *)
Lemma setupGlobe_built random s :
  let g := setupGlobe random s in
  let n := PARTICLE_COUNT s in
  (originalPositions g = length (heap s) + 2 /\
   animatedPositions g = length (heap s) + 3 /\
   positionAttribute g = mkAttribute (length (heap s) + 3) 3 0 /\
   colorAttribute g = mkAttribute (length (heap s) + 1) 3 0 /\
   PARTICLE_COUNT g = n /\
   baseColor g = baseColor s) /\
  contents (heap g) (length (heap s) + 2)
    = written (initialTriple random) n (replicate (n * 3) 0%float) /\
  contents (heap g) (length (heap s) + 3)
    = written (initialTriple random) n (replicate (n * 3) 0%float) /\
  contents (heap g) (length (heap s) + 1)
    = written (fun _ => tripleColor (storedColor (baseColor s))) n
        (replicate (n * 3) 0%float).
Proof.
  unfold setupGlobe, alloc, alloc_copy. simpl.
  set (n := PARTICLE_COUNT s). set (h0 := heap s).
  set (h1 := h0 ++ [replicate (n * 3) 0%float]).
  set (h2 := h1 ++ [replicate (n * 3) 0%float]).
  assert (Hc : length h1 = length h0 + 1).
  { unfold h1. rewrite length_app. reflexivity. }
  assert (HP : contents h2 (length h0) = replicate (n * 3) 0%float).
  { unfold h2. rewrite contents_alloc. destruct (decide _); [lia|].
    unfold h1. rewrite contents_alloc. destruct (decide _); [|lia].
    reflexivity. }
  assert (HC : contents h2 (length h1) = replicate (n * 3) 0%float).
  { unfold h2. rewrite contents_alloc. destruct (decide _); [|lia].
    reflexivity. }
  destruct (setupLoop random (baseColor s) (length h0) (length h1) n n h2
              (contents h2 (length h0)) (contents h2 (length h1)))
    as (Hp & Hcol & Hlen); try reflexivity; try lia.
  { rewrite HP. apply length_replicate. }
  { rewrite HC. apply length_replicate. }
  simpl in Hp, Hcol, Hlen. rewrite HP in Hp. rewrite HC in Hcol.
  set (h3 := fold_left _ (seq 0 n) h2) in *.
  assert (Hl3 : length h3 = length h0 + 2).
  { rewrite Hlen. unfold h2. rewrite length_app. simpl. lia. }
  fold (contents h3 (length h0)).
  set (h4 := h3 ++ [contents h3 (length h0)]).
  assert (Hl4 : length h4 = length h0 + 3).
  { unfold h4. rewrite length_app. simpl. lia. }
  fold (contents h4 (length h0)).
  rewrite Hl3, Hl4, Hc. repeat split.
  - rewrite contents_alloc. destruct (decide _); [lia|].
    unfold h4. rewrite contents_alloc. destruct (decide _); [|lia].
    exact Hp.
  - rewrite contents_alloc. destruct (decide _); [|lia].
    unfold h4. rewrite contents_alloc. destruct (decide _); [lia|].
    exact Hp.
  - rewrite contents_alloc. destruct (decide _); [lia|].
    unfold h4. rewrite contents_alloc. destruct (decide _); [lia|].
    rewrite <- Hc. exact Hcol.
Qed.

Lemma fold_left_ext_in {A B : Type} (f g : A -> B -> A) (l : list B) :
  (forall a b, In b l -> f a b = g a b) ->
  forall a, fold_left f l a = fold_left g l a.
Proof.
  induction l as [|b l IH]; intros Hfg a; simpl; [reflexivity|].
  rewrite Hfg by (left; reflexivity).
  apply IH. intros a' b' Hin. apply Hfg. right. exact Hin.
Qed.

(** [setupGlobe] reads the draws [0 .. 2 * PARTICLE_COUNT - 1] only. *)
Lemma setupGlobe_ext random random' s :
  (forall k, k < 2 * PARTICLE_COUNT s -> random' k = random k) ->
  setupGlobe random' s = setupGlobe random s.
Proof.
  intros Hsame.
  assert (Hloop : forall p c h,
            fold_left (setupParticle random' (baseColor s) p c)
                      (seq 0 (PARTICLE_COUNT s)) h
            = fold_left (setupParticle random (baseColor s) p c)
                        (seq 0 (PARTICLE_COUNT s)) h).
  { intros p c. apply fold_left_ext_in.
    intros h i Hin. apply in_seq in Hin. unfold setupParticle.
    rewrite !Hsame by lia. reflexivity. }
  unfold setupGlobe, alloc, alloc_copy. rewrite Hloop. reflexivity.
Qed.


(** *** The loop of [animate] *)


Lemma originalPos_contents s h h' i :
  contents h (originalPositions s) = contents h' (originalPositions s) ->
  originalPos s h i = originalPos s h' i.
Proof.
  intros Heq. unfold originalPos. rewrite !get_contents, Heq. reflexivity.
Qed.

Lemma animatedPos_contents s h h' i :
  (forall j, i * itemSize (positionAttribute s) <= j ->
     contents h (array (positionAttribute s)) !! j
     = contents h' (array (positionAttribute s)) !! j) ->
  animatedPos s h i = animatedPos s h' i.
Proof.
  intros Heq. unfold animatedPos, getX, getY, getZ.
  rewrite !get_contents, !Heq by lia. reflexivity.
Qed.

Lemma contents_setXYZ_eq attr i vx vy vz h :
  contents (setXYZ attr i vx vy vz h) (array attr)
  = <[i * itemSize attr + 2 := JS.fround vz]>
      (<[i * itemSize attr + 1 := JS.fround vy]>
         (<[i * itemSize attr := JS.fround vx]>
            (contents h (array attr)))).
Proof. unfold setXYZ. rewrite !contents_set_eq. reflexivity. Qed.

(** After [k] turns the first [k] particles hold what the loop computes
    for them from the store it started with: a turn reads nothing an
    earlier turn wrote. *)
Lemma animateLoop env s pointer n k : forall h0,
  itemSize (positionAttribute s) = 3 ->
  itemSize (colorAttribute s) = 3 ->
  array (positionAttribute s) <> array (colorAttribute s) ->
  originalPositions s <> array (positionAttribute s) ->
  originalPositions s <> array (colorAttribute s) ->
  length (contents h0 (array (positionAttribute s))) = n * 3 ->
  length (contents h0 (array (colorAttribute s))) = n * 3 ->
  k <= n ->
  let h := fold_left (animateParticle env s pointer) (seq 0 k) h0 in
  contents h (array (positionAttribute s))
  = written (fun i => triple (stored (nextPosition env s pointer h0 i))) k
      (contents h0 (array (positionAttribute s))) /\
  contents h (array (colorAttribute s))
  = written (fun i => tripleColor (storedColor (nextColor env s h0 i))) k
      (contents h0 (array (colorAttribute s))).
Proof.
  intros h0 Hsp Hsc Hpc Hop Hoc Hlp Hlc.
  induction k as [|k IH]; intros Hk; cbv zeta.
  - simpl. rewrite !written_0. auto.
  - rewrite seq_S, fold_left_app. simpl.
    destruct IH as (IHp & IHc); [lia|].
    set (h := fold_left _ (seq 0 k) h0) in *.
    assert (Horig : originalPos s h k = originalPos s h0 k).
    { apply originalPos_contents. unfold h.
      apply contents_animateLoop_ne; assumption. }
    assert (Hanim : animatedPos s h k = animatedPos s h0 k).
    { apply animatedPos_contents. intros j Hj. rewrite IHp.
      apply written_lookup_later. rewrite Hsp in Hj. exact Hj. }
    assert (Hnp : nextPosition env s pointer h k
                  = nextPosition env s pointer h0 k).
    { unfold nextPosition. rewrite Horig, Hanim. reflexivity. }
    assert (Hnc : nextColor env s h k = nextColor env s h0 k).
    { unfold nextColor. rewrite Horig. reflexivity. }
    unfold animateParticle. rewrite Hnp, Hnc. split.
    + rewrite contents_setXYZ_eq, contents_setXYZ_ne by assumption.
      rewrite Hsp, IHp.
      apply (written_S _ k n); [assumption | lia | reflexivity].
    + rewrite contents_setXYZ_ne by congruence.
      rewrite contents_setXYZ_eq, Hsc, IHc.
      apply (written_S _ k n); [assumption | lia | reflexivity].
Qed.

Lemma read_stored (l : list float) (v : Vector3) i :
  l !! (i * 3) = Some (x (stored v)) ->
  l !! (i * 3 + 1) = Some (y (stored v)) ->
  l !! (i * 3 + 2) = Some (z (stored v)) ->
  mkVector3 (default 0%float (l !! (i * 3)))
            (default 0%float (l !! (i * 3 + 1)))
            (default 0%float (l !! (i * 3 + 2))) = stored v.
Proof. intros -> -> ->. reflexivity. Qed.

Lemma read_storedColor (l : list float) (c : Color) i :
  l !! (i * 3) = Some (r (storedColor c)) ->
  l !! (i * 3 + 1) = Some (g (storedColor c)) ->
  l !! (i * 3 + 2) = Some (b (storedColor c)) ->
  mkColor (default 0%float (l !! (i * 3)))
          (default 0%float (l !! (i * 3 + 1)))
          (default 0%float (l !! (i * 3 + 2))) = storedColor c.
Proof. intros -> -> ->. reflexivity. Qed.

(** What a visible frame leaves for particle [i]: its animated position has
    moved 8% of the way to the target, its color follows the noise, its
    original position is as before. *)
Lemma animate_particle env s i :
  wellFormed s -> isInView s = true -> i < PARTICLE_COUNT s ->
  let s' := animate env s in
  let original := originalPos s (heap s) i in
  animatedPos s' (heap s') i
  = stored (lerp (animatedPos s (heap s) i)
              (targetPos (matrixWorld env) (isTouchDevice s)
                 (decay (clickStrength s)) (framePointer env s)
                 (clickPoint s) original (elapsedTime env)) 0.08%float) /\
  particleColor s' (heap s') i
  = storedColor (currentColor (baseColor s) (hotColor s) original
                   (elapsedTime env)) /\
  originalPos s' (heap s') i = original.
Proof.
  intros (Hsp & Hsc & Hpc & Hop & Hoc & Hlp & Hlc) Hview Hi.
  unfold animate, framePointer, firstLayout, onWindowResize. simpl.
  rewrite Hview. simpl.
  destruct (negb (isRendered s) && JS.gt (clientWidth env) 0);
    [destruct (JS.strict_eq (clientWidth env) 0
               || JS.strict_eq (clientHeight env) 0)|];
    simpl;
    match goal with
    | |- context [fold_left (animateParticle env ?sl ?ptr) _ _] =>
        destruct (animateLoop env sl ptr (PARTICLE_COUNT s)
                    (PARTICLE_COUNT s) (heap s)) as (HP & HC);
          try assumption; try lia;
        pose proof (contents_animateLoop_ne env sl ptr
                      (seq 0 (PARTICLE_COUNT s)) (heap s)
                      (originalPositions s) Hop Hoc) as HO;
        destruct (written_lookup_triple
                    (fun i => triple (stored
                       (nextPosition env sl ptr (heap s) i)))
                    _ _ i _ _ _ Hlp Hi eq_refl) as (Hx & Hy & Hz);
        destruct (written_lookup_triple
                    (fun i => tripleColor (storedColor
                       (nextColor env sl (heap s) i)))
                    _ _ i _ _ _ Hlc Hi eq_refl) as (Hr & Hg & Hb);
        simpl in HP, HC, HO;
        set (h' := fold_left (animateParticle env sl ptr) _ _) in *
    end;
    (rewrite <- HP in Hx, Hy, Hz; rewrite <- HC in Hr, Hg, Hb;
     repeat split;
     [ unfold animatedPos at 1, getX, getY, getZ; simpl;
       rewrite Hsp, !get_contents;
       rewrite (read_stored _ _ i Hx Hy Hz); reflexivity
     | unfold particleColor, getX, getY, getZ; simpl;
       rewrite Hsc, !get_contents;
       rewrite (read_storedColor _ _ i Hr Hg Hb); reflexivity
     | unfold originalPos; simpl; rewrite !get_contents, HO; reflexivity ]).
Qed.

Lemma animate_lengths env s :
  wellFormed s ->
  length (contents (heap (animate env s)) (array (positionAttribute s)))
    = PARTICLE_COUNT s * 3 /\
  length (contents (heap (animate env s)) (array (colorAttribute s)))
    = PARTICLE_COUNT s * 3.
Proof.
  intros (Hsp & Hsc & Hpc & Hop & Hoc & Hlp & Hlc).
  unfold animate, firstLayout, onWindowResize. simpl.
  destruct (isInView s); simpl; [|split; assumption].
  destruct (negb (isRendered s) && JS.gt (clientWidth env) 0);
    [destruct (JS.strict_eq (clientWidth env) 0
               || JS.strict_eq (clientHeight env) 0)|];
    simpl;
    match goal with
    | |- context [fold_left (animateParticle env ?sl ?ptr) _ _] =>
        destruct (animateLoop env sl ptr (PARTICLE_COUNT s)
                    (PARTICLE_COUNT s) (heap s)) as (HP & HC);
          try assumption; try lia;
        simpl in HP, HC; rewrite HP, HC
    end;
    (split; apply (length_written _ _ (PARTICLE_COUNT s));
       [assumption | lia | assumption | lia]).
Qed.

Lemma wellFormed_layout s s' :
  sameLayout s s' ->
  length (contents (heap s') (array (positionAttribute s)))
    = PARTICLE_COUNT s * 3 ->
  length (contents (heap s') (array (colorAttribute s)))
    = PARTICLE_COUNT s * 3 ->
  wellFormed s -> wellFormed s'.
Proof.
  intros (Ho & _ & Hp & Hc & Hip & Hic & Hn & _) Hlp' Hlc'
         (Hsp & Hsc & Hpc & Hop & Hoc & _ & _).
  unfold wellFormed. rewrite Ho, Hp, Hc, Hip, Hic, Hn.
  repeat split; assumption.
Qed.

Lemma handle_wellFormed s e : wellFormed s -> wellFormed (handle s e).
Proof.
  intros Hwf.
  assert (Hsame : heap (handle s e) = heap s -> wellFormed (handle s e)).
  { intros Hheap.
    apply (wellFormed_layout s); [apply handle_layout | | | exact Hwf];
      rewrite Hheap; apply Hwf. }
  destruct e; simpl in *.
  - destruct (animate_lengths env s Hwf) as (Hlp & Hlc).
    apply (wellFormed_layout s); [apply animate_layout | | |]; assumption.
  - apply Hsame, onWindowResize_heap.
  - apply Hsame. destruct (isTouchDevice s); reflexivity.
  - apply Hsame. destruct (isTouchDevice s); [reflexivity|].
    apply triggerDisperse_heap.
  - apply Hsame. destruct (isTouchDevice s); [|reflexivity].
    destruct touches; [reflexivity|]. apply triggerDisperse_heap.
  - apply Hsame. apply onIntersection_layout.
Qed.

Lemma run_wellFormed events : forall s,
  wellFormed s -> wellFormed (run events s).
Proof.
  unfold run. induction events as [|e events IH]; intros s Hwf; simpl.
  - exact Hwf.
  - apply IH, handle_wellFormed, Hwf.
Qed.

Lemma setupGlobe_wellFormed random s : wellFormed (setupGlobe random s).
Proof.
  destruct (setupGlobe_built random s)
    as ((Ho & Ha & Hp & Hc & Hn & _) & _ & HA & HC).
  unfold wellFormed. rewrite Ho, Hp, Hc, Hn. cbn [array itemSize].
  rewrite HA, HC.
  repeat split; try lia.
  - apply (length_written _ _ (PARTICLE_COUNT s));
      [apply length_replicate | lia].
  - apply (length_written _ _ (PARTICLE_COUNT s));
      [apply length_replicate | lia].
Qed.

(** *** The impulse strength along a frame *)

Lemma animate_clickStrength env s :
  clickStrength (animate env s)
  = if isInView s then decay (clickStrength s) else clickStrength s.
Proof.
  unfold animate, firstLayout, onWindowResize. simpl.
  destruct (isInView s); simpl; [|reflexivity].
  destruct (negb (isRendered s) && JS.gt (clientWidth env) 0);
    [destruct (JS.strict_eq (clientWidth env) 0
               || JS.strict_eq (clientHeight env) 0)|]; reflexivity.
Qed.

Lemma decayed_decay n : forall strength,
  decayed n (decay strength) = decay (decayed n strength).
Proof.
  induction n as [|n IH]; intros strength; simpl; [reflexivity|].
  rewrite IH. reflexivity.
Qed.

Lemma animate_isInView env s : isInView (animate env s) = isInView s.
Proof.
  unfold animate, firstLayout, onWindowResize. simpl.
  destruct (isInView s) eqn:Hview; simpl; [|exact Hview].
  destruct (negb (isRendered s) && JS.gt (clientWidth env) 0);
    [destruct (JS.strict_eq (clientWidth env) 0
               || JS.strict_eq (clientHeight env) 0)|]; exact Hview.
Qed.

(** A hidden frame only schedules the next one. *)
Lemma animate_hidden env s :
  isInView s = false ->
  animate env s = set_frameRequests (S (frameRequests s)) s.
Proof. intros Hview. unfold animate. simpl. rewrite Hview. reflexivity. Qed.

Lemma run_frames_visible envs : forall s,
  isInView s = true ->
  clickStrength (run (map Frame envs) s)
  = decayed (length envs) (clickStrength s).
Proof.
  unfold run. induction envs as [|env envs IH]; intros s Hview; simpl.
  - reflexivity.
  - rewrite IH by (rewrite animate_isInView; exact Hview).
    rewrite animate_clickStrength, Hview. apply decayed_decay.
Qed.

Lemma run_frames_hidden envs : forall s,
  isInView s = false ->
  run (map Frame envs) s
  = set_frameRequests (length envs + frameRequests s) s.
Proof.
  unfold run. induction envs as [|env envs IH]; intros s Hview; simpl.
  - destruct s; reflexivity.
  - rewrite animate_hidden by exact Hview.
    rewrite IH by exact Hview. simpl.
    replace (length envs + S (frameRequests s))
      with (S (length envs + frameRequests s)) by lia.
    reflexivity.
Qed.

(** The strengths met after a seeding: 15, 14.25, ... and, from the 143rd
    frame on, 0. *)
Lemma decayed_zero k : decayed (k + 143) 15 = 0%float.
Proof.
  induction k as [|k IH].
  - vm_compute. reflexivity.
  - change (decayed (S k + 143) 15) with (decay (decayed (k + 143) 15)).
    rewrite IH. vm_compute. reflexivity.
Qed.

Lemma decayed_early (P : float -> bool) :
  forallb (fun k => P (decayed k 15)) (seq 0 143) = true ->
  P 0%float = true ->
  forall k, P (decayed k 15) = true.
Proof.
  intros Hearly Hzero k.
  destruct (le_lt_dec 143 k) as [Hge | Hlt].
  - replace k with (k - 143 + 143) by lia. rewrite decayed_zero.
    exact Hzero.
  - rewrite forallb_forall in Hearly. apply Hearly.
    apply in_seq. lia.
Qed.

Lemma decayed_nonincreasing k :
  (decay (decayed k 15) <=? decayed k 15)%float = true.
Proof.
  apply (decayed_early (fun v => (decay v <=? v)%float));
    vm_compute; reflexivity.
Qed.

Lemma decayed_positive k :
  k < 143 -> (0.01 <=? decayed k 15)%float = true.
Proof.
  intros Hk.
  assert (Hall : forallb (fun k => (0.01 <=? decayed k 15)%float)
                   (seq 0 143) = true) by (vm_compute; reflexivity).
  rewrite forallb_forall in Hall. apply Hall. apply in_seq. lia.
Qed.

Lemma init_Some container touch random env g :
  init container touch random env = Some g ->
  g = animate env (setupGlobe random (fresh touch)).
Proof.
  unfold init. destruct container; simpl; intros Heq.
  - congruence.
  - discriminate.
Qed.

Lemma setupGlobe_clickStrength random s :
  clickStrength (setupGlobe random s) = clickStrength s.
Proof. unfold setupGlobe, alloc, alloc_copy. reflexivity. Qed.



(** A decay never makes a non-negative strength negative, whatever the
    number. *)
Lemma decay_sign (strength : float) :
  (0 <=? strength)%float = true -> (0 <=? decay strength)%float = true.
Proof.
  intros Hs. unfold decay, JS.gt.
  destruct (0 <? strength)%float eqn:Hpos.
  - destruct (strength * 0.95 <? 0.01)%float; [reflexivity|].
    apply mul_sign; [exact Hpos | reflexivity].
  - destruct (strength <? 0.01)%float; [reflexivity | exact Hs].
Qed.

Lemma triggerDisperse_sign p rect s :
  (0 <=? clickStrength s)%float = true ->
  (0 <=? clickStrength (triggerDisperse p rect s))%float = true.
Proof.
  intros Hs. unfold triggerDisperse. destruct (raycast _); [exact Hs|].
  reflexivity.
Qed.

Lemma onIntersection_clickStrength entries : forall s,
  clickStrength (onIntersection entries s) = clickStrength s.
Proof.
  unfold onIntersection.
  induction entries as [|entry entries IH]; intros s; simpl.
  - reflexivity.
  - rewrite IH. reflexivity.
Qed.

Lemma handle_sign s e :
  (0 <=? clickStrength s)%float = true ->
  (0 <=? clickStrength (handle s e))%float = true.
Proof.
  intros Hs. destruct e; simpl.
  - rewrite animate_clickStrength.
    destruct (isInView s); [apply decay_sign|]; exact Hs.
  - unfold onWindowResize.
    destruct (JS.strict_eq w 0 || JS.strict_eq h 0); exact Hs.
  - destruct (isTouchDevice s); exact Hs.
  - destruct (isTouchDevice s); [exact Hs|].
    apply triggerDisperse_sign, Hs.
  - destruct (isTouchDevice s); [|exact Hs].
    destruct touches; [exact Hs|]. apply triggerDisperse_sign, Hs.
  - rewrite onIntersection_clickStrength. exact Hs.
Qed.

Lemma run_sign events : forall s,
  (0 <=? clickStrength s)%float = true ->
  (0 <=? clickStrength (run events s))%float = true.
Proof.
  unfold run. induction events as [|e events IH]; intros s Hs; simpl.
  - exact Hs.
  - apply IH, handle_sign, Hs.
Qed.

(** ** The claims *)

(** C1.  Once [setupGlobe] has written the original positions, no sequence
    of events (any number of frames of [animate], with resizes, pointer and
    visibility events in between) mutates that array: the reference stays
    the same and so does every element, hence the original position of
    every particle.  Of all the arrays in the store only the animated
    positions and the colors can change, and the number of particles is
    fixed. *)
Theorem original_positions_never_mutated :
  forall (random : nat -> float) (s : Globe) (events : list Event),
    let g := setupGlobe random s in
    let g' := run events g in
    originalPositions g' = originalPositions g /\
    contents (heap g') (originalPositions g')
      = contents (heap g) (originalPositions g) /\
    (forall i, originalPos g' (heap g') i = originalPos g (heap g) i) /\
    (forall r, r <> animatedPositions g -> r <> array (colorAttribute g) ->
               contents (heap g') r = contents (heap g) r) /\
    array (positionAttribute g') = animatedPositions g /\
    PARTICLE_COUNT g' = PARTICLE_COUNT g.
Proof.
  intros random s events g g'.
  destruct (setupGlobe_built random s)
    as ((Ho & Ha & Hp & Hc & _ & _) & _).
  fold g in Ho, Ha, Hp, Hc.
  destruct (run_layout events g) as (Ho' & _ & Hp' & _ & _ & _ & Hn & _).
  fold g' in Ho', Hp', Hn.
  assert (Hframe : forall r, r <> animatedPositions g ->
            r <> array (colorAttribute g) ->
            contents (heap g') r = contents (heap g) r).
  { intros r Hra Hrc. apply run_contents_ne; [|assumption].
    rewrite Hp. simpl. rewrite <- Ha. assumption. }
  assert (Hsame : contents (heap g') (originalPositions g')
                  = contents (heap g) (originalPositions g)).
  { rewrite Ho'. apply Hframe.
    - rewrite Ho, Ha. lia.
    - rewrite Ho, Hc. simpl. lia. }
  split; [exact Ho'|]. split; [exact Hsame|].
  split; [|split; [exact Hframe|split; [|exact Hn]]].
  - intros i. unfold originalPos. rewrite !get_contents, Hsame.
    reflexivity.
  - rewrite Hp', Hp, Ha. reflexivity.
Qed.

(** C6.  For particle [i], [setupGlobe] draws [u] then [v], computes
    [theta = 2 * Math.PI * u], [phi = acos (2 * v - 1)] and the point
    [(R sin phi cos theta, R sin phi sin theta, R cos phi)] with the fixed
    radius [R = 5]; the original and the animated positions of the particle
    both hold that point (as the [Float32Array] stores it) and its color is
    the base color.  The result depends on the draws only: two sources that
    agree on the [2 * PARTICLE_COUNT] draws give the same state. *)
Theorem setupGlobe_samples_the_sphere :
  forall (random : nat -> float) (s : Globe) (i : nat),
    i < PARTICLE_COUNT s ->
    let g := setupGlobe random s in
    let u := random (2 * i) in
    let v := random (2 * i + 1) in
    let theta := (2 * JS.Math_PI * u)%float in
    let phi := Math_acos (2 * v - 1)%float in
    let p := mkVector3 (5 * Math_sin phi * Math_cos theta)%float
                       (5 * Math_sin phi * Math_sin theta)%float
                       (5 * Math_cos phi)%float in
    spherePoint u v = p /\
    originalPos g (heap g) i = stored p /\
    animatedPos g (heap g) i = stored p /\
    particleColor g (heap g) i = storedColor (baseColor s) /\
    forall random',
      (forall k, k < 2 * PARTICLE_COUNT s -> random' k = random k) ->
      setupGlobe random' s = g.
Proof.
  intros random s i Hi g u v theta phi p.
  destruct (setupGlobe_built random s)
    as ((Ho & Ha & Hp & Hc & _ & _) & HO & HA & HC).
  fold g in Ho, Ha, Hp, Hc, HO, HA, HC.
  assert (Hlen : length (replicate (PARTICLE_COUNT s * 3) 0%float)
                 = PARTICLE_COUNT s * 3) by apply length_replicate.
  destruct (written_lookup_triple (initialTriple random) _ _ i
              _ _ _ Hlen Hi eq_refl) as (Hx & Hy & Hz).
  destruct (written_lookup_triple
              (fun _ => tripleColor (storedColor (baseColor s))) _ _ i
              _ _ _ Hlen Hi eq_refl) as (Hr & Hg & Hb).
  split; [reflexivity|]. repeat split.
  - unfold originalPos. rewrite !get_contents, Ho, HO, Hx, Hy, Hz.
    reflexivity.
  - unfold animatedPos, getX, getY, getZ. rewrite Hp. cbn [array itemSize].
    rewrite !get_contents, HA, Hx, Hy, Hz. reflexivity.
  - unfold particleColor, getX, getY, getZ. rewrite Hc. cbn [array itemSize].
    rewrite !get_contents, HC, Hr, Hg, Hb. reflexivity.
  - intros random' Hsame. apply setupGlobe_ext. exact Hsame.
Qed.

(** C3.  In a visible frame, for a particle the pointer does not influence
    (touch device, or pointer not within the influence radius of the
    particle) and with the impulse strength at zero, no repulsion term is
    added: the total displacement is the zero vector, so the target is the
    shimmer-displaced position (the original position plus its normal
    scaled by [noiseValue * NOISE_AMPLITUDE]) taken to world coordinates,
    and the animated position moves towards its image in the coordinates of
    the cloud.  When the inverse world matrix undoes the world matrix, that
    target is the shimmer-displaced position itself. *)
Theorem idle_target_is_shimmer :
  forall (random : nat -> float) (s0 : Globe) (events : list Event)
         (env : FrameEnv) (i : nat),
    let g := run events (setupGlobe random s0) in
    let g' := animate env g in
    let original := originalPos g (heap g) i in
    let shimmer :=
      add original
        (multiplyScalar (normalize original)
           (noiseValue original (elapsedTime env) * NOISE_AMPLITUDE)%float) in
    let world := applyMatrix4 shimmer (matrixWorld env) in
    let pointer := framePointer env g in
    isInView g = true ->
    i < PARTICLE_COUNT g ->
    isTouchDevice g = true
    \/ (distanceTo world pointer <? MOUSE_INFLUENCE_RADIUS)%float = false ->
    clickStrength g' = 0%float ->
    totalDisplacement (isTouchDevice g) (clickStrength g') world pointer
      (clickPoint g) = zero3 /\
    same3 (worldTargetPos (isTouchDevice g) (clickStrength g') world pointer
             (clickPoint g)) world /\
    animatedPos g' (heap g') i
    = stored (lerp (animatedPos g (heap g) i)
                (applyMatrix4 (add world zero3) (invert (matrixWorld env)))
                0.08%float) /\
    ((forall p q, same3 q (applyMatrix4 p (matrixWorld env)) ->
                  same3 (applyMatrix4 q (invert (matrixWorld env))) p) ->
     same3 (targetPos (matrixWorld env) (isTouchDevice g) (clickStrength g')
              pointer (clickPoint g) original (elapsedTime env))
           shimmer).
Proof.
  intros random s0 events env i g g' original shimmer world pointer
         Hview Hi Hidle Hzero.
  assert (Hwf : wellFormed g)
    by apply run_wellFormed, setupGlobe_wellFormed.
  assert (Hhover : hovering (isTouchDevice g) world pointer = false).
  { unfold hovering. destruct Hidle as [-> | ->].
    - apply andb_false_r.
    - reflexivity. }
  assert (Htotal : totalDisplacement (isTouchDevice g) (clickStrength g')
                     world pointer (clickPoint g) = zero3).
  { unfold totalDisplacement, pushing. rewrite Hhover, Hzero. reflexivity. }
  destruct (animate_particle env g i Hwf Hview Hi) as (Hpos & _ & _).
  fold g' original pointer in Hpos.
  assert (Hdecay : decay (clickStrength g) = 0%float).
  { rewrite <- Hzero. unfold g'. rewrite animate_clickStrength, Hview.
    reflexivity. }
  split; [exact Htotal|]. split; [|split].
  - unfold worldTargetPos. rewrite Htotal. apply add_zero3_same.
  - rewrite Hpos. unfold targetPos, worldTargetPos.
    change (applyMatrix4 (shimmeringPos original (elapsedTime env))
              (matrixWorld env)) with world.
    rewrite Hdecay, <- Hzero, Htotal. reflexivity.
  - intros Hback. unfold targetPos, worldTargetPos.
    change (applyMatrix4 (shimmeringPos original (elapsedTime env))
              (matrixWorld env)) with world.
    rewrite Htotal. apply Hback. apply add_zero3_same.
Qed.


(** C2.  Once a click has set the strength to 15, every further frame
    leaves it no larger than it was, whatever the frame finds; while the
    globe is in view the strength is at least 0.01 during the first 142
    frames and exactly 0 from the 143rd on, hence within the 144 frames the
    specification allows.  In exact arithmetic 143 is the announced bound,
    the least [n] with [15 * 0.95 ^ n < 0.01]. *)
Theorem impulse_decays_to_zero :
  forall (s : Globe) (envs : list FrameEnv) (env : FrameEnv),
    clickStrength s = 15%float ->
    let now := run (map Frame envs) s in
    (clickStrength (animate env now) <=? clickStrength now)%float = true /\
    (isInView s = true -> 143 <= length envs ->
     clickStrength now = 0%float) /\
    (isInView s = true -> length envs < 143 ->
     (0.01 <=? clickStrength now)%float = true) /\
    (15 * (95 # 100) ^ 143 < 1 # 100)%Q /\
    (1 # 100 <= 15 * (95 # 100) ^ 142)%Q.
Proof.
  intros s envs env Hseed now.
  assert (Hnow : exists k, clickStrength now = decayed k 15
                           /\ (isInView s = true -> k = length envs)).
  { destruct (isInView s) eqn:Hview.
    - exists (length envs). unfold now.
      rewrite run_frames_visible, Hseed by exact Hview. auto.
    - exists 0. unfold now. rewrite run_frames_hidden by exact Hview.
      simpl. rewrite Hseed. split; [reflexivity | discriminate]. }
  destruct Hnow as (k & Hk & Hlen).
  split; [|split; [|split; [|split]]].
  - rewrite animate_clickStrength. destruct (isInView now).
    + rewrite Hk. apply decayed_nonincreasing.
    + rewrite Hk. apply (decayed_early (fun v => (v <=? v)%float));
        vm_compute; reflexivity.
  - intros Hview Hlong. rewrite Hk, (Hlen Hview).
    replace (length envs) with (length envs - 143 + 143) by lia.
    apply decayed_zero.
  - intros Hview Hshort. rewrite Hk, (Hlen Hview).
    apply decayed_positive. exact Hshort.
  - vm_compute. reflexivity.
  - vm_compute. discriminate.
Qed.

(** C4.  While the visibility flag is false, any number of frames leaves the
    whole state as it was, apart from the count of scheduled callbacks: the
    store (hence the position and color buffers) and the update counters of
    the two attributes are untouched, the impulse strength does not decay,
    nothing is rendered, and the flag is still false. *)
Theorem hidden_frames_do_no_work :
  forall (s : Globe) (envs : list FrameEnv),
    isInView s = false ->
    let s' := run (map Frame envs) s in
    s' = set_frameRequests (length envs + frameRequests s) s /\
    heap s' = heap s /\
    positionAttribute s' = positionAttribute s /\
    colorAttribute s' = colorAttribute s /\
    clickStrength s' = clickStrength s /\
    renderCalls s' = renderCalls s /\
    camera s' = camera s /\
    isInView s' = false.
Proof.
  intros s envs Hview s'. unfold s'.
  rewrite run_frames_hidden by exact Hview. simpl.
  repeat split. exact Hview.
Qed.

(** C5.  [onWindowResize] with a zero width or a zero height returns the
    state it was given: the aspect ratio, the projection matrix and the
    renderer size are unchanged and no division takes place.  With both
    non-zero the aspect ratio becomes [w / h], the projection matrix is
    rebuilt from it and the renderer takes the size [(w, h)]; for finite
    sizes, as the browser measures them, that quotient is not a NaN.  The
    same holds for the resize [animate] performs on the first laid-out
    frame: a frame that measures a zero width or height changes none of the
    three. *)
Theorem resize_ignores_zero_size :
  forall (w h : float) (s : Globe),
    let s' := onWindowResize w h s in
    ((w =? 0)%float = true \/ (h =? 0)%float = true -> s' = s) /\
    ((w =? 0)%float = false -> (h =? 0)%float = false ->
     aspect (camera s') = (w / h)%float /\
     projectionMatrix (camera s')
     = perspective (fov (camera s)) (w / h)%float
         (near (camera s)) (far (camera s)) /\
     rendererSize s' = Some (w, h) /\
     (JS.isFinite w = true -> JS.isFinite h = true ->
      JS.isNaN (aspect (camera s')) = false)) /\
    (forall env : FrameEnv,
       (clientWidth env =? 0)%float = true
       \/ (clientHeight env =? 0)%float = true ->
       aspect (camera (animate env s)) = aspect (camera s) /\
       projectionMatrix (camera (animate env s))
       = projectionMatrix (camera s) /\
       rendererSize (animate env s) = rendererSize s).
Proof.
  intros w h s s'. unfold s', onWindowResize, JS.strict_eq.
  split; [|split].
  - intros [-> | ->]; [reflexivity|].
    rewrite orb_true_r. reflexivity.
  - intros Hw Hh. rewrite Hw, Hh. simpl.
    repeat split. intros Hfw Hfh. apply div_not_nan; assumption.
  - intros env Hzero.
    unfold animate, firstLayout, onWindowResize, JS.strict_eq. simpl.
    destruct (isInView s); simpl; [|auto].
    assert (Hz : (clientWidth env =? 0)%float
                 || (clientHeight env =? 0)%float = true).
    { destruct Hzero as [-> | ->]; [reflexivity | apply orb_true_r]. }
    rewrite Hz.
    destruct (negb (isRendered s) && JS.gt (clientWidth env) 0);
      simpl; auto.
Qed.

(** C8.  A click casts the ray from the pointer position it has just
    recorded.  If the ray meets the sphere, the impulse origin becomes the
    nearest intersection point and the strength becomes 15; if it misses,
    both stay as they were.  A touch start does the same with its first
    touch point, and nothing when it carries none. *)
Theorem click_seeds_impulse_on_hit :
  forall (p : Point) (rect : DOMRect) (s : Globe),
    let aimed := set_mouse (pointerToMouse p rect) s in
    let s' := onMouseClick p rect s in
    (forall hit rest, raycast aimed = hit :: rest ->
       clickPoint s' = hit /\ clickStrength s' = 15%float) /\
    (raycast aimed = [] ->
       clickPoint s' = clickPoint s /\ clickStrength s' = clickStrength s) /\
    (forall touches, onTouchStart (p :: touches) rect s = s') /\
    onTouchStart [] rect s = s.
Proof.
  intros p rect s aimed s'. unfold s', onMouseClick, triggerDisperse.
  fold aimed. split; [|split; [|split]].
  - intros hit rest Hhit. rewrite Hhit. split; reflexivity.
  - intros Hmiss. rewrite Hmiss. split; reflexivity.
  - intros touches. reflexivity.
  - reflexivity.
Qed.

(** C9.  The impulse strength is never negative.  [init] sets it to 0; a
    click or a touch that hits the sphere sets it to 15; a frame replaces it
    by its decayed value, and the decay of a non-negative number (a product
    of positive numbers, or 0) is not negative; no other handler writes it.
    So it is non-negative after [init] and after every sequence of events
    that follows. *)
Theorem impulse_strength_never_negative :
  forall (container touch : bool) (random : nat -> float)
         (env : FrameEnv) (events : list Event) (g : Globe),
    init container touch random env = Some g ->
    (0 <=? clickStrength g)%float = true /\
    (0 <=? clickStrength (run events g))%float = true /\
    (forall e : Event,
       (0 <=? clickStrength (handle (run events g) e))%float = true).
Proof.
  intros container touch random env events g Hinit.
  assert (Hg : (0 <=? clickStrength g)%float = true).
  { rewrite (init_Some _ _ _ _ _ Hinit).
    rewrite animate_clickStrength, setupGlobe_clickStrength.
    change (clickStrength (fresh touch)) with 0%float.
    destruct (isInView _); [apply decay_sign|]; reflexivity. }
  split; [exact Hg|]. split.
  - apply run_sign, Hg.
  - intros e. apply handle_sign, run_sign, Hg.
Qed.

End WithHost.

#[local] Existing Instance SampleHost.host.

(** The scenario with four particles: the draws 0.125, 0.25, ... give the
    same four points at every run; here is the last one. *)
Lemma setupGlobe_samples_the_sphere_witness :
  let g := setupGlobe SampleHost.draws SampleHost.four in
  3 < PARTICLE_COUNT SampleHost.four /\
  originalPos g (heap g) 3
  = stored (spherePoint (SampleHost.draws 6) (SampleHost.draws 7)).
Proof.
  assert (Hi : 3 < PARTICLE_COUNT SampleHost.four) by (simpl; lia).
  split; [exact Hi|].
  exact (proj1 (proj2 (setupGlobe_samples_the_sphere
                         SampleHost.draws SampleHost.four 3 Hi))).
Defined.

(** After a click in the middle of the container the strength is 15, and
    the next frames can only lower it. *)
Lemma impulse_decays_to_zero_witness :
  clickStrength SampleHost.clicked = 15%float /\
  (clickStrength
     (animate (SampleHost.frame 3)
        (run (map Frame [SampleHost.frame 1; SampleHost.frame 2])
           SampleHost.clicked))
   <=? clickStrength
         (run (map Frame [SampleHost.frame 1; SampleHost.frame 2])
            SampleHost.clicked))%float = true.
Proof.
  assert (Hseed : clickStrength SampleHost.clicked = 15%float)
    by (vm_compute; reflexivity).
  split; [exact Hseed|].
  exact (proj1 (impulse_decays_to_zero SampleHost.clicked
                  [SampleHost.frame 1; SampleHost.frame 2]
                  (SampleHost.frame 3) Hseed)).
Defined.

(** With the pointer parked outside the container and no click, the first
    particle of the four gets no displacement; the sample cloud is not
    transformed, so its target is its shimmer-displaced position. *)
Lemma idle_target_is_shimmer_witness :
  let g := run [] (setupGlobe SampleHost.draws SampleHost.four) in
  let g' := animate (SampleHost.frame 1) g in
  let original := originalPos g (heap g) 0 in
  let shimmer :=
    add original
      (multiplyScalar (normalize original)
         (noiseValue original 1 * NOISE_AMPLITUDE)%float) in
  totalDisplacement (isTouchDevice g) (clickStrength g') shimmer
    (framePointer (SampleHost.frame 1) g) (clickPoint g) = zero3 /\
  same3 (targetPos tt (isTouchDevice g) (clickStrength g')
           (framePointer (SampleHost.frame 1) g) (clickPoint g) original
           1%float)
        shimmer.
Proof.
  assert (Hview : isInView (run [] (setupGlobe SampleHost.draws
                                      SampleHost.four)) = true)
    by (vm_compute; reflexivity).
  assert (Hi : 0 < PARTICLE_COUNT (run [] (setupGlobe SampleHost.draws
                                             SampleHost.four)))
    by (vm_compute; lia).
  pose proof (idle_target_is_shimmer SampleHost.draws SampleHost.four
                [] (SampleHost.frame 1) 0 Hview Hi) as Hidle.
  cbv zeta in Hidle.
  destruct Hidle as (Htotal & _ & _ & Htarget).
  - right. vm_compute. reflexivity.
  - vm_compute. reflexivity.
  - split; [exact Htotal|]. apply Htarget.
    intros p q Hsame. exact Hsame.
Defined.

(** Two frames of a globe scrolled out of view leave its store alone. *)
Lemma hidden_frames_do_no_work_witness :
  isInView SampleHost.hidden = false /\
  heap (run (map Frame [SampleHost.frame 1; SampleHost.frame 2])
          SampleHost.hidden)
  = heap SampleHost.hidden.
Proof.
  assert (Hview : isInView SampleHost.hidden = false)
    by (vm_compute; reflexivity).
  split; [exact Hview|].
  exact (proj1 (proj2 (hidden_frames_do_no_work SampleHost.hidden
                         [SampleHost.frame 1; SampleHost.frame 2] Hview))).
Defined.


(** That particle is 1.55 away from the pointer: it is pushed, away from the
    pointer (each component of the push has the sign of the component of
    the difference). *)
Example hover_pushes_away :
  let g := run SampleHost.pointerOverThird SampleHost.built in
  let world := shimmeringPos (originalPos g (heap g) 2) 1%float in
  let pointer := framePointer (SampleHost.frame 1) g in
  hovering false world pointer = true /\
  (x (hoverRepulsion world pointer) <? 0)%float
  = (x (sub world pointer) <? 0)%float /\
  (y (hoverRepulsion world pointer) <? 0)%float
  = (y (sub world pointer) <? 0)%float /\
  (z (hoverRepulsion world pointer) <? 0)%float
  = (z (sub world pointer) <? 0)%float /\
  hoverRepulsion world pointer
  = mkVector3 (-1.2609146959255457)%float (-0.59950506694071992)%float
              (-1.12882574814207)%float.
Proof. vm_compute. repeat split. Qed.

(** A particle exactly at the pointer point passes the hover test, but the
    difference has no direction: three.js leaves a zero vector as it is when
    normalising, and the vector added is zero. *)
Example hover_on_the_pointer :
  let p := mkVector3 3 0 4 in
  hovering false p p = true /\ hoverRepulsion p p = zero3.
Proof. vm_compute. split; reflexivity. Qed.

(** After [init] on a page with the container, a click and a frame. *)
Lemma impulse_strength_never_negative_witness :
  (0 <=? clickStrength
           (run [Click (mkPoint 400 300) SampleHost.rect;
                 Frame (SampleHost.frame 1)]
              (animate (SampleHost.frame 0)
                 (setupGlobe SampleHost.draws (fresh false)))))%float
  = true.
Proof.
  exact (proj1 (proj2 (impulse_strength_never_negative true false
                         SampleHost.draws (SampleHost.frame 0)
                         [Click (mkPoint 400 300) SampleHost.rect;
                          Frame (SampleHost.frame 1)]
                         _ eq_refl))).
Defined.

End GlobeFacts.

(* ===================================================================== *)
(** * Properties of the newsletter form *)
(* ===================================================================== *)

Module FormFacts.

Import FormHandling.
Local Open Scope N_scope.

(** *** The matcher decides the language of the pattern *)

Lemma matches_never s : Matches Never s -> False.
Proof. intros Hm. inversion Hm. Qed.

Lemma matches_empty s : Matches Empty s -> s = [].
Proof. intros Hm. inversion Hm. reflexivity. Qed.

Lemma matches_class p s :
  Matches (Class p) s -> exists c, s = [c] /\ p c = true.
Proof. intros Hm. inversion Hm; subst. eauto. Qed.

Lemma matches_seq r1 r2 s :
  Matches (Seq r1 r2) s ->
  exists s1 s2, s = s1 ++ s2 /\ Matches r1 s1 /\ Matches r2 s2.
Proof. intros Hm. inversion Hm; subst. eauto. Qed.

Lemma matches_or r1 r2 s :
  Matches (Or r1 r2) s -> Matches r1 s \/ Matches r2 s.
Proof. intros Hm. inversion Hm; subst; auto. Qed.

Lemma nullable_spec r : nullable r = true <-> Matches r [].
Proof.
  induction r as [| |p|r1 IH1 r2 IH2|r1 IH1 r2 IH2|r IH]; simpl.
  - split; [discriminate | intros Hm; destruct (matches_never _ Hm)].
  - split; [constructor | reflexivity].
  - split; [discriminate|].
    intros Hm. destruct (matches_class _ _ Hm) as (c & Heq & _).
    discriminate.
  - rewrite andb_true_iff, IH1, IH2. split.
    + intros [H1 H2]. apply (MatchSeq r1 r2 [] []); assumption.
    + intros Hm. destruct (matches_seq _ _ _ Hm) as (s1 & s2 & Heq & H1 & H2).
      symmetry in Heq. apply app_eq_nil in Heq. destruct Heq as [-> ->].
      auto.
  - rewrite orb_true_iff, IH1, IH2. split.
    + intros [H1 | H2]; [apply MatchOrL | apply MatchOrR]; assumption.
    + apply matches_or.
  - split; [constructor | reflexivity].
Qed.

(** A match of [r*] that starts with [c] starts with a match of [r] that
    starts with [c]. *)
Lemma many_cons r c s :
  Matches (Many r) (c :: s) ->
  exists s1 s2, s = s1 ++ s2 /\ Matches r (c :: s1) /\ Matches (Many r) s2.
Proof.
  intros Hm. remember (Many r) as r' eqn:Hr. remember (c :: s) as s' eqn:Hs.
  revert s Hs.
  induction Hm as [| | | | | |r0 s1 s2 H1 _ H2 IH2]; intros t Ht;
    try discriminate.
  injection Hr as ->. destruct s1 as [|c1 s1].
  - simpl in Ht. apply IH2; [reflexivity | exact Ht].
  - simpl in Ht. injection Ht as -> <-.
    exists s1, s2. auto.
Qed.

(** A match of [r1 r2] that starts with [c]: the letter belongs to the part
    matched by [r1], or [r1] matches nothing and it belongs to [r2]. *)
Lemma seq_cons r1 r2 c s :
  Matches (Seq r1 r2) (c :: s) ->
  (exists s1 s2, s = s1 ++ s2 /\ Matches r1 (c :: s1) /\ Matches r2 s2)
  \/ (Matches r1 [] /\ Matches r2 (c :: s)).
Proof.
  intros Hm. destruct (matches_seq _ _ _ Hm) as (s1 & s2 & Heq & H1 & H2).
  destruct s1 as [|c1 s1]; simpl in Heq.
  - right. subst s2. auto.
  - injection Heq as <- ->. left. exists s1, s2. auto.
Qed.

Lemma derive_spec r : forall c s,
  Matches (derive c r) s <-> Matches r (c :: s).
Proof.
  induction r as [| |p|r1 IH1 r2 IH2|r1 IH1 r2 IH2|r IH]; intros c s; simpl.
  - split; intros Hm; destruct (matches_never _ Hm).
  - split; intros Hm;
      [destruct (matches_never _ Hm) | apply matches_empty in Hm].
    discriminate.
  - destruct (p c) eqn:Hp; split; intros Hm.
    + apply matches_empty in Hm. subst s. constructor. exact Hp.
    + destruct (matches_class _ _ Hm) as (c' & Heq & _).
      injection Heq as _ ->. constructor.
    + destruct (matches_never _ Hm).
    + destruct (matches_class _ _ Hm) as (c' & Heq & Hc).
      injection Heq as <- _. congruence.
  - assert (Hleft : Matches (Seq (derive c r1) r2) s ->
                    Matches (Seq r1 r2) (c :: s)).
    { intros Hm.
      destruct (matches_seq _ _ _ Hm) as (s1 & s2 & -> & H1 & H2).
      apply IH1 in H1. apply (MatchSeq r1 r2 (c :: s1) s2); assumption. }
    destruct (nullable r1) eqn:Hnull.
    + split.
      * intros Hm. destruct (matches_or _ _ _ Hm) as [Hm1 | Hm2].
        -- apply Hleft. exact Hm1.
        -- apply nullable_spec in Hnull.
           apply (MatchSeq r1 r2 [] (c :: s)); [exact Hnull|].
           apply IH2. exact Hm2.
      * intros Hm.
        destruct (seq_cons _ _ _ _ Hm)
          as [(s1 & s2 & -> & H1 & H2) | [_ H2]].
        -- apply MatchOrL. constructor; [apply IH1; exact H1 | exact H2].
        -- apply MatchOrR. apply IH2. exact H2.
    + split; [exact Hleft|].
      intros Hm.
      destruct (seq_cons _ _ _ _ Hm)
        as [(s1 & s2 & -> & H1 & H2) | [H1 _]].
      * constructor; [apply IH1; exact H1 | exact H2].
      * apply nullable_spec in H1. congruence.
  - split; intros Hm; destruct (matches_or _ _ _ Hm) as [Hm1 | Hm2].
    + apply MatchOrL. apply IH1. exact Hm1.
    + apply MatchOrR. apply IH2. exact Hm2.
    + apply MatchOrL. apply IH1. exact Hm1.
    + apply MatchOrR. apply IH2. exact Hm2.
  - split.
    + intros Hm.
      destruct (matches_seq _ _ _ Hm) as (s1 & s2 & -> & H1 & H2).
      apply IH in H1. apply (MatchManyCons r (c :: s1) s2); assumption.
    + intros Hm. destruct (many_cons r c s Hm) as (s1 & s2 & -> & H1 & H2).
      constructor; [apply IH; exact H1 | exact H2].
Qed.

Lemma test_spec s : forall r, test r s = true <-> Matches r s.
Proof.
  induction s as [|c s IH]; intros r; simpl.
  - apply nullable_spec.
  - rewrite IH. apply derive_spec.
Qed.

Lemma matches_many_class p s :
  Matches (Many (Class p)) s <-> Forall (fun c => p c = true) s.
Proof.
  split.
  - intros Hm. remember (Many (Class p)) as r eqn:Hr.
    induction Hm as [| | | | | |r0 s1 s2 H1 _ H2 IH2]; try discriminate.
    + constructor.
    + injection Hr as ->.
      destruct (matches_class _ _ H1) as (c & -> & Hc).
      constructor; [exact Hc | apply IH2; reflexivity].
  - induction 1 as [|c s Hc _ IH].
    + constructor.
    + apply (MatchManyCons (Class p) [c] s); [constructor; exact Hc | exact IH].
Qed.

Lemma matches_one_or_more p s :
  Matches (OneOrMore (Class p)) s
  <-> s <> [] /\ Forall (fun c => p c = true) s.
Proof.
  unfold OneOrMore. split.
  - intros Hm. destruct (matches_seq _ _ _ Hm) as (s1 & s2 & -> & H1 & H2).
    destruct (matches_class _ _ H1) as (c & -> & Hc).
    apply matches_many_class in H2. split; [discriminate|].
    constructor; assumption.
  - intros [Hne Hall]. destruct Hall as [|c s Hc Hall]; [congruence|].
    apply (MatchSeq (Class p) (Many (Class p)) [c] s).
    + constructor. exact Hc.
    + apply matches_many_class. exact Hall.
Qed.

Lemma matches_char c s : Matches (Char c) s <-> s = [c].
Proof.
  unfold Char. split.
  - intros Hm. destruct (matches_class _ _ Hm) as (c' & -> & Hc).
    apply N.eqb_eq in Hc. subst. reflexivity.
  - intros ->. constructor. apply N.eqb_refl.
Qed.

(** The literal matches exactly the addresses [local@domain.tld]. *)
Lemma emailRegex_spec s : Matches emailRegex s <-> wellFormedAddress s.
Proof.
  unfold emailRegex, wellFormedAddress, word. split.
  - intros Hm.
    destruct (matches_seq _ _ _ Hm) as (a & s1 & -> & Ha & Hm1).
    destruct (matches_seq _ _ _ Hm1) as (at' & s2 & -> & Hat & Hm2).
    destruct (matches_seq _ _ _ Hm2) as (b & s3 & -> & Hb & Hm3).
    destruct (matches_seq _ _ _ Hm3) as (dot & c & -> & Hdot & Hc).
    apply matches_char in Hat, Hdot. subst at' dot.
    apply matches_one_or_more in Ha, Hb, Hc.
    exists a, b, c. auto.
  - intros (a & b & c & -> & Ha & Hb & Hc).
    apply matches_one_or_more in Ha, Hb, Hc.
    apply MatchSeq; [exact Ha|].
    apply (MatchSeq (Char AT) _ [AT]); [apply matches_char; reflexivity|].
    apply MatchSeq; [exact Hb|].
    apply (MatchSeq (Char DOT) _ [DOT]); [apply matches_char; reflexivity|].
    exact Hc.
Qed.

Lemma isValidEmail_spec email :
  isValidEmail email = true <-> wellFormedAddress email.
Proof.
  unfold isValidEmail. rewrite test_spec. apply emailRegex_spec.
Qed.

Lemma wellFormedAddress_nonempty email :
  wellFormedAddress email -> email <> [].
Proof.
  intros (a & b & c & -> & _). destruct a; discriminate.
Qed.

(** *** The claim *)

(** C10.  Let [email] be the value of the email field ([[]] when the form
    has no such field).  The handler shows the success toast and resets the
    form exactly when [email] is not empty and matches the pattern
    [^[^\s@]+@[^\s@]+\.[^\s@]+$], that is when it reads
    [local@domain.tld] with three non-empty parts free of white space and
    of [@].  Otherwise it shows an error toast, with the empty-field
    message when [email] is empty and the invalid-address message when it
    fails the pattern, and does not reset the form. *)
Theorem newsletter_succeeds_iff_valid :
  forall pg : Page,
    let pg' := handleNewsletterSubmission pg in
    let email :=
      match emailInput pg with Some i => value i | None => [] end in
    let shown (text : string) (type : Kind) :=
      notifications pg' = notifications pg ++ [mkNotification text type] in
    (isValidEmail email = true <-> wellFormedAddress email) /\
    ((shown "Thank you for subscribing!"%string success
      /\ formResets pg' = S (formResets pg))
     <-> email <> [] /\ isValidEmail email = true) /\
    (email = [] ->
     shown "Please enter an email address."%string error
     /\ formResets pg' = formResets pg) /\
    (email <> [] -> isValidEmail email = false ->
     shown "Please enter a valid email address."%string error
     /\ formResets pg' = formResets pg).
Proof.
  intros pg pg' email shown.
  split; [apply isValidEmail_spec|].
  unfold shown, pg', email, handleNewsletterSubmission.
  destruct (emailInput pg) as [i|]; simpl.
  - destruct (value i) as [|c e] eqn:Hvalue; simpl.
    + split; [|split].
      * split; [intros [_ Hreset]; lia | intros [Hne _]; congruence].
      * auto.
      * intros Hne. congruence.
    + destruct (isValidEmail (c :: e)) eqn:Hvalid; simpl.
      * split; [|split].
        -- split; [intros _; split; [discriminate | reflexivity] | auto].
        -- discriminate.
        -- discriminate.
      * split; [|split].
        -- split; [intros [_ Hreset]; lia | intros [_ Hfalse]; discriminate].
        -- discriminate.
        -- auto.
  - split; [|split].
    + split; [intros [_ Hreset]; lia | intros [Hne _]; congruence].
    + auto.
    + intros Hne. congruence.
Qed.

Example valid_address :
  isValidEmail (ofString "ada@example.org") = true.
Proof. vm_compute. reflexivity. Qed.

Example address_without_dot :
  isValidEmail (ofString "ada@example") = false.
Proof. vm_compute. reflexivity. Qed.

Example address_with_space :
  isValidEmail (ofString "ada lovelace@example.org") = false.
Proof. vm_compute. reflexivity. Qed.

Example address_with_two_ats :
  isValidEmail (ofString "ada@home@example.org") = false.
Proof. vm_compute. reflexivity. Qed.

End FormFacts.

(* ===================================================================== *)
(** * More properties of the particle globe *)
(* ===================================================================== *)

Module GlobeExtras.

Import TypedArray THREE ParticleGlobe.
Local Open Scope nat_scope.

Section WithHost.

Context `{Host}.

(** X1.  Whatever happens after [setupGlobe], the buffers keep their shape:
    the positions the renderer reads and the colors are two distinct
    arrays, both distinct from the original positions, each holds exactly
    three numbers per particle, and the number of particles is the one
    [init] chose.  So every index the frame loop uses lies inside its
    array. *)
Theorem buffers_keep_their_shape
  (random : nat -> float) (s0 : Globe) (events : list Event) :
  let g := run events (setupGlobe random s0) in
  wellFormed g /\ PARTICLE_COUNT g = PARTICLE_COUNT s0.
Proof.
  cbv zeta. split.
  - apply GlobeFacts.run_wellFormed, GlobeFacts.setupGlobe_wellFormed.
  - destruct (GlobeFacts.run_layout events (setupGlobe random s0))
      as (_ & _ & _ & _ & _ & _ & Hn & _).
    rewrite Hn. reflexivity.
Qed.

Lemma reachable_original (random : nat -> float) (s0 : Globe) (events : list Event)
    (i : nat) :
  let g0 := setupGlobe random s0 in
  let g := run events g0 in
  originalPos g (heap g) i = originalPos g0 (heap g0) i.
Proof.
  intros g0 g.
  destruct (GlobeFacts.setupGlobe_built random s0)
    as ((Ho & Ha & Hp & Hc & _ & _) & _).
  fold g0 in Ho, Ha, Hp, Hc.
  destruct (GlobeFacts.run_layout events g0) as (Ho' & _).
  fold g in Ho'.
  unfold originalPos. rewrite !GlobeFacts.get_contents, Ho'. unfold g.
  rewrite (GlobeFacts.run_contents_ne events g0 (originalPositions g0)).
  - reflexivity.
  - rewrite Ho, Hp. simpl. lia.
  - rewrite Ho, Hc. simpl. lia.
Qed.

(** X2.  The color a visible frame writes for a particle is the blend of
    the base color and the hot color by [(noise + 1) * 0.5], the noise being
    taken at the position [setupGlobe] gave the particle and at the elapsed
    time of the frame.  It depends on nothing else: not on the pointer, not
    on clicks, not on the colors or positions of earlier frames. *)
Theorem color_follows_the_noise
  (random : nat -> float) (s0 : Globe) (events : list Event)
  (env : FrameEnv) (i : nat) :
  let g0 := setupGlobe random s0 in
  let g := run events g0 in
  let g' := animate env g in
  isInView g = true ->
  i < PARTICLE_COUNT s0 ->
  particleColor g' (heap g') i
  = storedColor
      (lerpColor (baseColor s0) (hotColor s0)
         ((noiseValue (originalPos g0 (heap g0) i) (elapsedTime env) + 1) * 0.5)%float).
Proof.
  intros g0 g g' Hview Hi.
  assert (Hwf : wellFormed g)
    by apply GlobeFacts.run_wellFormed, GlobeFacts.setupGlobe_wellFormed.
  assert (Hig : i < PARTICLE_COUNT g).
  { destruct (GlobeFacts.run_layout events g0) as (_ & _ & _ & _ & _ & _ & Hn & _).
    fold g in Hn. rewrite Hn. exact Hi. }
  destruct (GlobeFacts.animate_particle env g i Hwf Hview Hig) as (_ & Hcolor & _).
  fold g' in Hcolor. rewrite Hcolor.
  destruct (GlobeFacts.run_layout events g0)
    as (_ & _ & _ & _ & _ & _ & _ & _ & Hbase & Hhot).
  fold g in Hbase, Hhot. rewrite Hbase, Hhot.
  pose proof (reachable_original random s0 events i) as Horiginal.
  cbv zeta in Horiginal. fold g0 in Horiginal. fold g in Horiginal.
  rewrite Horiginal. reflexivity.
Qed.

Lemma animate_counts (env : FrameEnv) (s : Globe) :
  let s' := animate env s in
  let frames := if isInView s then 1 else 0 in
  frameRequests s' = frameRequests s + 1 /\
  renderCalls s' = renderCalls s + frames /\
  version (positionAttribute s') = version (positionAttribute s) + frames /\
  version (colorAttribute s') = version (colorAttribute s) + frames.
Proof.
  unfold animate, firstLayout, onWindowResize. simpl.
  destruct (isInView s); simpl; [|repeat split; lia].
  destruct (negb (isRendered s) && JS.gt (clientWidth env) 0);
    [destruct (JS.strict_eq (clientWidth env) 0
               || JS.strict_eq (clientHeight env) 0)|];
    simpl; repeat split; lia.
Qed.

(** X3.  The loop never stops and never skips a picture: every call of
    [animate] asks for exactly one next frame, visible or not; and while
    the globe is in view every call renders exactly once and marks both
    attributes for upload exactly once. *)
Theorem every_frame_requests_the_next (envs : list FrameEnv) (s : Globe) :
  let s' := run (map Frame envs) s in
  let frames := if isInView s then length envs else 0 in
  frameRequests s' = frameRequests s + length envs /\
  renderCalls s' = renderCalls s + frames /\
  version (positionAttribute s') = version (positionAttribute s) + frames /\
  version (colorAttribute s') = version (colorAttribute s) + frames.
Proof.
  revert s. induction envs as [|env envs IH]; intros s.
  - simpl. destruct (isInView s); repeat split; lia.
  - change (run (map Frame (env :: envs)) s)
      with (run (map Frame envs) (animate env s)).
    specialize (IH (animate env s)). cbv zeta in IH.
    rewrite GlobeFacts.animate_isInView in IH.
    destruct IH as (Hf & Hr & Hp & Hc).
    destruct (animate_counts env s) as (Hf1 & Hr1 & Hp1 & Hc1).
    cbv zeta. rewrite Hf, Hr, Hp, Hc, Hf1, Hr1, Hp1, Hc1.
    destruct (isInView s); simpl; repeat split; lia.
Qed.

Lemma animate_rendered (env : FrameEnv) (s : Globe) :
  isRendered s = true ->
  isRendered (animate env s) = true /\
  aspect (camera (animate env s)) = aspect (camera s) /\
  projectionMatrix (camera (animate env s)) = projectionMatrix (camera s) /\
  rendererSize (animate env s) = rendererSize s.
Proof.
  intros Hr. unfold animate, firstLayout. simpl. rewrite Hr. simpl.
  destruct (isInView s); simpl; repeat split; assumption.
Qed.

(** X4.  [animate] sizes the renderer at most once.  The first visible
    frame that finds a container of positive width marks the globe as
    rendered, also when the height is still zero and [onWindowResize]
    therefore changed nothing; from then on no frame touches the camera's
    aspect, its projection matrix or the renderer's size. *)
Theorem frames_size_the_renderer_once (env : FrameEnv) (envs : list FrameEnv) (s : Globe) :
  let sized (a b : Globe) :=
    aspect (camera b) = aspect (camera a) /\
    projectionMatrix (camera b) = projectionMatrix (camera a) /\
    rendererSize b = rendererSize a in
  isInView s = true ->
  JS.gt (clientWidth env) 0 = true ->
  let s1 := animate env s in
  let s2 := run (map Frame envs) s1 in
  isRendered s1 = true /\
  (JS.strict_eq (clientHeight env) 0 = true -> sized s s1) /\
  isRendered s2 = true /\ sized s1 s2.
Proof.
  intros sized Hview Hwidth s1 s2. unfold sized. clear sized.
  assert (H1 : isRendered s1 = true).
  { unfold s1, animate, firstLayout, onWindowResize. simpl. rewrite Hview. simpl.
    rewrite Hwidth, andb_true_r.
    destruct (isRendered s) eqn:Hr; simpl; [exact Hr|].
    destruct (JS.strict_eq (clientWidth env) 0
              || JS.strict_eq (clientHeight env) 0); reflexivity. }
  split; [exact H1|]. split.
  - intros Hheight.
    unfold s1, animate, firstLayout, onWindowResize. simpl.
    rewrite Hview. simpl. rewrite Hheight, orb_true_r.
    destruct (negb (isRendered s) && JS.gt (clientWidth env) 0); simpl;
      repeat split.
  - unfold s2. clearbody s1. clear s2 Hview.
    revert s1 H1. induction envs as [|e envs IH]; intros s1 H1.
    + simpl. repeat split; assumption.
    + change (run (map Frame (e :: envs)) s1)
        with (run (map Frame envs) (animate e s1)).
      destruct (animate_rendered e s1 H1) as (H2 & Ha & Hp & Hs).
      destruct (IH (animate e s1) H2) as (H3 & Ha' & Hp' & Hs').
      split; [exact H3|]. repeat split; congruence.
Qed.

(** X5.  The impulse never arms by itself: when its strength is zero, no
    sequence of frames, resizes, pointer moves and visibility changes makes
    it anything else; only a click or a touch can. *)
Theorem impulse_arms_only_on_a_press (events : list Event) (s : Globe) :
  clickStrength s = 0%float ->
  Forall (fun e => match e with
                   | Click _ _ | TouchStart _ _ => False
                   | _ => True
                   end) events ->
  clickStrength (run events s) = 0%float.
Proof.
  revert s. induction events as [|e events IH]; intros s Hzero Hevents;
    [exact Hzero|].
  inversion Hevents as [|? ? He Hrest]; subst.
  change (run (e :: events) s) with (run events (handle s e)).
  apply IH; [|exact Hrest].
  destruct e as [env|w h|p rect|p rect|touches rect|entries]; simpl in *.
  - rewrite GlobeFacts.animate_clickStrength, Hzero.
    destruct (isInView s); reflexivity.
  - unfold onWindowResize. destruct (_ || _); exact Hzero.
  - destruct (isTouchDevice s); exact Hzero.
  - destruct He.
  - destruct He.
  - rewrite GlobeFacts.onIntersection_clickStrength. exact Hzero.
Qed.

End WithHost.

(** *** The pointer on a container without a size *)

Local Open Scope float_scope.

Lemma quotient_by_zero_not_finite (v w : float) (s : bool) :
  Prim2SF w = S754_zero s ->
  exists q, Prim2SF (v / w) = q /\ (q = S754_nan \/ exists sq, q = S754_infinity sq).
Proof.
  intros Hw. rewrite FloatAxioms.div_spec, Hw.
  destruct (Prim2SF v) as [sv|sv| |sv mv ev]; simpl; eauto.
Qed.

Lemma not_finite (a : float) :
  Prim2SF a = S754_nan \/ (exists s, Prim2SF a = S754_infinity s) ->
  is_finite a = false.
Proof.
  unfold is_finite, is_nan, is_infinity.
  rewrite !FloatAxioms.eqb_spec, FloatAxioms.abs_spec.
  change (Prim2SF infinity) with (S754_infinity false).
  intros [-> | [s ->]]; [reflexivity | destruct s; reflexivity].
Qed.

Lemma times_two_not_finite (a : float) :
  Prim2SF a = S754_nan \/ (exists s, Prim2SF a = S754_infinity s) ->
  Prim2SF (a * 2) = S754_nan \/ (exists s, Prim2SF (a * 2) = S754_infinity s).
Proof.
  rewrite FloatAxioms.mul_spec. change (Prim2SF 2) with (S754_finite false 4503599627370496 (-51)).
  intros [-> | [s ->]]; simpl; eauto.
Qed.

Lemma plus_finite_not_finite (a c : float) (sc : bool) (mc : positive) (ec : Z) :
  Prim2SF c = S754_finite sc mc ec ->
  Prim2SF a = S754_nan \/ (exists s, Prim2SF a = S754_infinity s) ->
  Prim2SF (a + c) = S754_nan \/ (exists s, Prim2SF (a + c) = S754_infinity s).
Proof.
  intros Hc. rewrite FloatAxioms.add_spec, Hc.
  intros [-> | [s ->]]; simpl; eauto.
Qed.

Lemma minus_finite_not_finite (a c : float) (sc : bool) (mc : positive) (ec : Z) :
  Prim2SF c = S754_finite sc mc ec ->
  Prim2SF a = S754_nan \/ (exists s, Prim2SF a = S754_infinity s) ->
  Prim2SF (a - c) = S754_nan \/ (exists s, Prim2SF (a - c) = S754_infinity s).
Proof.
  intros Hc. rewrite FloatAxioms.sub_spec, Hc.
  intros [-> | [s ->]]; simpl; eauto.
Qed.

Lemma opp_not_finite (a : float) :
  Prim2SF a = S754_nan \/ (exists s, Prim2SF a = S754_infinity s) ->
  Prim2SF (- a) = S754_nan \/ (exists s, Prim2SF (- a) = S754_infinity s).
Proof.
  rewrite FloatAxioms.opp_spec.
  intros [-> | [s ->]]; simpl; eauto.
Qed.

(** X6.  The pointer handlers do not test the size of the container as
    [onWindowResize] does.  With a rectangle of zero width the first
    coordinate the raycaster receives is infinite or NaN, whatever the
    pointer position; with zero height, the second. *)
Theorem pointer_on_empty_container (p : Point) (rect : DOMRect) :
  (JS.strict_eq (width rect) 0 = true ->
   is_finite (v2_x (pointerToMouse p rect)) = false) /\
  (JS.strict_eq (height rect) 0 = true ->
   is_finite (v2_y (pointerToMouse p rect)) = false).
Proof.
  assert (Hzero : forall w, JS.strict_eq w 0 = true -> exists s, Prim2SF w = S754_zero s).
  { intros w. unfold JS.strict_eq. rewrite FloatAxioms.eqb_spec.
    change (Prim2SF 0) with (S754_zero false). unfold SFeqb.
    destruct (Prim2SF w) as [s|s| |s m e]; simpl; eauto; try discriminate;
      destruct s; discriminate. }
  unfold pointerToMouse. simpl. split; intros Hw; destruct (Hzero _ Hw) as [s Hs].
  - apply not_finite.
    apply (minus_finite_not_finite _ 1 false 4503599627370496 (-52) eq_refl).
    apply times_two_not_finite.
    destruct (quotient_by_zero_not_finite (clientX p - left rect) (width rect) s Hs)
      as (q & -> & Hq). exact Hq.
  - apply not_finite.
    apply (plus_finite_not_finite _ 1 false 4503599627370496 (-52) eq_refl).
    apply times_two_not_finite. apply opp_not_finite.
    destruct (quotient_by_zero_not_finite (clientY p - top rect) (height rect) s Hs)
      as (q & -> & Hq). exact Hq.
Qed.

#[local] Existing Instance SampleHost.host.

Local Open Scope nat_scope.

(** In the scenario with four particles, after a pointer move and a frame. *)
Lemma color_follows_the_noise_witness :
  let g0 := setupGlobe SampleHost.draws SampleHost.four in
  let g := run SampleHost.pointerOverThird g0 in
  let g' := animate (SampleHost.frame 1) g in
  particleColor g' (heap g') 2
  = storedColor
      (lerpColor (baseColor SampleHost.four) (hotColor SampleHost.four)
         ((noiseValue (originalPos g0 (heap g0) 2) 1 + 1) * 0.5)%float).
Proof.
  apply (color_follows_the_noise SampleHost.draws SampleHost.four
           SampleHost.pointerOverThird (SampleHost.frame 1) 2).
  - vm_compute. reflexivity.
  - vm_compute. lia.
Defined.

(** A first frame that finds the container 800 wide and not yet high, and
    two frames after it. *)
Lemma frames_size_the_renderer_once_witness :
  let sized (a b : Globe) :=
    aspect (camera b) = aspect (camera a) /\
    projectionMatrix (camera b) = projectionMatrix (camera a) /\
    rendererSize b = rendererSize a in
  let env := @mkFrameEnv SampleHost.host 800%float 0%float 0%float tt in
  let s1 := animate env SampleHost.built in
  let s2 := run (map Frame [SampleHost.frame 1; SampleHost.frame 2]) s1 in
  isRendered s1 = true /\
  (JS.strict_eq (clientHeight env) 0 = true -> sized SampleHost.built s1) /\
  isRendered s2 = true /\ sized s1 s2.
Proof.
  apply (frames_size_the_renderer_once
           (@mkFrameEnv SampleHost.host 800%float 0%float 0%float tt)
           [SampleHost.frame 1; SampleHost.frame 2] SampleHost.built);
    vm_compute; reflexivity.
Defined.

(** The built globe, before any click: a pointer move, a frame and a
    resize leave the impulse at zero. *)
Lemma impulse_arms_only_on_a_press_witness :
  clickStrength
    (run [MouseMove (mkPoint 229 463) SampleHost.rect; Frame (SampleHost.frame 1);
          Resize 1024 768]
       SampleHost.built)
  = 0%float.
Proof.
  apply (impulse_arms_only_on_a_press
           [MouseMove (mkPoint 229 463) SampleHost.rect; Frame (SampleHost.frame 1);
            Resize 1024 768]
           SampleHost.built).
  - vm_compute. reflexivity.
  - repeat constructor.
Defined.

End GlobeExtras.

(* ===================================================================== *)
(** * More properties of the newsletter form *)
(* ===================================================================== *)

Module FormExtras.

Import FormHandling NewsletterForm.

Local Open Scope N_scope.

Lemma count_word (s : JSString) :
  Forall (fun c => notSpaceNorAt c = true) s -> count_occ N.eq_dec s AT = 0%nat.
Proof.
  induction 1 as [|c s Hc _ IH]; [reflexivity|].
  simpl. destruct (N.eq_dec c AT) as [->|_]; [discriminate | exact IH].
Qed.

Lemma word_no_space (s : JSString) :
  Forall (fun c => notSpaceNorAt c = true) s ->
  Forall (fun c => isWhiteSpace c = false) s.
Proof.
  apply List.Forall_impl. intros c Hc. unfold notSpaceNorAt in Hc.
  apply andb_true_iff in Hc as [Hc _]. apply negb_true_iff. exact Hc.
Qed.

Lemma last_of_word (s : JSString) (d : N) :
  s <> [] -> Forall (fun c => notSpaceNorAt c = true) s -> List.last s d <> AT.
Proof.
  induction s as [|x s IH]; intros Hne Hs; [congruence|].
  inversion Hs as [|? ? Hx Hrest]; subst.
  destruct s as [|y s].
  - simpl. intros ->. discriminate.
  - change (List.last (x :: y :: s) d) with (List.last (y :: s) d).
    apply IH; [discriminate | exact Hrest].
Qed.

Lemma last_of_suffix (s t : JSString) (d : N) :
  t <> [] -> forall u, u = s ++ t -> List.last u d = List.last t d.
Proof.
  intros Hne u ->. induction s as [|x s IH]; [reflexivity|].
  simpl. destruct (s ++ t) eqn:Hst; [|exact IH].
  destruct s; [simpl in Hst; congruence | discriminate].
Qed.

(** X7.  What the pattern lets through: an address that [isValidEmail]
    accepts holds exactly one [@], no white space at all, and at least five
    code units; it neither begins nor ends with [@]. *)
Theorem valid_address_shape (email : JSString) :
  isValidEmail email = true ->
  count_occ N.eq_dec email AT = 1%nat /\
  Forall (fun c => isWhiteSpace c = false) email /\
  (5 <= length email)%nat /\
  hd_error email <> Some AT /\
  List.last email DOT <> AT.
Proof.
  intros Hvalid. apply FormFacts.isValidEmail_spec in Hvalid.
  destruct Hvalid as (a & b & c & -> & [Ha Wa] & [Hb Wb] & [Hc Wc]).
  repeat split.
  - rewrite count_occ_app. simpl.
    destruct (N.eq_dec AT AT) as [_|Hne]; [|congruence].
    rewrite count_occ_app. simpl.
    destruct (N.eq_dec DOT AT) as [Heq|_]; [discriminate|].
    rewrite !count_word by assumption. reflexivity.
  - apply Forall_app. split; [apply word_no_space, Wa|].
    constructor; [reflexivity|].
    apply Forall_app. split; [apply word_no_space, Wb|].
    constructor; [reflexivity | apply word_no_space, Wc].
  - rewrite length_app. simpl. rewrite length_app. simpl.
    destruct a; [congruence|]. destruct b; [congruence|]. destruct c; [congruence|].
    simpl. lia.
  - destruct a as [|x a]; [congruence|]. simpl. intros Heq. injection Heq as ->.
    inversion Wa as [|? ? Hx _]. discriminate.
  - rewrite (last_of_suffix (a ++ AT :: b ++ [DOT]) c DOT Hc).
    + apply last_of_word; assumption.
    + rewrite <- !app_assoc. simpl. rewrite <- app_assoc. reflexivity.
Qed.

Lemma valid_address_shape_witness :
  let email := ofString "ada@example.org" in
  count_occ N.eq_dec email AT = 1%nat /\
  Forall (fun c => isWhiteSpace c = false) email /\
  (5 <= length email)%nat /\
  hd_error email <> Some AT /\
  List.last email DOT <> AT.
Proof.
  apply (valid_address_shape (ofString "ada@example.org")).
  vm_compute. reflexivity.
Defined.

Lemma submission_keeps_mark (pg : Page) :
  marked pg -> marked (handleNewsletterSubmission pg).
Proof.
  intros [(i & Hi & Hinvalid) Hrole]. unfold handleNewsletterSubmission.
  rewrite Hi. simpl.
  assert (Herror : forall text, marked (showFormError text (clearError pg))).
  { intros text. unfold marked, showFormError, clearError. simpl. rewrite Hi. simpl.
    split; [eauto|]. intros e. destruct (errorElement pg); simpl; [|discriminate].
    intros He. injection He as <-. reflexivity. }
  destruct (value i) as [|c email]; [apply Herror|].
  destruct (negb (isValidEmail (c :: email))); [apply Herror|].
  unfold marked, clearError, reset, showMessage. simpl. rewrite Hi. simpl.
  split; [eauto|]. intros e.
  destruct (errorElement pg) as [e0|] eqn:He0; simpl; [|discriminate].
  intros He. injection He as <-. simpl. apply (Hrole e0). reflexivity.
Qed.

Lemma handle_keeps_mark (pg : Page) (e : Event) : marked pg -> marked (handle pg e).
Proof.
  intros Hm. destruct e as [text| |]; simpl.
  - destruct Hm as [(i & Hi & Hinvalid) Hrole].
    unfold marked, input. simpl. rewrite Hi. simpl. split; [eauto | exact Hrole].
  - apply submission_keeps_mark, Hm.
  - exact Hm.
Qed.

(** X8.  A refused submission marks the field [aria-invalid] and gives the
    error element the role [alert]; nothing ever removes either: they are
    still there after any number of edits and submissions, successful ones
    included. *)
Theorem invalid_mark_is_never_cleared (pg : Page) (i : EmailInput) (events : list Event) :
  emailInput pg = Some i ->
  value i = [] \/ isValidEmail (value i) = false ->
  marked (run events (handleNewsletterSubmission pg)).
Proof.
  intros Hi Hrefused.
  assert (Hfirst : marked (handleNewsletterSubmission pg)).
  { assert (Herror : forall text, marked (showFormError text (clearError pg))).
    { intros text. unfold marked, showFormError, clearError. simpl. rewrite Hi. simpl.
      split; [eauto|]. intros e. destruct (errorElement pg); simpl; [|discriminate].
      intros He. injection He as <-. reflexivity. }
    unfold handleNewsletterSubmission. rewrite Hi. simpl.
    destruct (value i) as [|c email]; [apply Herror|].
    destruct Hrefused as [Hempty | ->]; [discriminate | apply Herror]. }
  revert Hfirst. generalize (handleNewsletterSubmission pg).
  induction events as [|e events IH]; intros p Hp; [exact Hp|].
  apply (IH (handle p e)), handle_keeps_mark, Hp.
Qed.

(** An address without a dot is refused; the visitor corrects it and the
    form is accepted: the mark stays. *)
Lemma invalid_mark_is_never_cleared_witness :
  marked
    (run [Input (ofString "ada@example.org"); Submit]
       (handleNewsletterSubmission
          (mkPage (Some (mkEmailInput (ofString "ada@example") [] false false))
             (Some (mkErrorElement "" "sr-only" false)) [] 0))).
Proof.
  apply (invalid_mark_is_never_cleared
           (mkPage (Some (mkEmailInput (ofString "ada@example") [] false false))
              (Some (mkErrorElement "" "sr-only" false)) [] 0)
           (mkEmailInput (ofString "ada@example") [] false false)
           [Input (ofString "ada@example.org"); Submit] eq_refl).
  right. vm_compute. reflexivity.
Defined.

End FormExtras.

(* ===================================================================== *)
(** * Order of JavaScript numbers *)

Module OrderFacts.

Lemma SFcompare_antisym (x y : spec_float) :
  SFcompare y x = option_map CompOpp (SFcompare x y).
Proof.
  destruct x as [sx|sx| |sx mx ex], y as [sy|sy| |sy my ey]; simpl;
    try reflexivity;
    try (destruct sx; reflexivity);
    try (destruct sy; reflexivity);
    try (destruct sx, sy; reflexivity).
  destruct sx, sy; simpl; try reflexivity;
    rewrite (Z.compare_antisym ex ey);
    destruct (ex ?= ey)%Z; simpl; try reflexivity.
  all: change PosDef.Pos.compare_cont with Pos.compare_cont;
    rewrite (ZC4 my mx); reflexivity.
Qed.

Lemma leb_not_gt (x y : float) :
  (x <=? y)%float = true -> (y <? x)%float = false.
Proof.
  rewrite FloatAxioms.leb_spec, FloatAxioms.ltb_spec.
  unfold SFleb, SFltb. rewrite (SFcompare_antisym (Prim2SF x) (Prim2SF y)).
  destruct (SFcompare (Prim2SF x) (Prim2SF y)) as [[]|]; simpl; congruence.
Qed.

Lemma ltb_not_ge (x y : float) :
  (x <? y)%float = true -> (y <=? x)%float = false.
Proof.
  rewrite FloatAxioms.leb_spec, FloatAxioms.ltb_spec.
  unfold SFleb, SFltb. rewrite (SFcompare_antisym (Prim2SF x) (Prim2SF y)).
  destruct (SFcompare (Prim2SF x) (Prim2SF y)) as [[]|]; simpl; congruence.
Qed.

End OrderFacts.

(* ===================================================================== *)
(** * Properties of the FAQ accordion *)

Module FAQFacts.

Import FAQ.

Lemma insert_alter {A} (f : A -> A) (k : nat) (l : list A) (a : A) :
  l !! k = Some a -> <[k := f a]> l = alter f k l.
Proof.
  revert k. induction l as [|b l IH]; intros [|k] Hk; simpl in *; try discriminate.
  - injection Hk as ->. reflexivity.
  - f_equal. apply IH. exact Hk.
Qed.

Lemma alter_outside {A} (f : A -> A) (k : nat) (l : list A) :
  l !! k = None -> alter f k l = l.
Proof.
  revert k. induction l as [|b l IH]; intros [|k] Hk; simpl in *;
    try discriminate; try reflexivity.
  f_equal. apply IH. exact Hk.
Qed.

Lemma close_questions (k : nat) (pg : Page) :
  questions (page (handleCloseFAQ k pg))
  = alter (setAriaExpanded "false") k (questions pg).
Proof.
  unfold handleCloseFAQ.
  destruct (questions pg !! k) as [q|] eqn:Hq.
  - rewrite <- (insert_alter _ _ _ _ Hq).
    destruct (getElementById _ _); reflexivity.
  - simpl. symmetry. apply alter_outside. exact Hq.
Qed.

Lemma open_questions (k : nat) (pg : Page) :
  questions (page (handleOpenFAQ k pg))
  = alter (setAriaExpanded "true") k (questions pg).
Proof.
  unfold handleOpenFAQ.
  destruct (questions pg !! k) as [q|] eqn:Hq.
  - rewrite <- (insert_alter _ _ _ _ Hq).
    destruct (getElementById _ _); [|reflexivity].
    destruct (spanText q); reflexivity.
  - simpl. symmetry. apply alter_outside. exact Hq.
Qed.

Lemma getElementById_set (id id' value : string) (els : list (string * Answer)) :
  getElementById id (setAriaHidden id' value els)
  = if String.eqb id' id
    then match getElementById id els with
         | Some _ => Some (mkAnswer (Some value))
         | None => None
         end
    else getElementById id els.
Proof.
  induction els as [|[i a] els IH]; simpl.
  - destruct (String.eqb id' id); reflexivity.
  - destruct (String.eqb i id') eqn:Hi'; simpl.
    + apply String.eqb_eq in Hi'. subst i.
      destruct (String.eqb id' id); reflexivity.
    + destruct (String.eqb i id) eqn:Hi.
      * apply String.eqb_eq in Hi. subst i.
        rewrite String.eqb_sym, Hi'. reflexivity.
      * exact IH.
Qed.

Lemma getElementById_set_None (id id' value : string) (els : list (string * Answer)) :
  getElementById id (setAriaHidden id' value els) = None
  <-> getElementById id els = None.
Proof.
  rewrite getElementById_set.
  destruct (String.eqb id' id); [|reflexivity].
  destruct (getElementById id els); split; congruence.
Qed.

(** What one call of [handleCloseFAQ] does to the looked-up elements. *)
Lemma close_elements (k : nat) (pg : Page) (id : string) :
  getElementById id (elements (page (handleCloseFAQ k pg)))
  = match questions pg !! k with
    | Some q =>
        if String.eqb (idOf (ariaControls q)) id
        then match getElementById id (elements pg) with
             | Some _ => Some (mkAnswer (Some "true"%string))
             | None => None
             end
        else getElementById id (elements pg)
    | None => getElementById id (elements pg)
    end.
Proof.
  unfold handleCloseFAQ.
  destruct (questions pg !! k) as [q|]; [|reflexivity].
  destruct (getElementById (idOf (ariaControls q)) (elements pg)) eqn:Ha; simpl.
  - apply getElementById_set.
  - destruct (String.eqb (idOf (ariaControls q)) id) eqn:Hid; [|reflexivity].
    apply String.eqb_eq in Hid. subst id. rewrite Ha. reflexivity.
Qed.

Lemma open_elements (k : nat) (pg : Page) (id : string) :
  getElementById id (elements (page (handleOpenFAQ k pg)))
  = match questions pg !! k with
    | Some q =>
        if String.eqb (idOf (ariaControls q)) id
        then match getElementById id (elements pg) with
             | Some _ => Some (mkAnswer (Some "false"%string))
             | None => None
             end
        else getElementById id (elements pg)
    | None => getElementById id (elements pg)
    end.
Proof.
  unfold handleOpenFAQ.
  destruct (questions pg !! k) as [q|]; [|reflexivity].
  destruct (getElementById (idOf (ariaControls q)) (elements pg)) eqn:Ha; simpl.
  - destruct (spanText q); simpl; apply getElementById_set.
  - destruct (String.eqb (idOf (ariaControls q)) id) eqn:Hid; [|reflexivity].
    apply String.eqb_eq in Hid. subst id. rewrite Ha. reflexivity.
Qed.

Lemma close_Done (k : nat) (pg : Page) (q : Question) :
  questions pg !! k = Some q ->
  getElementById (idOf (ariaControls q)) (elements pg) <> None ->
  exists pg', handleCloseFAQ k pg = Done pg'.
Proof.
  intros Hq Ha. unfold handleCloseFAQ. rewrite Hq.
  destruct (getElementById _ _); [eauto | congruence].
Qed.

Lemma close_Threw (k : nat) (pg : Page) (q : Question) :
  questions pg !! k = Some q ->
  getElementById (idOf (ariaControls q)) (elements pg) = None ->
  exists pg', handleCloseFAQ k pg = Threw pg'.
Proof.
  intros Hq Ha. unfold handleCloseFAQ. rewrite Hq, Ha. eauto.
Qed.

Lemma sameWiring_refl (pg : Page) : sameWiring pg pg.
Proof. repeat split; auto. Qed.

Lemma sameWiring_trans (a b c : Page) :
  sameWiring a b -> sameWiring b c -> sameWiring a c.
Proof.
  intros (L1 & C1 & E1) (L2 & C2 & E2). repeat split.
  - congruence.
  - intros i. rewrite C2. apply C1.
  - intros H. apply E1, E2, H.
  - intros H. apply E2, E1, H.
Qed.

Lemma alter_controls (value : string) (k : nat) (qs : list Question) (i : nat) :
  ariaControls <$> alter (setAriaExpanded value) k qs !! i = ariaControls <$> qs !! i.
Proof.
  destruct (decide (k = i)) as [->|Hne].
  - rewrite list_lookup_alter_eq. destruct (qs !! i); reflexivity.
  - rewrite list_lookup_alter_ne by exact Hne. reflexivity.
Qed.

Lemma close_wiring (k : nat) (pg : Page) :
  sameWiring pg (page (handleCloseFAQ k pg)).
Proof.
  repeat split.
  - rewrite close_questions. apply length_alter.
  - intros i. rewrite close_questions. apply alter_controls.
  - rewrite close_elements. destruct (questions pg !! k); [|tauto].
    destruct (String.eqb _ _); [|tauto].
    destruct (getElementById id (elements pg)); congruence.
  - rewrite close_elements. destruct (questions pg !! k); [|tauto].
    destruct (String.eqb _ _); [|tauto].
    intros ->. reflexivity.
Qed.

Lemma open_wiring (k : nat) (pg : Page) :
  sameWiring pg (page (handleOpenFAQ k pg)).
Proof.
  repeat split.
  - rewrite open_questions. apply length_alter.
  - intros i. rewrite open_questions. apply alter_controls.
  - rewrite open_elements. destruct (questions pg !! k); [|tauto].
    destruct (String.eqb _ _); [|tauto].
    destruct (getElementById id (elements pg)); congruence.
  - rewrite open_elements. destruct (questions pg !! k); [|tauto].
    destruct (String.eqb _ _); [|tauto].
    intros ->. reflexivity.
Qed.

Lemma wiring_broken (pg pg' : Page) (j : nat) (q : Question) :
  sameWiring pg pg' ->
  questions pg !! j = Some q ->
  getElementById (idOf (ariaControls q)) (elements pg) = None ->
  exists q', questions pg' !! j = Some q' /\
    getElementById (idOf (ariaControls q')) (elements pg') = None.
Proof.
  intros (_ & C & E) Hq Ha. specialize (C j). rewrite Hq in C.
  destruct (questions pg' !! j) as [q'|]; [|discriminate].
  exists q'. split; [reflexivity|]. injection C as C. rewrite C. apply E, Ha.
Qed.

Lemma wired_wiring (pg pg' : Page) : sameWiring pg pg' -> wired pg -> wired pg'.
Proof.
  intros (_ & C & E) W j q' Hq' Ha. specialize (C j). rewrite Hq' in C.
  destruct (questions pg !! j) as [q|] eqn:Hq; [|discriminate].
  injection C as C. apply (W j q Hq). rewrite <- C. apply E, Ha.
Qed.

(** ** The loop that closes the other questions *)

Lemma closeOthers_wiring (k : nat) (all : list nat) (pg : Page) :
  sameWiring pg (page (closeOthers k all pg)).
Proof.
  revert pg. induction all as [|j all IH]; intros pg; simpl.
  - apply sameWiring_refl.
  - destruct (Nat.eqb j k); simpl; [apply IH|].
    pose proof (close_wiring j pg) as Hc.
    destruct (handleCloseFAQ j pg) as [p|p]; simpl in *.
    + eapply sameWiring_trans; [exact Hc | apply IH].
    + exact Hc.
Qed.

(** A question is left alone or gets [aria-expanded="false"]; the clicked one
    is left alone. *)
Lemma closeOthers_questions (k : nat) (all : list nat) (pg : Page) (i : nat) :
  let after := questions (page (closeOthers k all pg)) in
  (i = k -> after !! i = questions pg !! i) /\
  (after !! i = questions pg !! i \/
   after !! i = setAriaExpanded "false" <$> questions pg !! i).
Proof.
  revert pg. induction all as [|j all IH]; intros pg; simpl.
  - auto.
  - destruct (Nat.eqb j k) eqn:Hjk; simpl; [apply IH|].
    apply Nat.eqb_neq in Hjk.
    pose proof (close_questions j pg) as Hc.
    assert (Hstep : (i = k -> questions (page (handleCloseFAQ j pg)) !! i
                              = questions pg !! i) /\
                    (questions (page (handleCloseFAQ j pg)) !! i = questions pg !! i \/
                     questions (page (handleCloseFAQ j pg)) !! i
                     = setAriaExpanded "false" <$> questions pg !! i)).
    { rewrite Hc. destruct (decide (j = i)) as [->|Hne].
      - rewrite list_lookup_alter_eq. split; [congruence | auto].
      - rewrite list_lookup_alter_ne by exact Hne. auto. }
    destruct (handleCloseFAQ j pg) as [p|p]; simpl in *; [|exact Hstep].
    destruct (IH p) as [IHk IHi]. destruct Hstep as [Sk Si]. split.
    + intros ->. rewrite IHk by reflexivity. auto.
    + destruct IHi as [-> | ->]; destruct Si as [-> | ->]; auto.
      right. destruct (questions pg !! i); reflexivity.
Qed.

(** When the loop runs to its end, every other question it visited is
    collapsed. *)
Lemma closeOthers_closed (k : nat) (all : list nat) (pg pg' : Page) (i : nat) :
  closeOthers k all pg = Done pg' ->
  i ∈ all -> i <> k ->
  questions pg' !! i = setAriaExpanded "false" <$> questions pg !! i.
Proof.
  revert pg. induction all as [|j all IH]; intros pg Hdone Hin Hik.
  - inversion Hin.
  - simpl in Hdone.
    destruct (Nat.eqb j k) eqn:Hjk; simpl in Hdone.
    + apply Nat.eqb_eq in Hjk. subst j.
      apply elem_of_cons in Hin as [->|Hin]; [congruence|].
      apply IH; assumption.
    + pose proof (close_questions j pg) as Hc.
      destruct (handleCloseFAQ j pg) as [p|p] eqn:Hj; simpl in *; [|discriminate].
      destruct (decide (i ∈ all)) as [Hall|Hall].
      * rewrite (IH p Hdone Hall Hik), Hc.
        destruct (decide (j = i)) as [->|Hne].
        -- rewrite list_lookup_alter_eq. destruct (questions pg !! i); reflexivity.
        -- rewrite list_lookup_alter_ne by exact Hne. reflexivity.
      * apply elem_of_cons in Hin as [->|Hin]; [|contradiction].
        destruct (closeOthers_questions k all p j) as [_ Hkeep].
        rewrite Hdone in Hkeep. simpl in Hkeep. rewrite Hc in Hkeep.
        rewrite list_lookup_alter_eq in Hkeep.
        destruct Hkeep as [-> | ->]; [reflexivity|].
        destruct (questions pg !! j); reflexivity.
Qed.

Lemma closeOthers_Threw (k : nat) (all : list nat) (pg : Page) (j : nat) (q : Question) :
  j ∈ all -> j <> k ->
  questions pg !! j = Some q ->
  getElementById (idOf (ariaControls q)) (elements pg) = None ->
  exists pg', closeOthers k all pg = Threw pg'.
Proof.
  revert pg q. induction all as [|i all IH]; intros pg q Hin Hjk Hq Ha.
  - inversion Hin.
  - simpl. destruct (Nat.eqb i k) eqn:Hik; simpl.
    + apply Nat.eqb_eq in Hik. subst i.
      apply elem_of_cons in Hin as [->|Hin]; [congruence|].
      eapply IH; eassumption.
    + destruct (decide (i = j)) as [->|Hne].
      * destruct (close_Threw j pg q Hq Ha) as [p ->]. simpl. eauto.
      * apply elem_of_cons in Hin as [->|Hin]; [congruence|].
        pose proof (close_wiring i pg) as Hw.
        destruct (handleCloseFAQ i pg) as [p|p]; simpl in *; [|eauto].
        destruct (wiring_broken _ _ _ _ Hw Hq Ha) as (q' & Hq' & Ha').
        eapply IH; eassumption.
Qed.

Lemma closeOthers_Done (k : nat) (all : list nat) (pg : Page) :
  wired pg ->
  Forall (fun j => j < length (questions pg)) all ->
  exists pg', closeOthers k all pg = Done pg'.
Proof.
  revert pg. induction all as [|i all IH]; intros pg W Hall; simpl.
  - eauto.
  - inversion Hall as [|? ? Hi Hrest]; subst.
    destruct (Nat.eqb i k); simpl; [apply IH; assumption|].
    destruct (lookup_lt_is_Some_2 _ _ Hi) as [q Hq].
    pose proof (close_wiring i pg) as Hw.
    destruct (close_Done i pg q Hq (W i q Hq)) as [p Hp].
    rewrite Hp in *. simpl in *. apply IH.
    + eapply wired_wiring; eassumption.
    + destruct Hw as (-> & _). exact Hrest.
Qed.

(** Elements after the loop: those of the closed questions are hidden, the
    others are as before. *)
Lemma closeOthers_elements (k : nat) (all : list nat) (pg pg' : Page) (id : string) :
  closeOthers k all pg = Done pg' ->
  getElementById id (elements pg') = getElementById id (elements pg) \/
  (getElementById id (elements pg') = Some (mkAnswer (Some "true"%string)) /\
   exists i q, i ∈ all /\ i <> k /\ questions pg !! i = Some q /\
               idOf (ariaControls q) = id).
Proof.
  revert pg. induction all as [|j all IH]; intros pg Hdone; simpl in Hdone.
  - injection Hdone as ->. auto.
  - destruct (Nat.eqb j k) eqn:Hjk; simpl in Hdone.
    + destruct (IH pg Hdone) as [H | (H & i & q & Hin & Hik & Hq & Hid)]; [auto|].
      right. split; [exact H|]. exists i, q. rewrite elem_of_cons. auto.
    + apply Nat.eqb_neq in Hjk.
      pose proof (close_elements j pg id) as He.
      pose proof (close_wiring j pg) as Hw.
      destruct (handleCloseFAQ j pg) as [p|p]; simpl in *; [|discriminate].
      destruct (IH p Hdone) as [H | (H & i & q & Hin & Hik & Hq & Hid)].
      * rewrite H, He. destruct (questions pg !! j) as [q|] eqn:Hq; [|auto].
        destruct (String.eqb (idOf (ariaControls q)) id) eqn:Hid; [|auto].
        apply String.eqb_eq in Hid.
        destruct (getElementById id (elements pg)); [|auto].
        right. split; [reflexivity|]. exists j, q. rewrite elem_of_cons. auto.
      * right. split; [exact H|].
        destruct Hw as (_ & C & _). specialize (C i). rewrite Hq in C.
        destruct (questions pg !! i) as [q0|] eqn:Hq0; [|discriminate].
        injection C as C. exists i, q0. rewrite elem_of_cons.
        repeat split; auto. congruence.
Qed.

Lemma closeOthers_hidden (k : nat) (all : list nat) (pg pg' : Page) (i : nat) (q : Question) :
  wired pg ->
  closeOthers k all pg = Done pg' ->
  i ∈ all -> i <> k ->
  questions pg !! i = Some q ->
  getElementById (idOf (ariaControls q)) (elements pg')
  = Some (mkAnswer (Some "true"%string)).
Proof.
  revert pg q. induction all as [|j all IH]; intros pg q W Hdone Hin Hik Hq.
  - inversion Hin.
  - simpl in Hdone. destruct (Nat.eqb j k) eqn:Hjk; simpl in Hdone.
    + apply Nat.eqb_eq in Hjk. subst j.
      apply elem_of_cons in Hin as [->|Hin]; [congruence|].
      eapply IH; eassumption.
    + pose proof (close_elements j pg (idOf (ariaControls q))) as He.
      pose proof (close_wiring j pg) as Hw.
      destruct (handleCloseFAQ j pg) as [p|p] eqn:Hj; simpl in *; [|discriminate].
      assert (Wp : wired p) by (eapply wired_wiring; eassumption).
      destruct Hw as (_ & C & _).
      destruct (decide (i ∈ all)) as [Hall|Hall].
      * specialize (C i). rewrite Hq in C.
        destruct (questions p !! i) as [q'|] eqn:Hq'; [|discriminate].
        injection C as C. rewrite <- C. eapply IH; eassumption.
      * apply elem_of_cons in Hin as [->|Hin]; [|contradiction].
        rewrite Hq, String.eqb_refl in He.
        destruct (getElementById (idOf (ariaControls q)) (elements pg)) eqn:Ha;
          [|exfalso; exact (W j q Hq Ha)].
        destruct (closeOthers_elements k all p pg' (idOf (ariaControls q)) Hdone)
          as [-> | [H _]]; assumption.
Qed.

(** ** Properties of a click *)

Lemma expanded_after (value : string) (q : Question) :
  isExpanded (setAriaExpanded value q) = String.eqb value "true".
Proof. reflexivity. Qed.

Lemma toggle_wiring (k : nat) (pg : Page) :
  sameWiring pg (page (handleToggleFAQ k pg)).
Proof.
  unfold handleToggleFAQ.
  pose proof (closeOthers_wiring k (seq 0 (length (questions pg))) pg) as Hw.
  destruct (closeOthers k _ pg) as [p|p]; simpl in *; [|exact Hw].
  eapply sameWiring_trans; [exact Hw|].
  destruct (match questions pg !! k with Some q => isExpanded q | None => false end).
  - apply close_wiring.
  - apply open_wiring.
Qed.

Lemma toggle_Done_wired (pg pg' : Page) (k : nat) (q : Question) :
  questions pg !! k = Some q ->
  handleToggleFAQ k pg = Done pg' ->
  wired pg.
Proof.
  intros Hq Hdone j qj Hqj Ha. unfold handleToggleFAQ in Hdone.
  destruct (decide (j = k)) as [->|Hjk].
  - pose proof (closeOthers_wiring k (seq 0 (length (questions pg))) pg) as Hw.
    destruct (closeOthers k _ pg) as [p|p]; simpl in *; [|discriminate].
    destruct (wiring_broken _ _ _ _ Hw Hqj Ha) as (q' & Hq' & Ha').
    destruct (match questions pg !! k with Some q => isExpanded q | None => false end).
    + unfold handleCloseFAQ in Hdone. rewrite Hq', Ha' in Hdone. discriminate.
    + unfold handleOpenFAQ in Hdone. rewrite Hq', Ha' in Hdone. discriminate.
  - destruct (closeOthers_Threw k (seq 0 (length (questions pg))) pg j qj) as [p Hp];
      try assumption.
    + apply elem_of_seq. split; [lia|]. simpl. apply lookup_lt_is_Some_1. eauto.
    + rewrite Hp in Hdone. discriminate.
Qed.

(** The questions after a click that ran to its end. *)
Lemma toggle_questions (pg pg' : Page) (k : nat) (q : Question) :
  questions pg !! k = Some q ->
  handleToggleFAQ k pg = Done pg' ->
  forall j,
    questions pg' !! j
    = setAriaExpanded (if Nat.eqb j k && negb (isExpanded q) then "true" else "false")
        <$> questions pg !! j.
Proof.
  intros Hq Hdone j. unfold handleToggleFAQ in Hdone. rewrite Hq in Hdone.
  destruct (closeOthers k (seq 0 (length (questions pg))) pg) as [p|p] eqn:Hloop;
    simpl in Hdone; [|discriminate].
  pose proof (closeOthers_wiring k (seq 0 (length (questions pg))) pg) as Hw.
  pose proof (closeOthers_questions k (seq 0 (length (questions pg))) pg k) as [Hk _].
  rewrite Hloop in Hw, Hk. simpl in Hw, Hk. specialize (Hk eq_refl).
  assert (Hafter : questions pg'
                   = alter (setAriaExpanded (if isExpanded q then "false" else "true"))
                           k (questions p)).
  { destruct (isExpanded q).
    - rewrite <- close_questions, Hdone. reflexivity.
    - rewrite <- open_questions, Hdone. reflexivity. }
  rewrite Hafter.
  destruct (decide (k = j)) as [<-|Hne].
  - rewrite list_lookup_alter_eq, Hk, Hq, Nat.eqb_refl. simpl.
    destruct (isExpanded q); reflexivity.
  - rewrite list_lookup_alter_ne by exact Hne.
    replace (Nat.eqb j k) with false by (symmetry; apply Nat.eqb_neq; congruence).
    simpl. destruct (questions pg !! j) as [qj|] eqn:Hqj.
    + rewrite <- Hqj. apply (closeOthers_closed k _ pg p j Hloop); [|congruence].
      apply elem_of_seq. split; [lia|]. simpl. apply lookup_lt_is_Some_1. eauto.
    + destruct Hw as (Hlen & _). apply lookup_ge_None. rewrite Hlen.
      apply lookup_ge_None. exact Hqj.
Qed.

(** X9.  After a click that ran to its end, the clicked question is expanded
    exactly when it was not before, and every other question is collapsed:
    at most one question is ever expanded. *)
Theorem click_leaves_at_most_one_open (pg pg' : Page) (k : nat) (q : Question) :
  questions pg !! k = Some q ->
  handleToggleFAQ k pg = Done pg' ->
  length (questions pg') = length (questions pg) /\
  forall j q', questions pg' !! j = Some q' ->
    ariaExpanded q'
    = Some (if Nat.eqb j k && negb (isExpanded q) then "true" else "false")%string.
Proof.
  intros Hq Hdone. split.
  - pose proof (toggle_wiring k pg) as Hw. rewrite Hdone in Hw. apply Hw.
  - intros j q' Hq'. rewrite (toggle_questions pg pg' k q Hq Hdone j) in Hq'.
    destruct (questions pg !! j) as [qj|]; [|discriminate].
    injection Hq' as <-. reflexivity.
Qed.

(** X10.  A question whose [aria-controls] names no element makes every other
    question unopenable: whatever is clicked, a question that is collapsed
    stays collapsed. *)
Theorem dangling_question_blocks_the_others
  (pg : Page) (j k : nat) (qj qk : Question) (ks : list nat) :
  questions pg !! j = Some qj ->
  getElementById (idOf (ariaControls qj)) (elements pg) = None ->
  k <> j ->
  questions pg !! k = Some qk ->
  isExpanded qk = false ->
  exists qk', questions (clicks ks pg) !! k = Some qk' /\ isExpanded qk' = false.
Proof.
  revert pg qj qk. induction ks as [|m ks IH]; intros pg qj qk Hqj Ha Hkj Hqk Hex.
  - exists qk. auto.
  - change (clicks (m :: ks) pg) with (clicks ks (click pg m)). unfold click.
    pose proof (toggle_wiring m pg) as Hw.
    destruct (wiring_broken _ _ _ _ Hw Hqj Ha) as (qj' & Hqj' & Ha').
    assert (Hk : exists qk', questions (page (handleToggleFAQ m pg)) !! k = Some qk'
                             /\ isExpanded qk' = false).
    { unfold handleToggleFAQ.
      pose proof (closeOthers_questions m (seq 0 (length (questions pg))) pg k)
        as [_ Hkeep].
      assert (Hloop : forall p, p = page (closeOthers m (seq 0 (length (questions pg))) pg) ->
                exists qk', questions p !! k = Some qk' /\ isExpanded qk' = false).
      { intros p ->. simpl in Hkeep. rewrite Hqk in Hkeep.
        destruct Hkeep as [-> | ->]; eauto. }
      destruct (closeOthers m _ pg) as [p|p] eqn:Hp; simpl; [|apply Hloop; reflexivity].
      destruct (decide (m = j)) as [->|Hmj].
      - destruct (Hloop p eq_refl) as (qk' & Hqk' & Hex').
        exists qk'. split; [|exact Hex'].
        destruct (match questions pg !! j with Some q => isExpanded q | None => false end).
        + rewrite close_questions, list_lookup_alter_ne by congruence. exact Hqk'.
        + rewrite open_questions, list_lookup_alter_ne by congruence. exact Hqk'.
      - destruct (closeOthers_Threw m (seq 0 (length (questions pg))) pg j qj)
          as [p' Hp']; try assumption; try congruence.
        apply elem_of_seq. split; [lia|]. simpl. apply lookup_lt_is_Some_1. eauto. }
    destruct Hk as (qk' & Hqk' & Hex').
    eapply IH; eassumption.
Qed.

(** X11.  When every question names an element of the page, a click runs to
    its end provided the clicked question holds a [span] to announce, or is
    being collapsed; the page stays wired. *)
Theorem wired_click_completes (pg : Page) (k : nat) (q : Question) :
  wired pg ->
  questions pg !! k = Some q ->
  isExpanded q = true \/ spanText q <> None ->
  exists pg', handleToggleFAQ k pg = Done pg' /\ wired pg'.
Proof.
  intros W Hq Hspan.
  pose proof (toggle_wiring k pg) as Hw.
  assert (Hdone : exists pg', handleToggleFAQ k pg = Done pg').
  { unfold handleToggleFAQ. rewrite Hq.
    destruct (closeOthers_Done k (seq 0 (length (questions pg))) pg W) as [p Hp].
    { apply Forall_forall. intros i Hi. apply elem_of_seq in Hi. lia. }
    pose proof (closeOthers_wiring k (seq 0 (length (questions pg))) pg) as Hwp.
    pose proof (closeOthers_questions k (seq 0 (length (questions pg))) pg k) as [Hk _].
    rewrite Hp in *. simpl in *. specialize (Hk eq_refl). rewrite Hq in Hk.
    assert (Wp : wired p) by (eapply wired_wiring; eassumption).
    destruct (isExpanded q) eqn:Hex.
    - eapply close_Done; [exact Hk | apply (Wp k q Hk)].
    - unfold handleOpenFAQ. rewrite Hk.
      destruct (getElementById _ _) eqn:Ha; [|exfalso; exact (Wp k q Hk Ha)].
      destruct Hspan as [?|Hspan]; [discriminate|].
      destruct (spanText q); [eauto | congruence]. }
  destruct Hdone as [pg' Hdone]. exists pg'. split; [exact Hdone|].
  rewrite Hdone in Hw. eapply wired_wiring; eassumption.
Qed.

(** X12.  After a click that ran to its end, and when no other question
    controls the element of the clicked one, every answer's [aria-hidden] is
    the opposite of its question's [aria-expanded]. *)
Theorem answers_mirror_questions (pg pg' : Page) (k : nat) (q : Question) :
  questions pg !! k = Some q ->
  (forall i qi, questions pg !! i = Some qi -> i <> k ->
     idOf (ariaControls qi) <> idOf (ariaControls q)) ->
  handleToggleFAQ k pg = Done pg' ->
  forall j q', questions pg' !! j = Some q' ->
    getElementById (idOf (ariaControls q')) (elements pg')
    = Some (mkAnswer (Some (if isExpanded q' then "false" else "true")%string)).
Proof.
  intros Hq Hdistinct Hdone j q' Hq'.
  pose proof (toggle_Done_wired pg pg' k q Hq Hdone) as W.
  pose proof (toggle_wiring k pg) as Hw. rewrite Hdone in Hw. simpl in Hw.
  destruct Hw as (_ & C & _). specialize (C j). rewrite Hq' in C.
  destruct (questions pg !! j) as [qj|] eqn:Hqj; [|discriminate].
  injection C as C.
  assert (Hj : j < length (questions pg)) by (apply lookup_lt_is_Some_1; eauto).
  assert (Hexp : ariaExpanded q'
                 = Some (if Nat.eqb j k && negb (isExpanded q)
                         then "true" else "false")%string).
  { pose proof (toggle_questions pg pg' k q Hq Hdone j) as Hlookup.
    rewrite Hq', Hqj in Hlookup. injection Hlookup as ->. reflexivity. }
  unfold isExpanded at 1. rewrite Hexp, C.
  unfold handleToggleFAQ in Hdone. rewrite Hq in Hdone.
  destruct (closeOthers k (seq 0 (length (questions pg))) pg) as [p|p] eqn:Hloop;
    simpl in Hdone; [|discriminate].
  pose proof (closeOthers_questions k (seq 0 (length (questions pg))) pg k) as [Hk _].
  rewrite Hloop in Hk. simpl in Hk. specialize (Hk eq_refl). rewrite Hq in Hk.
  pose proof (closeOthers_wiring k (seq 0 (length (questions pg))) pg) as Hwp.
  rewrite Hloop in Hwp. simpl in Hwp.
  assert (Wp : wired p) by (eapply wired_wiring; eassumption).
  assert (Hel : getElementById (idOf (ariaControls qj)) (elements pg')
                = if String.eqb (idOf (ariaControls q)) (idOf (ariaControls qj))
                  then Some (mkAnswer (Some (if isExpanded q then "true" else "false")%string))
                  else getElementById (idOf (ariaControls qj)) (elements p)).
  { destruct (isExpanded q).
    - pose proof (close_elements k p (idOf (ariaControls qj))) as He.
      rewrite Hdone, Hk in He. simpl in He. rewrite He. clear He.
      destruct (String.eqb _ _) eqn:Hid; [|reflexivity].
      apply String.eqb_eq in Hid. rewrite <- Hid.
      destruct (getElementById (idOf (ariaControls q)) (elements p)) eqn:Ha;
        [reflexivity | exfalso; exact (Wp k q Hk Ha)].
    - pose proof (open_elements k p (idOf (ariaControls qj))) as He.
      rewrite Hdone, Hk in He. simpl in He. rewrite He. clear He.
      destruct (String.eqb _ _) eqn:Hid; [|reflexivity].
      apply String.eqb_eq in Hid. rewrite <- Hid.
      destruct (getElementById (idOf (ariaControls q)) (elements p)) eqn:Ha;
        [reflexivity | exfalso; exact (Wp k q Hk Ha)]. }
  rewrite Hel.
  destruct (decide (j = k)) as [->|Hjk].
  - rewrite Hq in Hqj. injection Hqj as <-.
    rewrite String.eqb_refl, Nat.eqb_refl. simpl.
    destruct (isExpanded q); reflexivity.
  - replace (Nat.eqb j k) with false by (symmetry; apply Nat.eqb_neq; exact Hjk).
    simpl.
    replace (String.eqb (idOf (ariaControls q)) (idOf (ariaControls qj))) with false.
    + apply (closeOthers_hidden k (seq 0 (length (questions pg))) pg p j qj W Hloop);
        [apply elem_of_seq; lia | exact Hjk | exact Hqj].
    + symmetry. apply String.eqb_neq. intros Heq.
      exact (Hdistinct j qj Hqj Hjk (eq_sym Heq)).
Qed.

(** On the sample page a click on the first question opens it and closes
    the second. *)
Lemma click_leaves_at_most_one_open_witness :
  length (questions (click sample 0)) = length (questions sample) /\
  forall j q', questions (click sample 0) !! j = Some q' ->
    ariaExpanded q' = Some (if Nat.eqb j 0 && negb false then "true" else "false")%string.
Proof.
  exact (click_leaves_at_most_one_open sample (click sample 0) 0
           (mkQuestion (Some "false") (Some "faq-answer-1") true
              (Some "What is Codless?"))%string
           eq_refl eq_refl).
Defined.

(** On the page with the dangling third question, the first question stays
    collapsed however often it is clicked. *)
Lemma dangling_question_blocks_the_others_witness :
  exists q, questions (clicks [0; 1; 0] dangling) !! 0 = Some q /\ isExpanded q = false.
Proof.
  refine (dangling_question_blocks_the_others dangling 2 0
            (mkQuestion None (Some "faq-answer-9") false (Some "What does it cost?"))%string
            (mkQuestion (Some "false") (Some "faq-answer-1") true
               (Some "What is Codless?"))%string
            [0; 1; 0] eq_refl eq_refl _ eq_refl eq_refl).
  lia.
Defined.

(** Every question of the sample page names an element. *)
Lemma sample_wired : wired sample.
Proof.
  intros [|[|[|j]]] q Hq; simpl in Hq; try discriminate;
    injection Hq as <-; vm_compute; discriminate.
Defined.

Lemma wired_click_completes_witness :
  exists pg', handleToggleFAQ 2 sample = Done pg' /\ wired pg'.
Proof.
  refine (wired_click_completes sample 2
            (mkQuestion None (Some "faq-answer-3") false (Some "What does it cost?"))%string
            sample_wired eq_refl _).
  right. discriminate.
Defined.

(** After the click on the first question of the sample page, the answer
    of the second question, which the click collapsed, is hidden. *)
Lemma answers_mirror_questions_witness :
  getElementById "faq-answer-2" (elements (click sample 0))
  = Some (mkAnswer (Some "true"%string)).
Proof.
  refine (answers_mirror_questions sample (click sample 0) 0
            (mkQuestion (Some "false") (Some "faq-answer-1") true
               (Some "What is Codless?"))%string
            eq_refl _ eq_refl 1
            (mkQuestion (Some "false") (Some "faq-answer-2") true
               (Some "How long does it take?"))%string
            eq_refl).
  intros [|[|[|i]]] qi Hqi Hi; simpl in Hqi; try discriminate; try lia;
    injection Hqi as <-; vm_compute; discriminate.
Defined.

End FAQFacts.

(* ===================================================================== *)
(** * Properties of the navbar that hides on scroll *)

Module NavbarFacts.

Import NavbarScrollBehavior.

Lemma showNavbar_step (st : State) :
  showNavbar st = st \/
  exists n, navbar (showNavbar st) = Some n /\ inSync n.
Proof.
  unfold showNavbar. destruct (navbar st) as [n|]; [|auto].
  destruct (navbarHidden n); [|auto].
  right. eexists. split; reflexivity.
Qed.

Lemma hideNavbar_step (st : State) :
  hideNavbar st = st \/
  exists n, navbar (hideNavbar st) = Some n /\ inSync n.
Proof.
  unfold hideNavbar. destruct (navbar st) as [n|]; [|auto].
  destruct (navbarHidden n); [auto|].
  right. eexists. split; reflexivity.
Qed.

Lemma handleScrollUpdate_step (st : State) (self : Self) :
  handleScrollUpdate st self = st \/
  exists n, navbar (handleScrollUpdate st self) = Some n /\ inSync n.
Proof.
  unfold handleScrollUpdate.
  destruct (negb (isInitialized st)); [auto|].
  destruct (_ && _); [apply hideNavbar_step|].
  destruct (_ || _); [apply showNavbar_step | auto].
Qed.

(** X13.  Whatever the scroll updates, the navbar is either exactly as it was
    found, or its [aria-hidden] says what its class [navbar-hidden] says. *)
Theorem navbar_aria_follows_class (selves : list Self) (st : State) :
  navbar (updates selves st) = navbar st \/
  exists n, navbar (updates selves st) = Some n /\ inSync n.
Proof.
  revert st. induction selves as [|self selves IH]; intros st; [auto|].
  change (updates (self :: selves) st)
    with (updates selves (handleScrollUpdate st self)).
  destruct (handleScrollUpdate_step st self) as [-> | (n & Hn & Hsync)]; [apply IH|].
  destruct (IH (handleScrollUpdate st self)) as [Hsame | Hnew]; [|auto].
  right. exists n. rewrite Hsame. auto.
Qed.

(** X14.  Once initialised, an update at a scroll position of at most 150
    always leaves the navbar shown, whatever the direction and whatever
    happened before; and the navbar is hidden after an update only if it was
    hidden before or the update scrolls down past 150. *)
Theorem navbar_shown_near_top (st : State) (self : Self) (n : Navbar) :
  isInitialized st = true ->
  navbar st = Some n ->
  ((scroll self <=? 150)%float = true ->
   shown (handleScrollUpdate st self) = true) /\
  (shown (handleScrollUpdate st self) = false ->
   navbarHidden n = true
   \/ (JS.strict_eq (direction self) 1 = true /\ (150 <? scroll self)%float = true)).
Proof.
  intros Hinit Hn. unfold handleScrollUpdate, shown, JS.gt, scrollThreshold.
  rewrite Hinit. simpl negb. cbv iota. split.
  - intros Htop. rewrite (OrderFacts.leb_not_gt _ _ Htop), Htop.
    rewrite andb_false_r, orb_true_r.
    unfold showNavbar. rewrite Hn. destruct (navbarHidden n) eqn:Hh; simpl.
    + reflexivity.
    + rewrite Hn. simpl. rewrite Hh. reflexivity.
  - destruct (JS.strict_eq (direction self) 1); simpl.
    + destruct (150 <? scroll self)%float; [auto|].
      destruct (_ || _).
      * unfold showNavbar. rewrite Hn. destruct (navbarHidden n) eqn:Hh; simpl;
          [auto|]. rewrite Hn. simpl. rewrite Hh. discriminate.
      * rewrite Hn. destruct (navbarHidden n); [auto | discriminate].
    + destruct (_ || _).
      * unfold showNavbar. rewrite Hn. destruct (navbarHidden n) eqn:Hh; simpl;
          [auto|]. rewrite Hn. simpl. rewrite Hh. discriminate.
      * rewrite Hn. destruct (navbarHidden n); [auto | discriminate].
Qed.

(** A hidden navbar and an update that still moves down, at 120 from the
    top. *)
Lemma navbar_shown_near_top_witness :
  let st := mkState (Some (mkNavbar true None)) true in
  let self := mkSelf 120 1 in
  ((scroll self <=? 150)%float = true ->
   shown (handleScrollUpdate st self) = true) /\
  (shown (handleScrollUpdate st self) = false ->
   navbarHidden (mkNavbar true None) = true
   \/ (JS.strict_eq (direction self) 1 = true /\ (150 <? scroll self)%float = true)).
Proof.
  exact (navbar_shown_near_top (mkState (Some (mkNavbar true None)) true)
           (mkSelf 120 1) (mkNavbar true None) eq_refl eq_refl).
Defined.

End NavbarFacts.

(* ===================================================================== *)
(** * Properties of the menus *)

Module NavigationFacts.

Import Navigation.

Lemma close_inSync (st : State) : inSync (handleCloseMobileMenu st).
Proof.
  unfold inSync, handleCloseMobileMenu. simpl. split; [reflexivity|].
  intros l. destruct (navbarList st); congruence.
Qed.

Lemma open_inSync (st : State) : inSync (handleOpenMobileMenu st).
Proof.
  unfold inSync, handleOpenMobileMenu.
  destruct (0 <? navbarTabs _)%nat; simpl; (split; [reflexivity|]);
    intros l; destruct (navbarList st); congruence.
Qed.

Lemma set_focus_inSync (f : Focus) (st : State) : inSync st -> inSync (set_focus f st).
Proof. intros H. exact H. Qed.

Lemma focusTab_inSync (i : Z) (st : State) : inSync st -> inSync (focusTab i st).
Proof. intros H. unfold focusTab. destruct (_ && _); exact H. Qed.

Lemma tabKeydown_inSync (index : nat) (key : string) (st : State) :
  inSync st -> inSync (tabKeydown index key st).
Proof.
  intros H. unfold tabKeydown.
  destruct (isArrowForward key); [apply focusTab_inSync, H|].
  destruct (isArrowBackward key); [apply focusTab_inSync, H | exact H].
Qed.

Lemma documentClick_inSync (inNavbar : bool) (st : State) :
  inSync st -> inSync (documentClick inNavbar st).
Proof.
  intros H. unfold documentClick. destruct (_ && _); [apply close_inSync | exact H].
Qed.

Lemma toggle_inSync (st : State) : inSync (handleToggleMobileMenu st).
Proof.
  unfold handleToggleMobileMenu. destruct (isActive st);
    [apply close_inSync | apply open_inSync].
Qed.

Lemma handle_inSync (st : State) (e : Event) : inSync st -> inSync (handle st e).
Proof.
  intros H. destruct e as [|index inNavbar|inNavbar|onTab key]; simpl.
  - destruct (hamburger st); [|exact H].
    apply documentClick_inSync, toggle_inSync.
  - destruct (hamburger st); [|exact H].
    destruct (index <? navbarTabs st)%nat; [|exact H].
    apply documentClick_inSync, close_inSync.
  - destruct (hamburger st) eqn:Hh; [|exact H].
    apply documentClick_inSync, H.
  - set (st1 := match onTab with
                | Some index => if (index <? navbarTabs st)%nat
                                then tabKeydown index key st else st
                | None => st
                end).
    assert (H1 : inSync st1).
    { unfold st1. destruct onTab as [index|]; [|exact H].
      destruct (index <? navbarTabs st)%nat; [apply tabKeydown_inSync, H | exact H]. }
    destruct (hamburger st1); [|exact H1].
    unfold documentKeydown. destruct (String.eqb key "Escape"); [|exact H1].
    apply set_focus_inSync, close_inSync.
Qed.

Lemma run_inSync (events : list Event) (st : State) :
  inSync st -> inSync (run events st).
Proof.
  revert st. induction events as [|e events IH]; intros st H; [exact H|].
  apply (IH (handle st e)), handle_inSync, H.
Qed.

(** X15.  Once the hamburger's [aria-expanded] and the list's class agree with
    the hamburger's class [active], they agree after every sequence of
    clicks and key presses; and after a click on the hamburger they agree
    whatever they were before, and keep agreeing. *)
Theorem mobile_menu_stays_in_sync (events : list Event) (st : State) :
  (inSync st -> inSync (run events st))
  /\ inSync (run events (handle st HamburgerClick)).
Proof.
  split; [apply run_inSync|].
  apply run_inSync. simpl.
  destruct (hamburger st) eqn:Hh.
  - apply documentClick_inSync, toggle_inSync.
  - unfold inSync. rewrite Hh. exact I.
Qed.

Lemma closed_stays_closed (st : State) (e : Event) :
  hamburgerInNavbar st = false -> isActive st = false ->
  hamburgerInNavbar (handle st e) = false /\ isActive (handle st e) = false.
Proof.
  intros Hout Hclosed.
  destruct e as [|index inNavbar|inNavbar|onTab key]; simpl.
  - destruct (hamburger st) eqn:Hh; [|auto].
    unfold handleToggleMobileMenu. rewrite Hclosed.
    unfold documentClick, handleOpenMobileMenu.
    destruct (0 <? navbarTabs _)%nat; simpl; rewrite Hout; simpl; auto.
  - destruct (hamburger st) eqn:Hh; [|auto].
    destruct (index <? navbarTabs st)%nat; [|auto].
    unfold documentClick. simpl. rewrite andb_false_r. simpl. auto.
  - destruct (hamburger st) eqn:Hh; [|auto].
    unfold documentClick. rewrite Hclosed, andb_false_r. auto.
  - set (st1 := match onTab with
                | Some index => if (index <? navbarTabs st)%nat
                                then tabKeydown index key st else st
                | None => st
                end).
    assert (H1 : hamburgerInNavbar st1 = false /\ isActive st1 = false).
    { unfold st1. destruct onTab as [index|]; [|auto].
      destruct (index <? navbarTabs st)%nat; [|auto].
      unfold tabKeydown, focusTab.
      destruct (isArrowForward key); [destruct (_ && _); auto|].
      destruct (isArrowBackward key); [destruct (_ && _); auto | auto]. }
    destruct (hamburger st1); [|exact H1].
    unfold documentKeydown. destruct (String.eqb key "Escape"); [|exact H1].
    simpl. tauto.
Qed.

(** X16.  The listener on [document] closes the menu on every click whose
    target is outside [.navbar], and the click on the hamburger bubbles to
    it: with a hamburger that is not inside [.navbar], no sequence of
    clicks and key presses ever leaves the menu open. *)
Theorem hamburger_outside_navbar_never_opens (events : list Event) (st : State) :
  hamburgerInNavbar st = false ->
  isActive st = false ->
  isActive (run events st) = false.
Proof.
  revert st. induction events as [|e events IH]; intros st Hout Hclosed;
    [exact Hclosed|].
  destruct (closed_stays_closed st e Hout Hclosed) as [Hout' Hclosed'].
  exact (IH (handle st e) Hout' Hclosed').
Qed.

Lemma nextIndex_mod (i n : nat) :
  (i < n)%nat -> nextIndex (Z.of_nat i) (Z.of_nat n) = Z.of_nat ((i + 1) mod n).
Proof.
  intros Hi. unfold nextIndex. rewrite Z.rem_mod_nonneg by lia.
  rewrite Nat2Z.inj_mod. f_equal. lia.
Qed.

Lemma prevIndex_mod (i n : nat) :
  (i < n)%nat -> prevIndex (Z.of_nat i) (Z.of_nat n) = Z.of_nat ((i + n - 1) mod n).
Proof.
  intros Hi. unfold prevIndex. rewrite Z.rem_mod_nonneg by lia.
  rewrite Nat2Z.inj_mod. f_equal. lia.
Qed.

Lemma focusTab_in_range (i : nat) (st : State) :
  (i < navbarTabs st)%nat -> focusTab (Z.of_nat i) st = set_focus (OnTab i) st.
Proof.
  intros Hi. unfold focusTab.
  replace ((0 <=? Z.of_nat i)%Z && (Z.of_nat i <? Z.of_nat (navbarTabs st))%Z) with true.
  - rewrite Nat2Z.id. reflexivity.
  - symmetry. apply andb_true_iff. split; [apply Z.leb_le | apply Z.ltb_lt]; lia.
Qed.

Lemma keydown_forward (st : State) (i : nat) :
  (i < navbarTabs st)%nat ->
  handle st (Keydown (Some i) "ArrowRight")
  = set_focus (OnTab ((i + 1) mod navbarTabs st)) st.
Proof.
  intros Hi. simpl. apply Nat.ltb_lt in Hi as Hlt. rewrite Hlt.
  unfold tabKeydown. simpl isArrowForward. cbv iota.
  rewrite nextIndex_mod by exact Hi.
  rewrite focusTab_in_range by (apply Nat.mod_upper_bound; lia).
  simpl. destruct (hamburger st); reflexivity.
Qed.

Lemma keydown_backward (st : State) (i : nat) :
  (i < navbarTabs st)%nat ->
  handle st (Keydown (Some i) "ArrowLeft")
  = set_focus (OnTab ((i + navbarTabs st - 1) mod navbarTabs st)) st.
Proof.
  intros Hi. simpl. apply Nat.ltb_lt in Hi as Hlt. rewrite Hlt.
  unfold tabKeydown. simpl isArrowForward. simpl isArrowBackward. cbv iota.
  rewrite prevIndex_mod by exact Hi.
  rewrite focusTab_in_range by (apply Nat.mod_upper_bound; lia).
  simpl. destruct (hamburger st); reflexivity.
Qed.

Lemma mod_forward_backward (i n : nat) :
  (i < n)%nat -> (((i + 1) mod n + n - 1) mod n = i)%nat.
Proof.
  intros Hi. destruct (decide (i + 1 = n)%nat) as [Heq|Hne].
  - rewrite Heq, Nat.Div0.mod_same. simpl. rewrite Nat.mod_small by lia. lia.
  - rewrite (Nat.mod_small (i + 1)) by lia.
    replace (i + 1 + n - 1)%nat with (i + 1 * n)%nat by lia.
    rewrite Nat.Div0.mod_add. apply Nat.mod_small. exact Hi.
Qed.

Lemma mod_backward_forward (i n : nat) :
  (i < n)%nat -> (((i + n - 1) mod n + 1) mod n = i)%nat.
Proof.
  intros Hi. destruct i as [|i].
  - simpl. rewrite (Nat.mod_small (n - 1)) by lia.
    replace (n - 1 + 1)%nat with n by lia. apply Nat.Div0.mod_same.
  - replace (S i + n - 1)%nat with (i + 1 * n)%nat by lia.
    rewrite Nat.Div0.mod_add. rewrite (Nat.mod_small i) by lia.
    rewrite Nat.mod_small by lia. lia.
Qed.

(** X17.  On a focused tab the arrow keys move the focus to a tab of the list,
    never outside it, wrapping at both ends; a step forward followed by a
    step backward, or the reverse, brings the focus back. *)
Theorem arrow_keys_cycle (st : State) (i : nat) :
  (i < navbarTabs st)%nat ->
  let forward := (i + 1) mod navbarTabs st in
  let backward := (i + navbarTabs st - 1) mod navbarTabs st in
  (forward < navbarTabs st)%nat /\ (backward < navbarTabs st)%nat /\
  focus (handle st (Keydown (Some i) "ArrowRight")) = OnTab forward /\
  focus (handle st (Keydown (Some i) "ArrowLeft")) = OnTab backward /\
  focus (handle (handle st (Keydown (Some i) "ArrowRight"))
           (Keydown (Some forward) "ArrowLeft")) = OnTab i /\
  focus (handle (handle st (Keydown (Some i) "ArrowLeft"))
           (Keydown (Some backward) "ArrowRight")) = OnTab i.
Proof.
  intros Hi forward backward.
  assert (Hf : (forward < navbarTabs st)%nat) by (apply Nat.mod_upper_bound; lia).
  assert (Hb : (backward < navbarTabs st)%nat) by (apply Nat.mod_upper_bound; lia).
  split; [exact Hf|]. split; [exact Hb|].
  rewrite (keydown_forward st i Hi), (keydown_backward st i Hi).
  fold forward backward.
  split; [reflexivity|]. split; [reflexivity|]. split.
  - rewrite (keydown_backward (set_focus (OnTab forward) st) forward Hf). simpl.
    unfold forward. rewrite (mod_forward_backward i _ Hi). reflexivity.
  - rewrite (keydown_forward (set_focus (OnTab backward) st) backward Hb). simpl.
    unfold backward. rewrite (mod_backward_forward i _ Hi). reflexivity.
Qed.

Lemma mobile_menu_stays_in_sync_witness :
  let events := [Keydown (Some 0) "ArrowRight"; Keydown None "Escape"]%string in
  (inSync sample -> inSync (run events sample))
  /\ inSync (run events (handle sample HamburgerClick)).
Proof.
  exact (mobile_menu_stays_in_sync
           [Keydown (Some 0) "ArrowRight"; Keydown None "Escape"]%string sample).
Defined.

Lemma hamburger_outside_navbar_never_opens_witness :
  isActive (run [HamburgerClick; OtherClick true; HamburgerClick]
              (mkState (Some (mkHamburger false None)) false (Some false) 4 Elsewhere))
  = false.
Proof.
  exact (hamburger_outside_navbar_never_opens
           [HamburgerClick; OtherClick true; HamburgerClick]
           (mkState (Some (mkHamburger false None)) false (Some false) 4 Elsewhere)
           eq_refl eq_refl).
Defined.

(** From the last of the four tabs the focus wraps to the first. *)
Lemma arrow_keys_cycle_witness :
  focus (handle sample (Keydown (Some 3) "ArrowRight")) = OnTab 0.
Proof.
  assert (Hi : (3 < navbarTabs sample)%nat) by (simpl; lia).
  exact (proj1 (proj2 (proj2 (arrow_keys_cycle sample 3 Hi)))).
Defined.

End NavigationFacts.

(* ===================================================================== *)
Module OverlayFacts.

Import NavigationOverlay.

Lemma openMenu_inSync (st : State) : inSync (openMenu st).
Proof.
  unfold inSync, openMenu. simpl. repeat split.
  intros running. destruct (lenisRunning st); congruence.
Qed.

Lemma closeMenu_inSync (st : State) : inSync (closeMenu st).
Proof.
  unfold inSync, closeMenu. simpl. repeat split.
  intros running. destruct (lenisRunning st); congruence.
Qed.

Lemma overlay_handle_inSync (st : State) (e : Event) :
  inSync st -> inSync (handle st e).
Proof.
  intros H. destruct e as [| |index|key]; simpl.
  - destruct (hamburgerListener _); [apply openMenu_inSync | exact H].
  - destruct (closeListener _); [apply closeMenu_inSync | exact H].
  - destruct (_ && _); [apply closeMenu_inSync | exact H].
  - destruct (_ && _); [apply closeMenu_inSync | exact H].
Qed.

(** X18.  The class [active] of the hamburger, the body's [overflow] and the
    Lenis scroller follow the overlay: when they agree with it (hamburger
    active, overflow hidden and Lenis stopped exactly while the overlay is
    open), they still do after every sequence of clicks and key presses. *)
Theorem overlay_stays_in_sync (events : list Event) (st : State) :
  inSync st -> inSync (run events st).
Proof.
  revert st. induction events as [|e events IH]; intros st H; [exact H|].
  apply (IH (handle st e)), overlay_handle_inSync, H.
Qed.

(** X19.  [init] uses the close button without testing that the page has one.
    On a page with the hamburger and the overlay but no [#close-nav-btn],
    the hamburger opens the menu and nothing closes it any more: neither a
    tab nor Escape. *)
Theorem overlay_without_close_button_stays_open (events : list Event) (st : State) :
  let st' := run events (handle (init true true false st) HamburgerClick) in
  overlayActive st' = true /\ hamburgerActive st' = true
  /\ bodyOverflow st' = "hidden"%string.
Proof.
  cbv zeta.
  assert (Hinv : forall s,
             wiring s = mkWiring true false false false false ->
             overlayActive s = true -> hamburgerActive s = true ->
             bodyOverflow s = "hidden"%string ->
             overlayActive (run events s) = true /\ hamburgerActive (run events s) = true
             /\ bodyOverflow (run events s) = "hidden"%string).
  { induction events as [|e events IH]; intros s Hw Ho Hh Hb; [auto|].
    change (run (e :: events) s) with (run events (handle s e)).
    destruct e as [| |index|key]; simpl; rewrite Hw; simpl.
    - apply IH; reflexivity || exact Hw.
    - apply IH; assumption.
    - apply IH; assumption.
    - apply IH; assumption. }
  apply Hinv; reflexivity.
Qed.

Lemma overlay_stays_in_sync_witness :
  inSync (run [HamburgerClick; Keydown "Escape"; Keydown "Escape"; HamburgerClick;
               TabClick 2]%string
            (init true true true loaded)).
Proof.
  apply overlay_stays_in_sync.
  split; [reflexivity|]. split; [reflexivity|].
  intros running Hr. injection Hr as <-. reflexivity.
Defined.

End OverlayFacts.

(* ===================================================================== *)
(** * Properties of the split headers *)

Module HeaderFacts.

Import HeaderAnimations.

Local Open Scope N_scope.

Lemma spans_split (h : Header) :
  spans (splitHeaderForScroll h) = map spanOf (trim (originalOf h)).
Proof.
  unfold spans, splitHeaderForScroll. simpl.
  induction (trim (originalOf h)) as [|c s IH]; simpl; [reflexivity|].
  f_equal. exact IH.
Qed.

Lemma textContent_split (h : Header) :
  textContent (splitHeaderForScroll h)
  = map (fun c => if c =? SPACE then NBSP else c) (trim (originalOf h)).
Proof.
  unfold textContent, splitHeaderForScroll. simpl.
  induction (trim (originalOf h)) as [|c s IH]; simpl; [reflexivity|].
  rewrite IH. unfold spanOf. destruct (c =? SPACE); reflexivity.
Qed.

Lemma trimStart_head (s : JSString) (c : N) (rest : JSString) :
  trimStart s = c :: rest -> FormHandling.isWhiteSpace c = false.
Proof.
  induction s as [|d s IH]; simpl; [discriminate|].
  destruct (FormHandling.isWhiteSpace d) eqn:Hd; [exact IH|].
  intros Heq. injection Heq as <- _. exact Hd.
Qed.

Lemma trimStart_suffix (s : JSString) : exists dropped, s = dropped ++ trimStart s.
Proof.
  induction s as [|d s [dropped IH]]; simpl; [exists []; reflexivity|].
  destruct (FormHandling.isWhiteSpace d).
  - exists (d :: dropped). simpl. f_equal. exact IH.
  - exists []. reflexivity.
Qed.

Lemma trimStart_fixed (s : JSString) (c : N) (rest : JSString) :
  s = c :: rest -> FormHandling.isWhiteSpace c = false -> trimStart s = s.
Proof. intros -> Hc. simpl. rewrite Hc. reflexivity. Qed.

(** A trimmed text is empty or begins and ends with a code unit that is not
    white space. *)
Lemma trim_ends (s : JSString) :
  trim s = [] \/
  exists first last middle middle',
    trim s = first :: middle /\ trim s = middle' ++ [last] /\
    FormHandling.isWhiteSpace first = false /\
    FormHandling.isWhiteSpace last = false.
Proof.
  unfold trim, trimEnd.
  destruct (trimStart (rev (trimStart s))) as [|last r] eqn:Hr; [left; reflexivity|].
  right. pose proof (trimStart_head _ _ _ Hr) as Hlast.
  destruct (trimStart_suffix (rev (trimStart s))) as [dropped Hd].
  rewrite Hr in Hd.
  assert (Hs : trimStart s = rev r ++ last :: rev dropped).
  { rewrite <- (rev_involutive (trimStart s)), Hd, rev_app_distr. simpl.
    rewrite <- app_assoc. reflexivity. }
  simpl rev.
  destruct (rev r) as [|first middle] eqn:Hrev.
  - exists last, last, [], []. simpl. repeat split; assumption.
  - exists first, last, (middle ++ [last]), (first :: middle). simpl.
    repeat split; try assumption.
    apply (trimStart_head s first (middle ++ last :: rev dropped)).
    rewrite Hs. reflexivity.
Qed.

Lemma trim_trim (s : JSString) : trim (trim s) = trim s.
Proof.
  destruct (trim_ends s) as [Hnil | (first & last & middle & middle' & Hf & Hl & Wf & Wl)].
  - rewrite Hnil. reflexivity.
  - unfold trim at 1. rewrite (trimStart_fixed _ _ _ Hf Wf).
    unfold trimEnd. rewrite Hl at 1. rewrite rev_app_distr. simpl.
    rewrite Wl. simpl. rewrite rev_involutive. symmetry. exact Hl.
Qed.

Lemma originalOf_split (h : Header) :
  originalOf (splitHeaderForScroll h) = originalOf h.
Proof.
  unfold originalOf at 1. simpl.
  destruct (originalOf h) as [|c s] eqn:Ho; [|reflexivity].
  unfold textContent. simpl. rewrite ?Ho. reflexivity.
Qed.

(** X20.  After the split the header reads as its saved text, trimmed, with a
    no-break space for every space; it holds one span for each code unit of
    the trimmed text, and its [data-original] is the saved text. *)
Theorem split_header_keeps_the_text (h : Header) :
  let h' := splitHeaderForScroll h in
  textContent h'
  = map (fun c => if c =? SPACE then NBSP else c) (trim (originalOf h))
  /\ length (spans h') = length (trim (originalOf h))
  /\ datasetOriginal h' = Some (originalOf h)
  /\ originalOf h' = originalOf h.
Proof.
  cbv zeta. split; [apply textContent_split|].
  split; [rewrite spans_split; apply length_map|].
  split; [reflexivity|]. apply originalOf_split.
Qed.

Lemma originalOf_saved (original : JSString) (nodes : list Node) :
  original <> [] -> originalOf (mkHeader (Some original) nodes) = original.
Proof.
  intros Hne. unfold originalOf. simpl. destruct original; [congruence | reflexivity].
Qed.

(** X21.  Splitting twice is splitting once; and the split is rebuilt from the
    saved text, not from what the header holds: once a text that is not
    empty has been saved, splitting again gives the same header whatever
    has replaced the children in between. *)
Theorem split_header_again (h : Header) :
  splitHeaderForScroll (splitHeaderForScroll h) = splitHeaderForScroll h
  /\ (originalOf h <> [] ->
      forall nodes,
        splitHeaderForScroll (mkHeader (datasetOriginal (splitHeaderForScroll h)) nodes)
        = splitHeaderForScroll h).
Proof.
  split.
  - unfold splitHeaderForScroll at 1 3.
    rewrite originalOf_split. reflexivity.
  - intros Hne nodes. unfold splitHeaderForScroll. simpl.
    rewrite (originalOf_saved _ nodes Hne). reflexivity.
Qed.

(** The text of a title, with spaces around it and an animation that has
    replaced the spans. *)
Example split_sample :
  let h := mkHeader None [Text (FormHandling.ofString "  We build  ")] in
  spans (splitHeaderForScroll h)
  = [ScrollLetter 87; ScrollLetter 101; ScrollSpace; ScrollLetter 98;
     ScrollLetter 117; ScrollLetter 105; ScrollLetter 108; ScrollLetter 100]
  /\ splitHeaderForScroll
       (mkHeader (datasetOriginal (splitHeaderForScroll h)) [Text [NBSP]])
     = splitHeaderForScroll h.
Proof. vm_compute. split; reflexivity. Qed.

(** X22.  No span made by the split is a letter span holding a space, and the
    first and the last span are letter spans: the spaces at both ends of the
    text are never turned into spans. *)
Theorem split_header_has_no_outer_space (h : Header) :
  let made := spans (splitHeaderForScroll h) in
  (forall c, In (ScrollLetter c) made -> c <> SPACE)
  /\ (made = [] \/
      exists first last middle middle',
        made = ScrollLetter first :: middle /\ made = middle' ++ [ScrollLetter last]).
Proof.
  cbv zeta. rewrite spans_split. split.
  - intros c Hin. apply in_map_iff in Hin as (d & Hd & _).
    unfold spanOf in Hd. destruct (d =? SPACE) eqn:Heq; [discriminate|].
    injection Hd as ->. apply N.eqb_neq. exact Heq.
  - destruct (trim_ends (originalOf h))
      as [-> | (first & last & middle & middle' & Hf & Hl & Wf & Wl)]; [left; reflexivity|].
    right. exists first, last, (map spanOf middle), (map spanOf middle').
    assert (Hletter : forall c, FormHandling.isWhiteSpace c = false ->
                                spanOf c = ScrollLetter c).
    { intros c Hc. unfold spanOf. destruct (c =? SPACE) eqn:Heq; [|reflexivity].
      apply N.eqb_eq in Heq. subst c. discriminate. }
    split.
    + rewrite Hf. simpl. rewrite (Hletter first Wf). reflexivity.
    + rewrite Hl, map_app. simpl. rewrite (Hletter last Wl). reflexivity.
Qed.

End HeaderFacts.

(* ===================================================================== *)
(** * Properties of the sound button and of the orbiting tools *)

Module SoundFacts.

Import SoundButton.

Lemma observe_labelled (st : State) (b : bool) : labelled st -> labelled (observe st b).
Proof.
  intros H. unfold observe. destruct (negb b); [|exact H].
  destruct (negb (muted st)); [reflexivity | exact H].
Qed.

Lemma observe_soundOn (st : State) (b : bool) :
  soundOn st = negb (muted st) -> soundOn (observe st b) = negb (muted (observe st b)).
Proof.
  intros H. unfold observe. destruct (negb b); [|exact H].
  destruct (muted st) eqn:Hm; simpl; [rewrite Hm; exact H | reflexivity].
Qed.

Lemma handle_labelled (st : State) (e : Event) : labelled st -> labelled (handle st e).
Proof.
  intros H. destruct e as [|key|entries]; simpl.
  - unfold toggleSound. destruct (negb (paused _)); reflexivity.
  - unfold keydown. destruct (_ || _); [|exact H].
    unfold toggleSound. destruct (negb (paused _)); reflexivity.
  - revert st H. induction entries as [|b entries IH]; intros st H; [exact H|].
    simpl. apply IH, observe_labelled, H.
Qed.

Lemma handle_soundOn (st : State) (e : Event) :
  soundOn st = negb (muted st) -> soundOn (handle st e) = negb (muted (handle st e)).
Proof.
  intros H. destruct e as [|key|entries]; simpl.
  - unfold toggleSound. destruct (negb (paused _)); reflexivity.
  - unfold keydown. destruct (_ || _); [|exact H].
    unfold toggleSound. destruct (negb (paused _)); reflexivity.
  - revert st H. induction entries as [|b entries IH]; intros st H; [exact H|].
    simpl. apply IH, observe_soundOn, H.
Qed.

Lemma observe_mutes (entries : list bool) (st : State) :
  muted st = true \/ In false entries ->
  muted (fold_left observe entries st) = true.
Proof.
  revert st. induction entries as [|b entries IH]; intros st [Hm | Hin]; simpl.
  - exact Hm.
  - destruct Hin.
  - apply IH. left. unfold observe. destruct (negb b); [|exact Hm].
    rewrite Hm. exact Hm.
  - apply IH. destruct Hin as [-> | Hin]; [|auto].
    left. unfold observe. simpl. destruct (muted st) eqn:Hm; [exact Hm | reflexivity].
Qed.

Lemma run_labelled (events : list Event) (s : State) :
  labelled s -> labelled (run events s).
Proof.
  revert s. induction events as [|e events IH]; intros s H; [exact H|].
  apply (IH (handle s e)), handle_labelled, H.
Qed.

Lemma run_soundOn (events : list Event) (s : State) :
  soundOn s = negb (muted s) ->
  soundOn (run events s) = negb (muted (run events s)).
Proof.
  revert s. induction events as [|e events IH]; intros s H; [exact H|].
  apply (IH (handle s e)), handle_soundOn, H.
Qed.

(** X23.  From the setup on, the button's [aria-label] always names the action
    that matches the video's [muted]; the class [sound-on], once it agrees
    with [muted], agrees for good, and it does after the first click; and
    when the hero section leaves the viewport the video is muted, the
    class gone. *)
Theorem sound_button_tells_the_truth (events : list Event) (st : State) :
  labelled (run events (setup st))
  /\ (soundOn st = negb (muted st) ->
      soundOn (run events (setup st)) = negb (muted (run events (setup st))))
  /\ soundOn (run events (handle (setup st) Click))
     = negb (muted (run events (handle (setup st) Click)))
  /\ (forall entries, In false entries ->
      muted (handle (run events (setup st)) (Intersection entries)) = true).
Proof.
  split; [apply run_labelled; reflexivity|].
  split; [intros H; apply run_soundOn; exact H|].
  split.
  - apply run_soundOn. simpl. unfold toggleSound. destruct (negb (paused _)); reflexivity.
  - intros entries Hin. simpl. apply observe_mutes. right. exact Hin.
Qed.

End SoundFacts.

Module ToolsFacts.

Import ToolsAnimation.

Lemma init_oneHighlight (playStates : list (option PlayState)) :
  oneHighlight (init playStates).
Proof.
  intros j m Hm. unfold init in *. simpl in *.
  rewrite list_lookup_fmap in Hm.
  destruct (playStates !! j); [|discriminate]. injection Hm as <-. simpl.
  split; [split; discriminate | discriminate].
Qed.

Lemma observe_oneHighlight (st : State) (b : bool) :
  oneHighlight st -> oneHighlight (observe st b).
Proof.
  intros H j m Hm. unfold observe in Hm. simpl in *.
  rewrite list_lookup_imap in Hm.
  destruct (toolMoons st !! j) as [m0|] eqn:Hm0; [|discriminate].
  simpl in Hm. injection Hm as <-.
  destruct (H j m0 Hm0) as [Ht Hp].
  destruct b.
  - unfold isActive. destruct (activeMoon st) as [a|] eqn:Ha.
    + destruct (Nat.eqb a j) eqn:Haj.
      * split; assumption.
      * simpl. split; [exact Ht|]. intros Heq. injection Heq as ->.
        rewrite Nat.eqb_refl in Haj. discriminate.
    + simpl. split; [exact Ht | discriminate].
  - simpl. split; [exact Ht | reflexivity].
Qed.

Lemma reset_active_oneHighlight (st : State) (a : nat) :
  oneHighlight st -> activeMoon st = Some a ->
  oneHighlight (set_activeMoon None (resetMoon a st)).
Proof.
  intros H Ha j m Hm. simpl in *.
  destruct (decide (a = j)) as [->|Hne].
  - rewrite list_lookup_alter_eq in Hm.
    destruct (toolMoons st !! j); [|discriminate]. injection Hm as <-. simpl.
    split; [split; discriminate | discriminate].
  - rewrite list_lookup_alter_ne in Hm by exact Hne.
    destruct (H j m Hm) as [Ht _]. rewrite Ha in Ht.
    split; [|discriminate]. split; [|discriminate].
    intros Hact. apply Ht in Hact. congruence.
Qed.

Lemma activate_oneHighlight (st : State) (k : nat) :
  oneHighlight st -> activeMoon st = None ->
  oneHighlight (set_activeMoon (Some k) (activateMoon k st)).
Proof.
  intros H Ha j m Hm. simpl in *.
  destruct (decide (k = j)) as [->|Hne].
  - rewrite list_lookup_alter_eq in Hm.
    destruct (toolMoons st !! j); [|discriminate]. injection Hm as <-. simpl.
    split; [split; reflexivity | reflexivity].
  - rewrite list_lookup_alter_ne in Hm by exact Hne.
    destruct (H j m Hm) as [Ht _]. rewrite Ha in Ht.
    split; [|congruence]. split; [|congruence].
    intros Hact. apply Ht in Hact. discriminate.
Qed.

Lemma documentClick_oneHighlight (st : State) :
  oneHighlight st -> oneHighlight (documentClick st).
Proof.
  intros H. unfold documentClick.
  destruct (activeMoon st) as [a|] eqn:Ha; [|exact H].
  apply reset_active_oneHighlight; assumption.
Qed.

Lemma moonClick_oneHighlight (st : State) (k : nat) :
  oneHighlight st -> oneHighlight (moonClick k st).
Proof.
  intros H. unfold moonClick.
  destruct (activeMoon st) as [a|] eqn:Ha.
  - destruct (Nat.eqb a k) eqn:Hak; simpl negb; cbv iota.
    + apply Nat.eqb_eq in Hak. subst a.
      unfold isActive. rewrite Ha, Nat.eqb_refl.
      apply reset_active_oneHighlight; assumption.
    + unfold isActive. simpl activeMoon. rewrite Ha, Hak.
      pose proof (reset_active_oneHighlight st a H Ha) as Hreset.
      pose proof (activate_oneHighlight _ k Hreset eq_refl) as Hact.
      exact Hact.
  - unfold isActive. rewrite Ha. apply activate_oneHighlight; assumption.
Qed.

Lemma tools_handle_oneHighlight (st : State) (e : Event) :
  oneHighlight st -> oneHighlight (handle st e).
Proof.
  intros H. destruct e as [k| |entries]; simpl.
  - destruct (k <? length _)%nat; [apply moonClick_oneHighlight, H | exact H].
  - apply documentClick_oneHighlight, H.
  - revert st H. induction entries as [|b entries IH]; intros st H; [exact H|].
    simpl. apply IH, observe_oneHighlight, H.
Qed.

(** X24.  On a touch device, whatever is tapped and however the section moves
    in and out of the viewport, the moon that [activeMoon] names is the only
    one highlighted, and it is paused: at most one tool is highlighted at
    any time. *)
Theorem at_most_one_tool_highlighted
  (playStates : list (option PlayState)) (events : list Event) :
  oneHighlight (run events (init playStates)).
Proof.
  assert (Hrun : forall st, oneHighlight st -> oneHighlight (run events st)).
  { induction events as [|e events IH]; intros st H; [exact H|].
    apply (IH (handle st e)), tools_handle_oneHighlight, H. }
  apply Hrun, init_oneHighlight.
Qed.

End ToolsFacts.

(* ===================================================================== *)
(** * Properties of the revealed letters and of the dots *)

Module RevealFacts.

Import JSMath LetterReveal.

Local Open Scope float_scope.

(** [Math.round] on some numbers: ties go up, small negative numbers round
    to [-0], and the number just below one half rounds to zero. *)
Example round_samples :
  map Math_round [2.5; (-2.5); 2.4; (-2.6); 0.4; (-0.4); 0.5; (-0.5); 1e300; 0;
                  0.49999999999999994; 4503599627370495.5; 3]
  = [3; (-2); 2; (-3); 0; (-0); 1; (-0); 1e300; 0; 0; 4503599627370496; 3].
Proof. vm_compute. reflexivity. Qed.

Example index_samples :
  map toIndex [0; (-0); 3; 2.5; (-1); nan; infinity; 12]
  = [Some 0; Some 0; Some 3; None; None; None; None; Some 12]%nat.
Proof. vm_compute. reflexivity. Qed.

Example max_min_samples :
  map (fun p => Math_max (fst p) (snd p))
      [(0, (-0)); ((-0), 0); (1, nan); (2, 3); ((-0), (-0))]
  = [0; 0; nan; 3; (-0)]
  /\ map (fun p => Math_min (fst p) (snd p))
         [(0, (-0)); ((-0), 0); (1, nan); (2, 3); (0, 0)]
     = [(-0); (-0); nan; 2; 0].
Proof. vm_compute. split; reflexivity. Qed.

(** Zero times a quotient by zero is NaN, and NaN is below nothing. *)
Lemma zero_times_quotient_by_zero (h r : float) :
  (0 * (h / 0) <=? r) = false.
Proof.
  rewrite FloatAxioms.leb_spec, FloatAxioms.mul_spec, FloatAxioms.div_spec.
  change (Prim2SF 0) with (S754_zero false).
  destruct (Prim2SF h) as [s|s| |s m e]; reflexivity.
Qed.

(** X25.  A header of a single letter is never revealed.  The distance between
    two trigger points is the height of the section divided by the number of
    letters minus one, here by zero; the trigger point of the letter is zero
    times that, which is NaN, and no scroll position is at or beyond NaN. *)
Theorem single_letter_is_never_revealed
  (rect : DOMRect) (window : Window) (visible : bool) :
  checkScroll rect window [visible] = [false].
Proof.
  unfold checkScroll. destruct (outOfView rect window); [reflexivity|].
  simpl. unfold triggerPoint, triggerInterval. simpl length.
  change (ofNat 0) with 0. change (ofNat 1 - 1) with 0.
  rewrite zero_times_quotient_by_zero. reflexivity.
Qed.

Lemma finite_cases (a : float) :
  is_finite a = true ->
  (exists s, Prim2SF a = S754_zero s)
  \/ (exists s m e, Prim2SF a = S754_finite s m e).
Proof.
  unfold is_finite, is_nan, is_infinity. intros Hfinite.
  rewrite !FloatAxioms.eqb_spec, FloatAxioms.abs_spec in Hfinite.
  change (Prim2SF infinity) with (S754_infinity false) in Hfinite.
  destruct (Prim2SF a) as [s|[|]| |s m e]; simpl in Hfinite;
    try discriminate; eauto.
Qed.

Lemma zero_times_finite (t : float) :
  is_finite t = true -> exists s, Prim2SF (0 * t) = S754_zero s.
Proof.
  intros Ht. rewrite FloatAxioms.mul_spec.
  change (Prim2SF 0) with (S754_zero false).
  destruct (finite_cases t Ht) as [[s ->] | (s & m & e & ->)]; simpl; eauto.
Qed.

Lemma Math_min_not_nan (a b : float) :
  is_nan a = false -> is_nan b = false -> is_nan (Math_min a b) = false.
Proof.
  intros Ha Hb. unfold Math_min. rewrite Ha, Hb. simpl.
  destruct (a <? b); [exact Ha|]. destruct (b <? a); [exact Hb|].
  destruct (isNegativeZero a); assumption.
Qed.

(** The larger of zero and a number is not below a zero. *)
Lemma Math_max_zero (y : float) (z : float) (s : bool) :
  is_nan y = false -> Prim2SF z = S754_zero s ->
  (z <=? Math_max 0 y) = true.
Proof.
  intros Hy Hz. unfold Math_max. rewrite Hy.
  change (is_nan 0) with false. simpl orb. cbv iota.
  change (isNegativeZero 0) with false. cbv iota.
  destruct (0 <? y) eqn:Hlt.
  - rewrite FloatAxioms.leb_spec, Hz. rewrite FloatAxioms.ltb_spec in Hlt.
    change (Prim2SF 0) with (S754_zero false) in Hlt.
    unfold SFleb, SFltb in *.
    destruct (Prim2SF y) as [sy|sy| |sy my ey]; simpl in *; try discriminate;
      destruct sy; simpl in *; try discriminate; reflexivity.
  - assert (Hzero : (z <=? 0) = true).
    { rewrite FloatAxioms.leb_spec, Hz. reflexivity. }
    destruct (y <? 0); exact Hzero.
Qed.

(** X26.  While the section is in view, the first letter of a header is
    visible, provided the numbers involved are numbers: the scroll offset
    into the section and the height are not NaN, and the distance between
    trigger points is finite. *)
Theorem first_letter_is_revealed_in_view
  (rect : DOMRect) (window : Window) (visible : bool) (letters : list bool) :
  outOfView rect window = false ->
  is_finite (triggerInterval rect (visible :: letters)) = true ->
  is_nan (scrollY window + innerHeight window - sectionTop rect window) = false ->
  is_nan (sectionHeight rect) = false ->
  exists others,
    checkScroll rect window (visible :: letters) = true :: others
    /\ length others = length letters.
Proof.
  intros Hview Hfinite Hx Hh. unfold checkScroll. rewrite Hview.
  simpl imap. eexists. split; [|apply length_imap].
  f_equal. unfold triggerPoint. change (ofNat 0) with 0.
  destruct (zero_times_finite _ Hfinite) as [s Hs].
  apply (Math_max_zero _ _ s); [|exact Hs].
  apply Math_min_not_nan; assumption.
Qed.

(** A section of height 600 at the top of a page scrolled by 100, in a
    window of height 800, and a header of four letters. *)
Lemma first_letter_is_revealed_in_view_witness :
  exists others,
    checkScroll (mkDOMRect (-100) 600) (mkWindow 100 800) [false; false; false; false]
    = true :: others
    /\ length others = 3%nat.
Proof.
  apply (first_letter_is_revealed_in_view (mkDOMRect (-100) 600) (mkWindow 100 800)
           false [false; false; false]);
    vm_compute; reflexivity.
Defined.

End RevealFacts.

Module DotsFacts.

Import JSMath HorizontalScroll.

Local Open Scope float_scope.

Lemma toIndex_zero : toIndex 0 = Some 0%nat.
Proof. reflexivity. Qed.

Lemma setActive_lookup (x : float) (value : bool) (ds : list bool) (i : nat) :
  setActive x value ds !! i
  = if decide (toIndex x = Some i) then (fun _ => value) <$> ds !! i else ds !! i.
Proof.
  unfold setActive. destruct (toIndex x) as [j|] eqn:Hx.
  - destruct (decide (j = i)) as [->|Hne].
    + rewrite list_lookup_alter_eq. rewrite decide_True by reflexivity. reflexivity.
    + rewrite list_lookup_alter_ne by exact Hne.
      rewrite decide_False by congruence. reflexivity.
  - rewrite decide_False by discriminate. reflexivity.
Qed.

Lemma init_oneActive (existing : list bool) (cards : nat) (cue : option bool) :
  Forall (eq false) existing -> oneActive (init existing cards cue).
Proof.
  intros Hexisting i Hi. unfold init in *. simpl in *.
  rewrite setActive_lookup in Hi.
  destruct (decide (toIndex 0 = Some i)) as [Heq|Hne]; [exact Heq|].
  exfalso.
  assert (Hall : Forall (eq false) (existing ++ repeat false cards)).
  { apply Forall_app. split; [exact Hexisting|].
    apply Forall_forall. intros b Hb. apply list_elem_of_In, repeat_spec in Hb.
    congruence. }
  rewrite Forall_forall in Hall.
  specialize (Hall true (list_elem_of_lookup_2 _ _ _ Hi)). discriminate.
Qed.

Lemma onScroll_oneActive (st : State) (scrollLeft innerWidth : float) :
  oneActive st -> oneActive (onScroll st scrollLeft innerWidth).
Proof.
  intros H i Hi. unfold onScroll in *.
  destruct (negb (JS.strict_eq _ _)); simpl in *; [|exact (H i Hi)].
  rewrite setActive_lookup in Hi.
  destruct (decide (toIndex (Math_round (scrollLeft / innerWidth)) = Some i))
    as [Heq|Hne]; [exact Heq|].
  exfalso. rewrite setActive_lookup in Hi.
  destruct (decide (toIndex (currentActiveDot st) = Some i)) as [Hc|Hc].
  - destruct (dots st !! i); discriminate.
  - exact (Hc (H i Hi)).
Qed.

Lemma scrolls_oneActive
  (existing : list bool) (cards : nat) (cue : option bool)
  (positions : list (float * float)) :
  Forall (eq false) existing ->
  oneActive (scrolls positions (init existing cards cue)).
Proof.
  intros Hexisting.
  assert (Hrun : forall st, oneActive st -> oneActive (scrolls positions st)).
  { induction positions as [|[l w] positions IH]; intros st H; [exact H|].
    apply (IH (onScroll st l w)), onScroll_oneActive, H. }
  apply Hrun, init_oneActive, Hexisting.
Qed.

(** Two Numbers that [===] holds of denote the same index. *)
Lemma strict_eq_toIndex (a c : float) :
  JS.strict_eq a c = true -> toIndex a = toIndex c.
Proof.
  unfold JS.strict_eq, toIndex. rewrite FloatAxioms.eqb_spec. unfold SFeqb.
  destruct (Prim2SF a) as [sa|sa| |sa ma ea], (Prim2SF c) as [sc|sc| |sc mc ec];
    simpl; intros Heq;
    try reflexivity; try discriminate;
    try (destruct sa; discriminate); try (destruct sc; discriminate);
    try (destruct sa, sc; first [discriminate | reflexivity]).
  destruct sa, sc; try discriminate;
    destruct (ea ?= ec)%Z eqn:He; try discriminate;
    apply Z.compare_eq in He; subst ec;
    change PosDef.Pos.compare_cont with Pos.compare_cont in Heq;
    destruct (Pos.compare_cont Eq ma mc) eqn:Hm; try discriminate;
    apply Pos.compare_eq in Hm; subst mc; reflexivity.
Qed.

Lemma length_setActive (x : float) (value : bool) (ds : list bool) :
  length (setActive x value ds) = length ds.
Proof. unfold setActive. destruct (toIndex x); [apply length_alter | reflexivity]. Qed.

Lemma init_currentIsActive (existing : list bool) (cards : nat) (cue : option bool) :
  currentIsActive (init existing cards cue).
Proof.
  intros j Hj Hlen. unfold init in *. simpl in *.
  rewrite length_setActive in Hlen.
  rewrite setActive_lookup, decide_True by exact Hj.
  destruct (lookup_lt_is_Some_2 _ _ Hlen) as [b ->]. reflexivity.
Qed.

Lemma onScroll_currentIsActive (st : State) (scrollLeft innerWidth : float) :
  currentIsActive st -> currentIsActive (onScroll st scrollLeft innerWidth).
Proof.
  intros H j Hj Hlen. unfold onScroll in *.
  destruct (negb (JS.strict_eq _ _)); simpl in *; [|exact (H j Hj Hlen)].
  rewrite !length_setActive in Hlen.
  rewrite setActive_lookup, decide_True by exact Hj.
  assert (Hlen' : (j < length (setActive (currentActiveDot st) false (dots st)))%nat)
    by (rewrite length_setActive; exact Hlen).
  destruct (lookup_lt_is_Some_2 _ _ Hlen') as [b ->]. reflexivity.
Qed.

Lemma onScroll_current (st : State) (scrollLeft innerWidth : float) :
  toIndex (currentActiveDot (onScroll st scrollLeft innerWidth))
  = toIndex (Math_round (scrollLeft / innerWidth)).
Proof.
  unfold onScroll.
  destruct (JS.strict_eq _ _) eqn:Heq; simpl; [|reflexivity].
  symmetry. apply strict_eq_toIndex, Heq.
Qed.

Lemma scrolls_currentIsActive (history : list (float * float)) (s : State) :
  currentIsActive s -> currentIsActive (scrolls history s).
Proof.
  revert s. induction history as [|[l w] history IH]; intros s Hs; [exact Hs|].
  apply (IH (onScroll s l w)), onScroll_currentIsActive, Hs.
Qed.

Lemma length_onScroll (s : State) (l w : float) :
  length (dots (onScroll s l w)) = length (dots s).
Proof.
  unfold onScroll. destruct (negb _); simpl; [|reflexivity].
  rewrite !length_setActive. reflexivity.
Qed.

Lemma length_scrolls (history : list (float * float)) (s : State) :
  length (dots (scrolls history s)) = length (dots s).
Proof.
  revert s. induction history as [|[l w] history IH]; intros s; [reflexivity|].
  change (scrolls ((l, w) :: history) s) with (scrolls history (onScroll s l w)).
  rewrite IH. apply length_onScroll.
Qed.

(** X27.  After every scroll event the active dots are exactly described by the
    scroll position: dot [i] is active if and only if [i] is the rounded
    quotient of [scrollLeft] by the window width and there is a dot [i].
    When the quotient is not the number of a dot (it is negative, too large
    or NaN), no dot is active. *)
Theorem dots_follow_the_scroll
  (existing : list bool) (cards : nat) (cue : option bool)
  (history : list (float * float)) (scrollLeft innerWidth : float) (i : nat) :
  Forall (eq false) existing ->
  let st := onScroll (scrolls history (init existing cards cue)) scrollLeft innerWidth in
  dots st !! i = Some true
  <-> toIndex (Math_round (scrollLeft / innerWidth)) = Some i
      /\ (i < length existing + cards)%nat.
Proof.
  intros Hexisting st.
  assert (Hone : oneActive st)
    by (apply onScroll_oneActive, scrolls_oneActive, Hexisting).
  assert (Hcur : currentIsActive st)
    by (apply onScroll_currentIsActive, scrolls_currentIsActive,
          init_currentIsActive).
  assert (Hlen : length (dots st) = (length existing + cards)%nat).
  { unfold st. rewrite length_onScroll, length_scrolls. unfold init. simpl.
    rewrite length_setActive, length_app, repeat_length. reflexivity. }
  rewrite <- (onScroll_current (scrolls history (init existing cards cue))
                scrollLeft innerWidth), <- Hlen.
  fold st. split.
  - intros Hi. split; [apply Hone, Hi|].
    apply lookup_lt_is_Some_1. eauto.
  - intros [Hi Hlt]. apply Hcur; assumption.
Qed.

(** Three cards in a window 390 wide, scrolled to 390, to 800 and then to
    785: the third dot is the active one. *)
Lemma dots_follow_the_scroll_witness :
  dots (onScroll (scrolls [(390, 390); (800, 390)] (init [] 3 (Some false))) 785 390)
    !! 2%nat = Some true
  <-> toIndex (Math_round (785 / 390)) = Some 2%nat /\ (2 < length (@nil bool) + 3)%nat.
Proof.
  exact (dots_follow_the_scroll [] 3 (Some false) [(390, 390); (800, 390)] 785 390 2
           (@List.Forall_nil bool (eq false))).
Defined.

End DotsFacts.
